(** * jupyter_events: the EventLogger of [jupyter_events/logger.py]

    A shallow embedding of [EventLogger] (schema registration, modifier
    registration and removal, [emit]) together with the parts of the Python
    run time it leans on: an object heap with reference semantics,
    [copy.deepcopy], the [warnings] module under the ["once"] filter that
    the module installs at import time, and the schema registry
    collaborator seen through its interface.

    - Event data are dicts and lists held by reference in a heap, so that
      what a modifier or the validator writes in place is seen through
      every reference to the object; numbers are integers, and the keys
      of a dict are strings, as in JSON.
    - [emit] and the collaborators it calls run in a monad over the world
      (heap, once-registry of [warnings], clock, order of the keys of the
      dicts, trace of calls) and may raise.
    - The methods that change the logger return the exception, if any,
      together with the logger as the call left it.
    - Handlers are opaque; what [self.log.info] does with the capsule
      (formatting, writing) is the [logging] module's and is recorded as
      one event of the trace.
    - [__init__], [register_handler] and [remove_handler] work on
      [self.handlers] and on the [logging.Logger] of the instance, kept
      beside the logger as its list of handlers, [propagate], its level
      and the formatter of each handler. *)

From Stdlib Require Import ZArith String Ascii List Lia DecimalString.
From Stdlib Require DecimalPos DecimalZ.
From stdpp Require Import base option list gmap strings.

(** ** Exceptions and results *)

Inductive exn :=
| TypeError
| KeyError
| ModifierError
| ValueError
| RecursionError
| CollaboratorError (code : nat)   (* raised inside the schema registry *)
| ModifierRaised (code : nat).     (* raised inside the body of a modifier *)

Inductive result (A : Type) :=
| Ok (a : A)
| Raise (e : exn).
Arguments Ok {A} a.
Arguments Raise {A} e.

(** What a call into code that is not the logger's (a modifier, the
    schema registry) comes back with: a value, or an exception of that
    code's own, known by a number. The logger sees the latter as
    [ModifierRaised] or [CollaboratorError]. *)
Inductive outcome (A : Type) :=
| Returns (a : A)
| Throws (code : nat).
Arguments Returns {A} a.
Arguments Throws {A} code.

Definition from_modifier {A} (o : outcome A) : result A :=
  match o with
  | Returns a => Ok a
  | Throws code => Raise (ModifierRaised code)
  end.

Definition from_registry {A} (o : outcome A) : result A :=
  match o with
  | Returns a => Ok a
  | Throws code => Raise (CollaboratorError code)
  end.

Global Instance exn_eq_dec : EqDecision exn.
Proof. solve_decision. Defined.

(** ** Python values and the object heap

    Immutable values are carried directly; dicts and lists are objects of
    the heap and are held by reference, so that two references to one
    object see each other's writes. *)

Abbreviation loc := nat.

Inductive val :=
| VNone
| VBool (b : bool)
| VInt (z : Z)
| VStr (s : string)
| VRef (l : loc).

Inductive obj :=
| ODict (items : gmap string val)
| OList (elems : list val).

Global Instance val_eq_dec : EqDecision val.
Proof. solve_decision. Defined.

Global Instance obj_eq_dec : EqDecision obj.
Proof. solve_decision. Defined.

(** The heap is a growing array of objects; a reference is an index and a
    new object is allocated at the end. *)
Abbreviation heap := (list obj).

Definition alloc (o : obj) (h : heap) : loc * heap := (length h, h ++ [o]).

Definition obj_vals (o : obj) : list val :=
  match o with
  | ODict items => (map_to_list items).*2
  | OList elems => elems
  end.

(** [{}] or [[]], the object [deepcopy] registers in its memo before it
    fills it. *)
Definition obj_blank (o : obj) : obj :=
  match o with
  | ODict _ => ODict ∅
  | OList _ => OList []
  end.

(** The container of [o] holding the copied values [vs]. *)
Definition obj_fill (o : obj) (vs : list val) : obj :=
  match o with
  | ODict items => ODict (list_to_map (zip ((map_to_list items).*1) vs))
  | OList _ => OList vs
  end.

(** [d.update(other)] for [other] a dict: the entries of [other] are
    written over those of [d]. The order of the entries of a dict plays
    no part here. *)
Definition dict_update (d other : gmap string val) : gmap string val := other ∪ d.

(** ** [d.update(other)] for [other] a list

    [dict.update] takes a mapping or an iterable of key/value pairs.
    Each element of the iterable is made into a sequence: a list is its
    elements, a [str] its characters, a dict its keys in the order they
    were inserted; [None], a [bool] or an [int] cannot be iterated
    ([TypeError]). A sequence whose length is not two is refused
    ([ValueError]). The first of the two is the key and is hashed: a list
    or a dict cannot be ([TypeError]). The elements are taken in order,
    and what was written before an exception stays written. *)

(** The keys of [d] in the order [order], as far as [order] names them;
    the keys it does not name come after. *)
Definition keys_in_order (order : list string) (d : gmap string val) : list string :=
  let named := remove_dups (filter (fun k => is_Some (d !! k)) order) in
  named ++ filter (fun k => k ∉ named) (map_to_list d).*1.

(** An element of the iterable as a sequence; [order l] is the order of
    the keys of the dict at [l]. *)
Definition as_sequence (order : loc → list string) (h : heap) (item : val)
    : result (list val) :=
  match item with
  | VStr s => Ok ((fun c => VStr (String c EmptyString)) <$> list_ascii_of_string s)
  | VRef l =>
      match h !! l with
      | Some (OList elems) => Ok elems
      | Some (ODict d) => Ok (VStr <$> keys_in_order (order l) d)
      | None => Raise TypeError
      end
  | _ => Raise TypeError
  end.

(** The key and the value an element stands for. A key that is [None], a
    [bool] or an [int] is hashable, and Python writes the entry; the dict
    then has a key that is not a [str], which JSON data never has and the
    dicts of the heap do not hold: such a key is given as [None] here,
    and the entry is accepted and left out. *)
Definition update_pair (order : loc → list string) (h : heap) (item : val)
    : result (option string * val) :=
  match as_sequence order h item with
  | Raise e => Raise e
  | Ok [key; value] =>
      match key with
      | VStr k => Ok (Some k, value)
      | VRef _ => Raise TypeError
      | _ => Ok (None, value)
      end
  | Ok _ => Raise ValueError
  end.

Fixpoint update_from_seq (order : loc → list string) (h : heap) (items : list val)
    (d : gmap string val) : result unit * gmap string val :=
  match items with
  | [] => (Ok tt, d)
  | item :: items' =>
      match update_pair order h item with
      | Ok (Some k, value) => update_from_seq order h items' (<[k := value]> d)
      | Ok (None, _) => update_from_seq order h items' d
      | Raise e => (Raise e, d)
      end
  end.

(** ** [copy.deepcopy]

    The copy of a dict or list is a new object whose members are the
    copies of the members; [memo] maps each container already met to its
    copy, so shared and cyclic structure is copied once. Strings, numbers,
    booleans and [None] are returned as they are. The recursion of the
    Python function is bounded here by [fuel]; [deepcopy] passes the
    number of objects of the heap, which is enough (see
    [deepcopy_total]). *)

Record cstate := { c_heap : heap; c_memo : gmap loc loc }.

Fixpoint copy_all (f : val → cstate → option (val * cstate))
    (vs : list val) (s : cstate) : option (list val * cstate) :=
  match vs with
  | [] => Some ([], s)
  | v :: vs' =>
      match f v s with
      | None => None
      | Some (v', s1) =>
          match copy_all f vs' s1 with
          | None => None
          | Some (vs'', s2) => Some (v' :: vs'', s2)
          end
      end
  end.

Fixpoint deepcopy_val (fuel : nat) (v : val) (s : cstate) : option (val * cstate) :=
  match v with
  | VRef l =>
      match c_memo s !! l with
      | Some y => Some (VRef y, s)
      | None =>
          match fuel with
          | O => None
          | S fuel' =>
              match c_heap s !! l with
              | None => None
              | Some o =>
                  let y := length (c_heap s) in
                  let s1 := {| c_heap := c_heap s ++ [obj_blank o];
                               c_memo := <[l := y]> (c_memo s) |} in
                  match copy_all (deepcopy_val fuel') (obj_vals o) s1 with
                  | None => None
                  | Some (vs', s2) =>
                      Some (VRef y,
                            {| c_heap := <[y := obj_fill o vs']> (c_heap s2);
                               c_memo := c_memo s2 |})
                  end
              end
          end
      end
  | _ => Some (v, s)
  end.

Definition deepcopy (h : heap) (l : loc) : option (loc * heap) :=
  match deepcopy_val (length h) (VRef l) {| c_heap := h; c_memo := ∅ |} with
  | Some (VRef y, s) => Some (y, c_heap s)
  | _ => None
  end.

(** Every reference stored in an object of the heap points into the heap. *)
Definition val_ok (n : nat) (v : val) : Prop :=
  match v with
  | VRef l => l < n
  | _ => True
  end.

Definition heap_wf (h : heap) : Prop :=
  ∀ l o, h !! l = Some o → Forall (val_ok (length h)) (obj_vals o).

(** The objects from index [n] on refer only to objects from [n] on. *)
Definition val_above (n : nat) (v : val) : Prop :=
  match v with
  | VRef l => n ≤ l
  | _ => True
  end.

Definition closed_above (n : nat) (h : heap) : Prop :=
  ∀ l o, n ≤ l → h !! l = Some o → Forall (val_above n) (obj_vals o).

(** ** The world outside the logger

    What [emit] reads and writes besides the logger itself: the heap, the
    once-registry of the [warnings] module, the clock, and a trace of the
    calls made to collaborators, in the order they were made.

    [w_key_order l] gives the keys of the dict at [l] in the order in
    which they were inserted. A dict of the heap is kept as a finite map
    and does not record that order; the one step that depends on it, a
    dict taken as a key/value pair by [dict.update], reads it here. *)

Definition key := (string * Z)%type.

Inductive category := SchemaNotRegistered.

Global Instance category_eq_dec : EqDecision category.
Proof. solve_decision. Defined.

(** A [datetime] is known through its [isoformat()]. *)
Record datetime := { isoformat : string }.

Inductive event :=
| EvContains (k : key)                        (* [k in self.schemas] *)
| EvShowWarning (text : string) (c : category) (* a warning reached the user *)
| EvDeepcopy (data : loc)
| EvModifier (m : nat) (schema_id : string) (version : Z) (data : loc)
| EvValidate (schema_id : string) (version : Z) (data : loc)
| EvLogInfo (capsule : loc).                   (* [self.log.info(capsule)] *)

Global Instance event_eq_dec : EqDecision event.
Proof. solve_decision. Defined.

Record world := {
  w_heap : heap;
  w_onceregistry : list (string * category);
  w_utcnow : datetime;
  w_key_order : loc → list string;
  w_trace : list event }.

Definition set_heap (h : heap) (w : world) : world :=
  {| w_heap := h; w_onceregistry := w_onceregistry w;
     w_utcnow := w_utcnow w; w_key_order := w_key_order w; w_trace := w_trace w |}.

Definition log_event (e : event) (w : world) : world :=
  {| w_heap := w_heap w; w_onceregistry := w_onceregistry w;
     w_utcnow := w_utcnow w; w_key_order := w_key_order w;
     w_trace := w_trace w ++ [e] |}.

(** Computations over the world that may raise. *)
Definition M (A : Type) : Type := world → result A * world.

Definition ret {A} (a : A) : M A := fun w => (Ok a, w).

Definition raise {A} (e : exn) : M A := fun w => (Raise e, w).

Definition bind {A B} (c : M A) (k : A → M B) : M B :=
  fun w =>
    match c w with
    | (Ok a, w') => k a w'
    | (Raise e, w') => (Raise e, w')
    end.

Declare Scope py_scope.
Delimit Scope py_scope with py.
Notation "x <~ c ;; k" := (bind c (fun x => k))
  (at level 100, c at next level, right associativity) : py_scope.
Notation "c ;;; k" := (bind c (fun _ => k))
  (at level 100, right associativity) : py_scope.

Definition tell (e : event) : M unit := fun w => (Ok tt, log_event e w).

(** A heap operation of a collaborator, run in the world. *)
Definition on_heap {A} (tag : outcome A → result A) (f : heap → outcome A * heap) : M A :=
  fun w => let '(r, h) := f (w_heap w) in (tag r, set_heap h w).

(** ** [warnings.warn] under [simplefilter("once", SchemaNotRegistered)]

    With the ["once"] action a warning is shown unless its
    [(text, category)] is already in the once-registry of the module,
    and is entered there when shown. *)
Definition warn (text : string) (c : category) : M unit :=
  fun w =>
    if bool_decide ((text, c) ∈ w_onceregistry w) then (Ok tt, w)
    else (Ok tt,
          log_event (EvShowWarning text c)
            {| w_heap := w_heap w;
               w_onceregistry := (text, c) :: w_onceregistry w;
               w_utcnow := w_utcnow w; w_key_order := w_key_order w;
               w_trace := w_trace w |}).

(** [str(version)] of a Python [int]. *)
Definition str_of_int (z : Z) : string := NilZero.string_of_int (Z.to_int z).

Definition not_registered_suffix : string :=
  ") has not been registered yet. If this was not intentional, please register the schema using the `register_event_schema` method.".

(** The f-string of [emit]. *)
Definition not_registered_message (schema_id : string) (version : Z) : string :=
  "(" +:+ schema_id +:+ ", " +:+ str_of_int version +:+ not_registered_suffix.

(** ** Callables and [inspect.signature] *)

Inductive param_kind :=
| POSITIONAL_ONLY | POSITIONAL_OR_KEYWORD | VAR_POSITIONAL | KEYWORD_ONLY | VAR_KEYWORD.

(** Annotations and defaults are compared as objects; they are named here
    by their printed form, [None] standing for [inspect.Parameter.empty]. *)
Record parameter := {
  p_name : string;
  p_kind : param_kind;
  p_default : option string;
  p_annotation : option string }.

Record signature := {
  sig_parameters : list parameter;
  sig_return_annotation : option string }.

Global Instance param_kind_eq_dec : EqDecision param_kind.
Proof. solve_decision. Defined.

Global Instance parameter_eq_dec : EqDecision parameter.
Proof. solve_decision. Defined.

Global Instance signature_eq_dec : EqDecision signature.
Proof. solve_decision. Defined.

(** [inspect.signature(modifier_signature)] for
    [def modifier_signature(schema_id: str, version: int, data: dict) -> dict] *)
Definition expected_signature : signature :=
  {| sig_parameters :=
       [ {| p_name := "schema_id"; p_kind := POSITIONAL_OR_KEYWORD;
            p_default := None; p_annotation := Some "str" |};
         {| p_name := "version"; p_kind := POSITIONAL_OR_KEYWORD;
            p_default := None; p_annotation := Some "int" |};
         {| p_name := "data"; p_kind := POSITIONAL_OR_KEYWORD;
            p_default := None; p_annotation := Some "dict" |} ];
     sig_return_annotation := Some "dict" |}.

(** A callable: its identity (what [set] membership compares), its
    signature, and what a call [modifier(schema_id=..., version=...,
    data=...)] does to the heap and returns or raises. *)
Record modifier := {
  mod_id : nat;
  mod_signature : signature;
  mod_call : string → Z → loc → heap → outcome loc * heap }.

(** Why [inspect.signature] gives no signature for a callable: none can
    be found, as for builtins such as [max] ([ValueError]), or the kind
    of object is not supported ([TypeError]). *)
Inductive signature_failure :=
| NoSignatureFound
| NotSupported.

Definition signature_error (f : signature_failure) : exn :=
  match f with
  | NoSignatureFound => ValueError
  | NotSupported => TypeError
  end.

(** What may be passed as [modifier]: a callable whose signature
    [inspect.signature] gives and which can be a member of a set; a
    callable with a signature which cannot be hashed, as an instance of a
    class that defines [__eq__] and no [__hash__]; a callable for which
    [inspect.signature] raises; or an object that is not callable. *)
Inductive pyobject :=
| Callable (m : modifier)
| Unhashable (s : signature)
| Unsigned (f : signature_failure)
| NotCallable.

(** ** Python sets of callables

    A set is kept as a list without repetition; the order of the list is
    the iteration order of the set, which Python leaves unspecified. *)

Definition same_callable (m m' : modifier) : bool :=
  bool_decide (mod_id m = mod_id m').

Definition set_mem (m : modifier) (s : list modifier) : bool :=
  existsb (same_callable m) s.

(** [s.add(m)] *)
Definition set_add (m : modifier) (s : list modifier) : list modifier :=
  if set_mem m s then s else s ++ [m].

(** [s.remove(m)]: raises [KeyError] when [m] is not a member. *)
Definition set_remove (m : modifier) (s : list modifier) : result (list modifier) :=
  if set_mem m s then Ok (filter (fun m' => same_callable m m' = false) s)
  else Raise KeyError.

(** ** The modifier table [self._modifiers]

    A dict from registry keys [(id, version)] to sets, in insertion
    order. *)

Abbreviation table := (list (key * list modifier)).

Fixpoint table_get (t : table) (k : key) : option (list modifier) :=
  match t with
  | [] => None
  | (k', s) :: t' => if decide (k' = k) then Some s else table_get t' k
  end.

(** [t[k] = s] *)
Fixpoint table_set (t : table) (k : key) (s : list modifier) : table :=
  match t with
  | [] => [(k, s)]
  | (k', s') :: t' =>
      if decide (k' = k) then (k, s) :: t' else (k', s') :: table_set t' k s
  end.

(** What a subscript of [self._modifiers] may be: the table is keyed by
    tuples, and a [str] is never equal to a tuple. *)
Inductive pykey :=
| KStr (s : string)
| KTuple (schema_id : string) (version : Z).

(** [t[k]] *)
Definition table_getitem (t : table) (k : pykey) : result (list modifier) :=
  match k with
  | KStr _ => Raise KeyError
  | KTuple schema_id version =>
      match table_get t (schema_id, version) with
      | Some s => Ok s
      | None => Raise KeyError
      end
  end.

(** The set found under [k] is changed in place. *)
Definition table_store (t : table) (k : pykey) (s : list modifier) : table :=
  match k with
  | KStr _ => t
  | KTuple schema_id version => table_set t (schema_id, version) s
  end.

(** ** The schema registry collaborator

    [schema_registry.py] is used by the logger through three entry points:
    [register], which returns the [EventSchema] (known here by its
    [registry_key]) or raises; [__contains__]; and [validate_event], which
    validates and redacts the event in place or raises. *)
Class SchemaRegistry (R : Type) := {
  schema_source : Type;
  registry_register : schema_source → R → outcome key * R;
  registry_contains : key → R → bool;
  registry_validate_event : string → Z → loc → R → heap → outcome unit * heap }.

(** ** The logger *)

Abbreviation handler := nat.

Definition EVENTS_METADATA_VERSION : Z := 1.

Record EventLogger (R : Type) := {
  handlers : option (list handler);
  schemas : R;
  _modifiers : table }.
Arguments handlers {R} _.
Arguments schemas {R} _.
Arguments _modifiers {R} _.

Definition set_modifiers {R} (t : table) (self : EventLogger R) : EventLogger R :=
  {| handlers := handlers self; schemas := schemas self; _modifiers := t |}.

(** Truth value of [self.handlers]: [None] and [[]] are false. *)
Definition handlers_truthy (hs : option (list handler)) : bool :=
  match hs with
  | Some (_ :: _) => true
  | _ => false
  end.

(** Truth value of an optional [str] and of an optional [int]. *)
Definition str_truthy (s : option string) : bool :=
  match s with
  | Some s => negb (bool_decide (s = ""%string))
  | None => false
  end.

Definition int_truthy (z : option Z) : bool :=
  match z with
  | Some z => negb (bool_decide (z = 0%Z))
  | None => false
  end.

Section Logger.
Context {R : Type} `{SchemaRegistry R}.

(** [register_event_schema] *)
Definition register_event_schema (schema : schema_source)
    (self : EventLogger R) : result unit * EventLogger R :=
  match registry_register schema (schemas self) with
  | (Throws code, r) =>
      (Raise (CollaboratorError code),
       {| handlers := handlers self; schemas := r; _modifiers := _modifiers self |})
  | (Returns k, r) =>
      (Ok tt,
       {| handlers := handlers self; schemas := r;
          _modifiers := table_set (_modifiers self) k [] |})
  end.

(** The broadcast loop of [add_modifier]:
    [for (id, version) in self._modifiers:
       if schema_id is None or id == schema_id:
         self._modifiers[(id, version)].add(modifier)] *)
Definition add_to_matching (schema_id : option string) (m : modifier)
    (keys : list key) (t : table) : result table :=
  fold_left
    (fun acc '(id, version) =>
       match acc with
       | Raise e => Raise e
       | Ok t =>
           if bool_decide (schema_id = None) || bool_decide (Some id = schema_id)
           then match table_getitem t (KTuple id version) with
                | Ok s => Ok (table_set t (id, version) (set_add m s))
                | Raise e => Raise e
                end
           else Ok t
       end)
    keys (Ok t).

(** [add_modifier] *)
Definition add_modifier (schema_id : option string) (version : option Z)
    (modifier : pyobject) (self : EventLogger R) : result unit * EventLogger R :=
  match modifier with
  | NotCallable => (Raise TypeError, self)
  | Unsigned f => (Raise (signature_error f), self)
  | Unhashable s =>
      (* [.add(modifier)] hashes the callable: [TypeError] at the first
         set it is added to *)
      if bool_decide (s = expected_signature) then
        let broadcast :=
          if existsb (fun '(id, _) =>
                        bool_decide (schema_id = None) || bool_decide (Some id = schema_id))
               (_modifiers self).*1
          then (Raise TypeError, self)
          else (Ok tt, self) in
        match schema_id, version with
        | Some id, Some v =>
            if str_truthy schema_id && int_truthy version then
              match table_getitem (_modifiers self) (KTuple id v) with
              | Raise e => (Raise e, self)
              | Ok _ => (Raise TypeError, self)
              end
            else broadcast
        | _, _ => broadcast
        end
      else (Raise ModifierError, self)
  | Callable m =>
      if bool_decide (mod_signature m = expected_signature) then
        let broadcast :=
          match add_to_matching schema_id m (_modifiers self).*1 (_modifiers self) with
          | Raise e => (Raise e, self)
          | Ok t => (Ok tt, set_modifiers t self)
          end in
        match schema_id, version with
        | Some id, Some v =>
            if str_truthy schema_id && int_truthy version then
              match table_getitem (_modifiers self) (KTuple id v) with
              | Raise e => (Raise e, self)
              | Ok s =>
                  (Ok tt,
                   set_modifiers (table_set (_modifiers self) (id, v) (set_add m s)) self)
              end
            else broadcast
        | _, _ => broadcast
        end
      else (Raise ModifierError, self)
  end.

(** The loop of [remove_modifier] over [self._modifiers.values()]; the
    [except ValueError: pass] lets a [ValueError] through to the next
    set and nothing else. What was removed before an exception stays
    removed. *)
Fixpoint remove_from_all (m : modifier) (t : table) : result unit * table :=
  match t with
  | [] => (Ok tt, [])
  | (k, modifier_list) :: t' =>
      match set_remove m modifier_list with
      | Ok s' =>
          let '(r, t'') := remove_from_all m t' in (r, (k, s') :: t'')
      | Raise e =>
          if bool_decide (e = ValueError)
          then let '(r, t'') := remove_from_all m t' in (r, (k, modifier_list) :: t'')
          else (Raise e, (k, modifier_list) :: t')
      end
  end.

(** [remove_modifier] *)
Definition remove_modifier (schema_id : option string) (m : modifier)
    (self : EventLogger R) : result unit * EventLogger R :=
  if str_truthy schema_id then
    let k := KStr (default ""%string schema_id) in
    match table_getitem (_modifiers self) k with
    | Raise e => (Raise e, self)
    | Ok s =>
        match set_remove m s with
        | Raise e => (Raise e, self)
        | Ok s' => (Ok tt, set_modifiers (table_store (_modifiers self) k s') self)
        end
    end
  else
    let '(r, t) := remove_from_all m (_modifiers self) in
    (r, set_modifiers t self).

(** The modifier chain of [emit]. *)
Fixpoint apply_modifiers (ms : list modifier) (schema_id : string) (version : Z)
    (modified_data : loc) : M loc :=
  match ms with
  | [] => ret modified_data
  | m :: ms' =>
      (_ <~ tell (EvModifier (mod_id m) schema_id version modified_data) ;;
       modified_data <~ on_heap from_modifier (mod_call m schema_id version modified_data) ;;
       apply_modifiers ms' schema_id version modified_data)%py
  end.

(** The capsule before the event data is merged in. *)
Definition capsule_literal (timestamp : datetime) (schema_id : string)
    (version : Z) : gmap string val :=
  list_to_map
    [ ("__timestamp__"%string, VStr (isoformat timestamp +:+ "Z"));
      ("__schema__"%string, VStr schema_id);
      ("__schema_version__"%string, VInt version);
      ("__metadata_version__"%string, VInt EVENTS_METADATA_VERSION) ].

(** [capsule.update(modified_data)]: a dict is merged into the capsule;
    a list is taken as key/value pairs, which may raise. The capsule is
    the dict that was just made and [modified_data] is an object of the
    heap; the last case stands for a reference that points nowhere, which
    no run on a well-formed heap yields. *)
Definition capsule_update (capsule modified_data : loc) : M unit :=
  fun w =>
    match w_heap w !! capsule, w_heap w !! modified_data with
    | Some (ODict c), Some (ODict items) =>
        (Ok tt, set_heap (<[capsule := ODict (dict_update c items)]> (w_heap w)) w)
    | Some (ODict c), Some (OList elems) =>
        let '(r, c') := update_from_seq (w_key_order w) (w_heap w) elems c in
        (r, set_heap (<[capsule := ODict c']> (w_heap w)) w)
    | _, _ => (Raise TypeError, w)
    end.

(** [emit]: the envelope, or [None] when the event is dropped. *)
Definition emit (schema_id : string) (version : Z) (data : loc)
    (timestamp_override : option datetime) (self : EventLogger R)
    : M (option loc) :=
  if negb (handlers_truthy (handlers self)) then ret None
  else
    (_ <~ tell (EvContains (schema_id, version)) ;;
     if negb (registry_contains (schema_id, version) (schemas self)) then
       (_ <~ warn (not_registered_message schema_id version) SchemaNotRegistered ;;
        ret None)
     else
       (_ <~ tell (EvDeepcopy data) ;;
        modified_data <~
          (fun w => match deepcopy (w_heap w) data with
                    | Some (y, h) => (Ok y, set_heap h w)
                    | None => (Raise RecursionError, w)
                    end) ;;
        ms <~ (fun w => (table_getitem (_modifiers self) (KTuple schema_id version), w)) ;;
        modified_data <~ apply_modifiers ms schema_id version modified_data ;;
        _ <~ tell (EvValidate schema_id version modified_data) ;;
        _ <~ on_heap from_registry
               (registry_validate_event schema_id version modified_data
                  (schemas self)) ;;
        timestamp <~
          (match timestamp_override with
           | None => fun w => (Ok (w_utcnow w), w)
           | Some t => ret t
           end) ;;
        capsule <~ (fun w =>
                      let '(c, h) :=
                        alloc (ODict (capsule_literal timestamp schema_id version))
                          (w_heap w) in
                      (Ok c, set_heap h w)) ;;
        _ <~ capsule_update capsule modified_data ;;
        _ <~ tell (EvLogInfo capsule) ;;
        ret (Some capsule)))%py.

End Logger.

(** ** A registry to run the logger against

    Modelled from the spec: SchemaRegistry ([schema_registry.py]), which
    stores validators keyed by (id, version), exposes a membership test
    and validates and redacts an event in place. Here a schema document
    lists the type of each declared property and the properties to strip;
    undeclared properties are allowed, as JSON Schema does by default.
    Whether a second registration of a key is accepted is the registry's
    own rule and is a flag of the registry. *)

Inductive jtype := TInteger | TString | TBoolean.

Record schema_doc := {
  doc_id : string;
  doc_version : Z;
  doc_properties : list (string * jtype);
  doc_redacted : list string }.

Record registry := {
  reg_docs : list schema_doc;
  reg_accepts_duplicates : bool }.

Definition SchemaInvalid : nat := 0.
Definition SchemaRegistryException : nat := 1.
Definition ValidationError : nat := 2.

Definition doc_key (d : schema_doc) : key := (doc_id d, doc_version d).

Definition has_type (ty : jtype) (v : val) : bool :=
  match ty, v with
  | TInteger, VInt _ => true
  | TString, VStr _ => true
  | TBoolean, VBool _ => true
  | _, _ => false
  end.

Definition conforms (d : schema_doc) (items : gmap string val) : bool :=
  forallb (fun '(p, ty) =>
             match items !! p with
             | Some v => has_type ty v
             | None => true
             end) (doc_properties d).

Definition redact (d : schema_doc) (items : gmap string val) : gmap string val :=
  filter (fun kv => kv.1 ∉ doc_redacted d) items.

Definition find_doc (k : key) (r : registry) : option schema_doc :=
  find (fun d => bool_decide (doc_key d = k)) (reg_docs r).

Definition simple_register (d : schema_doc) (r : registry) : outcome key * registry :=
  if bool_decide (doc_version d < 1)%Z then (Throws SchemaInvalid, r)
  else match find_doc (doc_key d) r with
       | Some _ =>
           if reg_accepts_duplicates r
           then (Returns (doc_key d),
                 {| reg_docs :=
                      d :: filter (fun d' => bool_decide (doc_key d' ≠ doc_key d)) (reg_docs r);
                    reg_accepts_duplicates := true |})
           else (Throws SchemaRegistryException, r)
       | None =>
           (Returns (doc_key d),
            {| reg_docs := reg_docs r ++ [d];
               reg_accepts_duplicates := reg_accepts_duplicates r |})
       end.

Definition simple_validate_event (schema_id : string) (version : Z) (data : loc)
    (r : registry) (h : heap) : outcome unit * heap :=
  match find_doc (schema_id, version) r with
  | None => (Throws SchemaRegistryException, h)
  | Some d =>
      match h !! data with
      | Some (ODict items) =>
          if conforms d items then (Returns tt, <[data := ODict (redact d items)]> h)
          else (Throws ValidationError, h)
      | _ => (Throws ValidationError, h)
      end
  end.

Global Instance simple_registry : SchemaRegistry registry := {
  schema_source := schema_doc;
  registry_register := simple_register;
  registry_contains := fun k r => bool_decide (is_Some (find_doc k r));
  registry_validate_event := simple_validate_event }.

(** ** Code that keeps to what it is given

    A modifier, or the validator, is confined when, handed an object whose
    graph lies wholly from index [n] on, it writes nothing below [n] and
    hands back an object from [n] on, leaving that part of the heap closed:
    it works on its argument and on what it allocates itself, and holds no
    other way into the heap. *)

Definition confined_modifier (f : loc → heap → outcome loc * heap) : Prop :=
  ∀ n l h, n ≤ l → l < length h → closed_above n h →
    (∀ i, i < n → (f l h).2 !! i = h !! i) ∧
    closed_above n (f l h).2 ∧
    match (f l h).1 with
    | Returns l' => n ≤ l' ∧ l' < length (f l h).2
    | Throws _ => True
    end.

Definition confined_validator (f : loc → heap → outcome unit * heap) : Prop :=
  ∀ n l h, n ≤ l → l < length h → closed_above n h →
    ∀ i, i < n → (f l h).2 !! i = h !! i.

(** ** Sequences of calls to [emit]

    The calls a process makes, each on the logger as it stands at that
    time, run one after the other on the world. *)

Record emit_call (R : Type) := {
  call_schema_id : string;
  call_version : Z;
  call_data : loc;
  call_timestamp_override : option datetime;
  call_self : EventLogger R }.
Arguments call_schema_id {R} _.
Arguments call_version {R} _.
Arguments call_data {R} _.
Arguments call_timestamp_override {R} _.
Arguments call_self {R} _.

Definition run_call {R} `{SchemaRegistry R} (c : emit_call R) : M (option loc) :=
  emit (call_schema_id c) (call_version c) (call_data c)
    (call_timestamp_override c) (call_self c).

Definition run_calls {R} `{SchemaRegistry R} (cs : list (emit_call R)) (w : world) : world :=
  fold_left (fun w c => (run_call c w).2) cs w.

(** The call is for key [k], has a handler to go to, and [k] is not in
    the registry: the branch of [emit] that warns. *)
Definition warns_for {R} `{SchemaRegistry R} (k : key) (c : emit_call R) : bool :=
  bool_decide ((call_schema_id c, call_version c) = k)
  && handlers_truthy (handlers (call_self c))
  && negb (registry_contains k (schemas (call_self c))).

(** ** Notions the properties are stated with *)

(** The world [w] with heap [h] and the calls [evs] added to its trace. *)
Definition evolve (h : heap) (evs : list event) (w : world) : world :=
  {| w_heap := h; w_onceregistry := w_onceregistry w;
     w_utcnow := w_utcnow w; w_key_order := w_key_order w;
     w_trace := w_trace w ++ evs |}.

(** The object a modifier or the validator was called on. *)
Definition event_data (e : event) : option loc :=
  match e with
  | EvModifier _ _ _ data => Some data
  | EvValidate _ _ data => Some data
  | _ => None
  end.

(** The keys the capsule sets itself. *)
Definition reserved_keys : list string :=
  ["__timestamp__"; "__schema__"; "__schema_version__"; "__metadata_version__"]%string.

(** ** Strings without a comma

    The decimal form of an integer has none, which is what lets the key
    be read back from the warning text. *)
Fixpoint no_comma (s : string) : bool :=
  match s with
  | EmptyString => true
  | String c s' => negb (Ascii.eqb c ",") && no_comma s'
  end.

(** ** Invariants of a copy in progress

    [n] is the size of the heap when [deepcopy] was called: the copies
    live from index [n] on, the memo points at them, and they refer to
    one another only. *)
Definition copy_inv (n : nat) (s : cstate) : Prop :=
  n ≤ length (c_heap s) ∧
  (∀ l y, c_memo s !! l = Some y → n ≤ y ∧ y < length (c_heap s)) ∧
  closed_above n (c_heap s).

(** What one step of the copy, from [s] to [s'] with result [v'],
    keeps and adds. *)
Definition copy_post (n : nat) (s : cstate) (v' : val) (s' : cstate) : Prop :=
  copy_inv n s' ∧
  length (c_heap s) ≤ length (c_heap s') ∧
  (∀ i, i < n → c_heap s' !! i = c_heap s !! i) ∧
  val_above n v' ∧ val_ok (length (c_heap s')) v'.

(** The heap [h] the copy started from is still there, below the copies. *)
Definition copy_over (h : heap) (s : cstate) : Prop :=
  length h ≤ length (c_heap s) ∧
  ∀ i, i < length h → c_heap s !! i = h !! i.

(** The objects of [h] that the copy has not met yet. *)
Definition unvisited (h : heap) (s : cstate) : gset nat :=
  set_seq 0 (length h) ∖ dom (c_memo s).

(** A step of the copy from [s] came back with a result and went on to [s']. *)
Definition copy_went (h : heap) (s : cstate) (r : option (val * cstate)) : Prop :=
  ∃ v' s', r = Some (v', s') ∧ copy_over h s' ∧ dom (c_memo s) ⊆ dom (c_memo s').

(** ** Sample loggers, modifiers and worlds *)

Definition click : schema_doc :=
  {| doc_id := "org.test.click"; doc_version := 1;
     doc_properties := [("x"%string, TInteger)]; doc_redacted := [] |}.

Definition scroll : schema_doc :=
  {| doc_id := "org.test.scroll"; doc_version := 1;
     doc_properties := []; doc_redacted := [] |}.

Definition strict_registry : registry :=
  {| reg_docs := []; reg_accepts_duplicates := false |}.

Definition lenient_registry : registry :=
  {| reg_docs := []; reg_accepts_duplicates := true |}.

Definition new_logger (r : registry) (hs : option (list handler)) : EventLogger registry :=
  {| handlers := hs; schemas := r; _modifiers := [] |}.

(** [def stamp(schema_id: str, version: int, data: dict) -> dict:
       data["stamped"] = True; return data] *)
Definition stamp : modifier :=
  {| mod_id := 1;
     mod_signature := expected_signature;
     mod_call := fun _ _ data h =>
       match h !! data with
       | Some (ODict items) =>
           (Returns data, <[data := ODict (<["stamped"%string := VBool true]> items)]> h)
       | _ => (Throws 0, h)
       end |}.

(** [def failing(schema_id: str, version: int, data: dict) -> dict:
       raise RuntimeError] *)
Definition failing : modifier :=
  {| mod_id := 2;
     mod_signature := expected_signature;
     mod_call := fun _ _ data h => (Throws 7, h) |}.

(** [def untyped(schema_id, version, data): return data] *)
Definition untyped : modifier :=
  {| mod_id := 3;
     mod_signature :=
       {| sig_parameters :=
            [ {| p_name := "schema_id"; p_kind := POSITIONAL_OR_KEYWORD;
                 p_default := None; p_annotation := None |};
              {| p_name := "version"; p_kind := POSITIONAL_OR_KEYWORD;
                 p_default := None; p_annotation := None |};
              {| p_name := "data"; p_kind := POSITIONAL_OR_KEYWORD;
                 p_default := None; p_annotation := None |} ];
          sig_return_annotation := None |};
     mod_call := fun _ _ data h => (Returns data, h) |}.

Definition click_logger : EventLogger registry :=
  (register_event_schema click (new_logger strict_registry (Some [0]))).2.

(** A logger with the schema registered, a modifier on it, and no handler. *)
Definition silent_logger : EventLogger registry :=
  (add_modifier None None (Callable stamp)
     (register_event_schema click (new_logger strict_registry (Some []))).2).2.

(** A logger that stamps the events of [click]. *)
Definition stamping_logger : EventLogger registry :=
  (add_modifier (Some "org.test.click"%string) (Some 1%Z) (Callable stamp) click_logger).2.

(** A logger on a registry that takes a second registration of a key. *)
Definition lenient_logger : EventLogger registry :=
  (add_modifier (Some "org.test.click"%string) (Some 1%Z) (Callable stamp)
     (register_event_schema click (new_logger lenient_registry (Some [0]))).2).2.

(** Two schemas, [stamp] on the first only. *)
Definition two_schema_logger : EventLogger registry :=
  (register_event_schema scroll stamping_logger).2.

(** [EventLogger(schemas=registry, handlers=[h])] with [click] registered
    in [registry] beforehand, and not through the logger. *)
Definition handed_over_logger : EventLogger registry :=
  {| handlers := Some [0];
     schemas := (simple_register click strict_registry).2;
     _modifiers := [] |}.

(** A logger whose one modifier raises. *)
Definition failing_logger : EventLogger registry :=
  (add_modifier None None (Callable failing) click_logger).2.

Definition sample_world (h : heap) : world :=
  {| w_heap := h; w_onceregistry := [];
     w_utcnow := {| isoformat := "2022-01-01T00:00:00" |};
     w_key_order := fun _ => []; w_trace := [] |}.

(** [{"x": 5}] *)
Definition click_heap : heap := [ODict (list_to_map [("x"%string, VInt 5)])].

(** [{"x": 5, "__schema__": "other"}] *)
Definition colliding_heap : heap :=
  [ODict (list_to_map [("x"%string, VInt 5); ("__schema__"%string, VStr "other")])].

(** [{"x": 5, "__metadata_version__": 99}] *)
Definition overriding_heap : heap :=
  [ODict (list_to_map [("x"%string, VInt 5); ("__metadata_version__"%string, VInt 99)])].

(** [{"x": 5, "tags": tags}] with [tags = ["a", tags]] *)
Definition nested_heap : heap :=
  [ODict (list_to_map [("x"%string, VInt 5); ("tags"%string, VRef 1)]);
   OList [VStr "a"; VRef 1]].

(** [emit] for a schema that was never registered. *)
Definition stray_call : emit_call registry :=
  {| call_schema_id := "org.test.scroll"; call_version := 2; call_data := 0;
     call_timestamp_override := None; call_self := click_logger |}.

(** [emit] of [{"x": 5}] for the registered schema. *)
Definition click_call : emit_call registry :=
  {| call_schema_id := "org.test.click"; call_version := 1; call_data := 0;
     call_timestamp_override := None; call_self := click_logger |}.

(** [add_modifier] was given a schema id and a version, both truthy,
    and their key has no entry in the modifier table. *)
Definition scoped_to_unknown_key {R} (schema_id : option string) (version : option Z)
    (self : EventLogger R) : Prop :=
  ∃ id v, schema_id = Some id ∧ version = Some v ∧
          id ≠ ""%string ∧ v ≠ 0%Z ∧
          table_get (_modifiers self) (id, v) = None.

(** ** Notions the further properties are stated with *)

(** Does the broadcast loop of [add_modifier] reach the key [k]?
    [schema_id is None or id == schema_id] *)
Definition reached (schema_id : option string) (k : key) : bool :=
  bool_decide (schema_id = None) || bool_decide (Some k.1 = schema_id).

(** The members of [s] other than [m]. *)
Definition others (m : modifier) (s : list modifier) : list modifier :=
  filter (fun m' => same_callable m m' = false) s.

(** The calls of the trace by kind, and the callable of a modifier call. *)
Inductive call_kind :=
| KContains | KWarning | KDeepcopy | KModifier | KValidate | KLogInfo.

Global Instance call_kind_eq_dec : EqDecision call_kind.
Proof. solve_decision. Defined.

Definition kind_of (e : event) : call_kind :=
  match e with
  | EvContains _ => KContains
  | EvShowWarning _ _ => KWarning
  | EvDeepcopy _ => KDeepcopy
  | EvModifier _ _ _ _ => KModifier
  | EvValidate _ _ _ => KValidate
  | EvLogInfo _ => KLogInfo
  end.

Definition called_modifier (e : event) : option nat :=
  match e with
  | EvModifier m _ _ _ => Some m
  | _ => None
  end.

(** [calls] are calls to the first [j] modifiers of [ms], in that order. *)
Definition chain_calls (calls : list event) (j : nat) (ms : list modifier) : Prop :=
  kind_of <$> calls = replicate j KModifier ∧
  omap called_modifier calls = mod_id <$> take j ms ∧
  j ≤ length ms.

(** ** The [logging] side of the logger

    [self.log] is the [logging.Logger] that [__init__] looks up; the
    logger reads and writes its list of handlers, [propagate] and its
    level. A handler is known by its identity and carries the formatter
    last set on it. [Logger.addHandler] and [Logger.removeHandler] are
    those of CPython's [logging]:
      [if not (hdlr in self.handlers): self.handlers.append(hdlr)]
      [if hdlr in self.handlers: self.handlers.remove(hdlr)] *)

(** A formatter is known by what it does: the one [register_handler]
    builds, [jsonlogger.JsonFormatter(json_serializer=_skip_message)], or
    some other one. *)
Inductive formatter :=
| JsonFormatter_skip_message
| OtherFormatter (id : nat).

Global Instance formatter_eq_dec : EqDecision formatter.
Proof. solve_decision. Defined.

(** [logging.INFO] *)
Definition INFO : Z := 20.

Record pylogger := {
  log_handlers : list handler;
  log_propagate : bool;
  log_level : Z }.

(** [self.log] and the formatter of each handler object. *)
Record logging_side := {
  self_log : pylogger;
  handler_formatter : gmap handler formatter }.

Definition set_log_handlers (hs : list handler) (lg : pylogger) : pylogger :=
  {| log_handlers := hs; log_propagate := log_propagate lg; log_level := log_level lg |}.

Definition set_self_log (lg : pylogger) (ls : logging_side) : logging_side :=
  {| self_log := lg; handler_formatter := handler_formatter ls |}.

Definition set_handlers {R} (hs : option (list handler)) (self : EventLogger R)
    : EventLogger R :=
  {| handlers := hs; schemas := schemas self; _modifiers := _modifiers self |}.

(** [l.remove(x)] of a list: the first [x] goes; [ValueError] when there
    is none. *)
Fixpoint list_remove (x : handler) (l : list handler) : result (list handler) :=
  match l with
  | [] => Raise ValueError
  | y :: l' =>
      if decide (y = x) then Ok l'
      else match list_remove x l' with
           | Ok l'' => Ok (y :: l'')
           | Raise e => Raise e
           end
  end.

(** [Logger.addHandler] *)
Definition addHandler (hdlr : handler) (lg : pylogger) : pylogger :=
  if bool_decide (hdlr ∈ log_handlers lg) then lg
  else set_log_handlers (log_handlers lg ++ [hdlr]) lg.

(** [Logger.removeHandler] *)
Definition removeHandler (hdlr : handler) (lg : pylogger) : result unit * pylogger :=
  if bool_decide (hdlr ∈ log_handlers lg) then
    match list_remove hdlr (log_handlers lg) with
    | Ok hs => (Ok tt, set_log_handlers hs lg)
    | Raise e => (Raise e, lg)
    end
  else (Ok tt, lg).

(** [handler.setFormatter(formatter)] *)
Definition setFormatter (h : handler) (f : formatter) (ls : logging_side) : logging_side :=
  {| self_log := self_log ls; handler_formatter := <[h := f]> (handler_formatter ls) |}.

(** [register_handler]. [handler not in self.handlers] raises
    [TypeError] when [self.handlers] is [None], after the formatter was
    set and the handler was added to [self.log]. *)
Definition register_handler {R} (h : handler) (self : EventLogger R) (ls : logging_side)
    : result unit * (EventLogger R * logging_side) :=
  let formatter := JsonFormatter_skip_message in
  let ls := setFormatter h formatter ls in
  let ls := set_self_log (addHandler h (self_log ls)) ls in
  match handlers self with
  | None => (Raise TypeError, (self, ls))
  | Some hs =>
      if bool_decide (h ∉ hs)
      then (Ok tt, (set_handlers (Some (hs ++ [h])) self, ls))
      else (Ok tt, (self, ls))
  end.

(** [remove_handler] *)
Definition remove_handler {R} (h : handler) (self : EventLogger R) (ls : logging_side)
    : result unit * (EventLogger R * logging_side) :=
  match removeHandler h (self_log ls) with
  | (Raise e, lg) => (Raise e, (self, set_self_log lg ls))
  | (Ok _, lg) =>
      let ls := set_self_log lg ls in
      match handlers self with
      | None => (Raise TypeError, (self, ls))
      | Some hs =>
          if bool_decide (h ∈ hs) then
            match list_remove h hs with
            | Ok hs' => (Ok tt, (set_handlers (Some hs') self, ls))
            | Raise e => (Raise e, (self, ls))
            end
          else (Ok tt, (self, ls))
      end
  end.

(** The loop of [__init__], [for handler in self.handlers:
    self.register_handler(handler)]. A [for] over a list reads the list
    by index as it stands at each turn, and [register_handler] may
    append to that very list; [i] is the index of the turn and [fuel]
    bounds the number of turns. *)
Fixpoint register_each {R} (fuel i : nat) (self : EventLogger R) (ls : logging_side)
    : option (result unit * (EventLogger R * logging_side)) :=
  match fuel with
  | O => None
  | S fuel' =>
      match default [] (handlers self) !! i with
      | None => Some (Ok tt, (self, ls))
      | Some h =>
          match register_handler h self ls with
          | (Ok _, (self', ls')) => register_each fuel' (S i) self' ls'
          | (Raise e, st) => Some (Raise e, st)
          end
      end
  end.

(** [__init__], after [super().__init__] has set the traits of [self]:
    [found] is the logger that [logging.getLogger(log_name)] gave and
    [formatters] the formatter of each handler at that time. *)
Definition __init__ {R} (fuel : nat) (self : EventLogger R) (found : pylogger)
    (formatters : gmap handler formatter)
    : option (result unit * (EventLogger R * logging_side)) :=
  let log := found in
  let log := {| log_handlers := log_handlers log; log_propagate := false;
                log_level := log_level log |} in
  let log := {| log_handlers := log_handlers log; log_propagate := log_propagate log;
                log_level := INFO |} in
  let ls := {| self_log := log; handler_formatter := formatters |} in
  if handlers_truthy (handlers self) then register_each fuel 0 self ls
  else Some (Ok tt, (self, ls)).

(** A script of calls to [register_handler] and [remove_handler], run
    until one raises. *)
Inductive handler_call :=
| RegisterHandler (h : handler)
| RemoveHandler (h : handler).

Definition run_handler_call {R} (c : handler_call) (self : EventLogger R)
    (ls : logging_side) : result unit * (EventLogger R * logging_side) :=
  match c with
  | RegisterHandler h => register_handler h self ls
  | RemoveHandler h => remove_handler h self ls
  end.

Fixpoint run_handler_calls {R} (cs : list handler_call) (self : EventLogger R)
    (ls : logging_side) : result unit * (EventLogger R * logging_side) :=
  match cs with
  | [] => (Ok tt, (self, ls))
  | c :: cs' =>
      match run_handler_call c self ls with
      | (Ok _, (self', ls')) => run_handler_calls cs' self' ls'
      | (Raise e, st) => (Raise e, st)
      end
  end.

(** The handlers of [self.handlers] are those of [self.log], each once,
    and each has the JSON formatter. *)
Definition in_step {R} (self : EventLogger R) (ls : logging_side) : Prop :=
  ∃ hs, handlers self = Some hs ∧
        NoDup hs ∧ NoDup (log_handlers (self_log ls)) ∧
        (∀ h, h ∈ hs ↔ h ∈ log_handlers (self_log ls)) ∧
        ∀ h, h ∈ hs → handler_formatter ls !! h = Some JsonFormatter_skip_message.

(** A fresh logger of [logging]: no handler, [propagate] on, level not set. *)
Definition fresh_log : pylogger :=
  {| log_handlers := []; log_propagate := true; log_level := 0 |}.

(** [self.log] and the formatters once [__init__] has run for a logger
    made with [handlers=[h0]], and before any logger was made. *)
Definition sample_side : logging_side :=
  {| self_log := {| log_handlers := [0]; log_propagate := false; log_level := INFO |};
     handler_formatter := {[ 0 := JsonFormatter_skip_message ]} |}.

Definition bare_side : logging_side :=
  {| self_log := fresh_log; handler_formatter := ∅ |}.

(** ** Scripts of calls that set a logger up

    The calls a program makes to [register_event_schema], [add_modifier]
    and [remove_modifier], each on the logger as the call before left
    it; a call that raises is caught by the caller and the script goes
    on. *)
Inductive logger_call (S : Type) :=
| RegisterEventSchema (schema : S)
| AddModifier (schema_id : option string) (version : option Z) (given : pyobject)
| RemoveModifier (schema_id : option string) (m : modifier).
Arguments RegisterEventSchema {S} schema.
Arguments AddModifier {S} schema_id version given.
Arguments RemoveModifier {S} schema_id m.

Definition run_logger_call {R} `{SchemaRegistry R} (c : logger_call schema_source)
    (self : EventLogger R) : result unit * EventLogger R :=
  match c with
  | RegisterEventSchema schema => register_event_schema schema self
  | AddModifier schema_id version given => add_modifier schema_id version given self
  | RemoveModifier schema_id m => remove_modifier schema_id m self
  end.

Definition run_logger_calls {R} `{SchemaRegistry R} (cs : list (logger_call schema_source))
    (self : EventLogger R) : EventLogger R :=
  fold_left (fun self c => (run_logger_call c self).2) cs self.

(** Every key that the registry holds has a set in the modifier table. *)
Definition keys_tracked {R} `{SchemaRegistry R} (self : EventLogger R) : Prop :=
  ∀ k, registry_contains k (schemas self) = true →
       is_Some (table_get (_modifiers self) k).

(** A registry whose [register] brings in no key but the one of the
    schema it returns, and none when it raises. *)
Definition register_adds_its_key (R : Type) `{SchemaRegistry R} : Prop :=
  ∀ (schema : schema_source) (r : R) (k : key),
    registry_contains k (registry_register schema r).2 = true →
    registry_contains k r = true ∨ (registry_register schema r).1 = Returns k.

(** ** A copy that mirrors its original

    [memo] sends each object of the original to its copy. The copy of an
    object is the object with every reference sent through [memo];
    strings, numbers, booleans and [None] are themselves. *)
Definition rename_val (memo : gmap loc loc) (v : val) : val :=
  match v with
  | VRef l => VRef (default l (memo !! l))
  | _ => v
  end.

Definition obj_rename (memo : gmap loc loc) (o : obj) : obj :=
  match o with
  | ODict items => ODict (rename_val memo <$> items)
  | OList elems => OList (rename_val memo <$> elems)
  end.

(** A reference is known when [memo] has a copy for it. *)
Definition val_known (memo : gmap loc loc) (v : val) : Prop :=
  match v with
  | VRef l => is_Some (memo !! l)
  | _ => True
  end.

(** The object of [h] at [a] has its mirror image in [h'] at [b]. *)
Definition mirrored (memo : gmap loc loc) (h h' : heap) (a b : loc) : Prop :=
  ∃ o, h !! a = Some o ∧
       Forall (val_known memo) (obj_vals o) ∧
       h' !! b = Some (obj_rename memo o).

(** [h'] holds a mirror image of the part of [h] that [memo] covers:
    the copies are new objects, one for each original, and none is
    shared between two originals. *)
Definition mirrors (memo : gmap loc loc) (h h' : heap) : Prop :=
  (∀ a b, memo !! a = Some b → length h ≤ b ∧ mirrored memo h h' a b) ∧
  (∀ a a' b, memo !! a = Some b → memo !! a' = Some b → a = a').

(** A copy in progress: the objects in [pending] are being filled, and
    every other object that [memo] covers has its mirror image. *)
Definition copy_mirror_inv (h : heap) (pending : gset loc) (s : cstate) : Prop :=
  copy_over h s ∧
  (∀ a b, c_memo s !! a = Some b →
          a < length h ∧ length h ≤ b ∧ b < length (c_heap s)) ∧
  (∀ a a' b, c_memo s !! a = Some b → c_memo s !! a' = Some b → a = a') ∧
  (∀ a b, c_memo s !! a = Some b → a ∉ pending →
          mirrored (c_memo s) h (c_heap s) a b).

(** ** Lists handed to [dict.update] *)

(** [[["a", 1]]], [[[1, 2, 3]]], [[[1, 2]]], [[[[], 1]]] and
    [[{"b": 1, "a": 2}]] with the keys inserted in that order. *)
Definition pairs_heap : heap := [OList [VRef 1]; OList [VStr "a"; VInt 1]].
Definition triple_heap : heap := [OList [VRef 1]; OList [VInt 1; VInt 2; VInt 3]].
Definition int_key_heap : heap := [OList [VRef 1]; OList [VInt 1; VInt 2]].
Definition list_key_heap : heap := [OList [VRef 1]; OList [VRef 2; VInt 1]; OList []].
Definition dict_pair_heap : heap :=
  [OList [VRef 1]; ODict (list_to_map [("b"%string, VInt 1); ("a"%string, VInt 2)])].

Definition no_order : loc → list string := fun _ => [].
Definition b_then_a : loc → list string := fun _ => ["b"; "a"]%string.

(** * Properties *)

(** ** The modifier table *)

Lemma table_get_set_eq (t : table) k s : table_get (table_set t k s) k = Some s.
Proof.
  induction t as [|[k' s'] t IH]; simpl.
  - by rewrite decide_True.
  - destruct (decide (k' = k)) as [->|Hne]; simpl.
    + by rewrite decide_True.
    + by rewrite decide_False.
Qed.

Lemma table_get_set_ne (t : table) k k' s :
  k' ≠ k → table_get (table_set t k s) k' = table_get t k'.
Proof.
  intros Hne. induction t as [|[k0 s0] t IH]; simpl.
  - by rewrite decide_False.
  - destruct (decide (k0 = k)) as [->|Hk0]; simpl.
    + rewrite !decide_False; auto.
    + destruct (decide (k0 = k')); auto.
Qed.

Lemma table_get_is_Some (t : table) k : k ∈ t.*1 → is_Some (table_get t k).
Proof.
  induction t as [|[k' s'] t IH]; simpl.
  - by intros ?%elem_of_nil.
  - intros [->|Hin]%elem_of_cons.
    + rewrite decide_True; eauto.
    + destruct (decide (k' = k)); eauto.
Qed.

Lemma table_get_set_is_Some (t : table) k k' s :
  is_Some (table_get t k') → is_Some (table_get (table_set t k s) k').
Proof.
  intros Hk'. destruct (decide (k' = k)) as [->|Hne].
  - rewrite table_get_set_eq; eauto.
  - by rewrite table_get_set_ne.
Qed.

Section LoggerFacts.
Context {R : Type} `{SchemaRegistry R}.

(** A scoped [remove_modifier] subscripts the table with the bare
    [schema_id], which no key of the table equals. *)
Lemma remove_modifier_scoped (self : EventLogger R) schema_id m :
  str_truthy (Some schema_id) = true →
  remove_modifier (Some schema_id) m self = (Raise KeyError, self).
Proof. intros Ht. unfold remove_modifier. by rewrite Ht. Qed.

Lemma remove_from_all_absent m k s (t : table) :
  set_mem m s = false →
  remove_from_all m ((k, s) :: t) = (Raise KeyError, (k, s) :: t).
Proof. intros Hm. simpl. unfold set_remove. by rewrite Hm. Qed.

Lemma add_to_matching_ok schema_id m (keys : list key) (t : table) :
  (∀ k, k ∈ keys → is_Some (table_get t k)) →
  ∃ t', add_to_matching schema_id m keys t = Ok t'.
Proof.
  unfold add_to_matching. revert t.
  induction keys as [|[id v] keys IH]; intros t Hall; simpl; [eauto|].
  destruct (bool_decide (schema_id = None) || bool_decide (Some id = schema_id)).
  - destruct (Hall (id, v)) as [s Hs]; [by left|]. rewrite Hs.
    apply IH. intros k Hk. apply table_get_set_is_Some, Hall. by right.
  - apply IH. intros k Hk. apply Hall. by right.
Qed.

End LoggerFacts.

(** ** The text of the warning names its key *)

Local Arguments String.append !_ _ / : simpl nomatch.

Lemma string_length_app (s t : string) :
  String.length (s +:+ t) = String.length s + String.length t.
Proof. induction s; simpl; auto. Qed.

Lemma string_app_inv_tail (s1 s2 t : string) : s1 +:+ t = s2 +:+ t → s1 = s2.
Proof.
  revert s2. induction s1 as [|a s1 IH]; intros [|b s2] Heq; simpl in *.
  - reflexivity.
  - apply (f_equal String.length) in Heq. simpl in Heq.
    rewrite string_length_app in Heq. lia.
  - apply (f_equal String.length) in Heq. simpl in Heq.
    rewrite string_length_app in Heq. lia.
  - injection Heq as -> Heq. f_equal. by apply IH.
Qed.

Lemma string_app_assoc (s t u : string) : (s +:+ t) +:+ u = s +:+ t +:+ u.
Proof. induction s; simpl; congruence. Qed.

Lemma no_comma_uint (d : Decimal.uint) : no_comma (NilEmpty.string_of_uint d) = true.
Proof. induction d; simpl; auto. Qed.

Lemma no_comma_str_of_int (z : Z) : no_comma (str_of_int z) = true.
Proof.
  unfold str_of_int, NilZero.string_of_int, NilZero.string_of_uint.
  destruct (Z.to_int z) as [d|d]; destruct d; simpl; auto using no_comma_uint.
Qed.

Lemma no_comma_app_comma (s t : string) : no_comma (s +:+ String "," t) = false.
Proof.
  induction s as [|a s IH]; simpl; [done|].
  rewrite IH. by destruct (Ascii.eqb a ",").
Qed.

(** [id ++ ", " ++ d] splits in one way only when [d] has no comma. *)
Lemma comma_split_unique (id1 id2 d1 d2 : string) :
  no_comma d1 = true → no_comma d2 = true →
  id1 +:+ ", " +:+ d1 = id2 +:+ ", " +:+ d2 → id1 = id2 ∧ d1 = d2.
Proof.
  intros H1 H2. revert id2.
  induction id1 as [|a id1 IH]; intros [|b id2] Heq; simpl in *.
  - split; [done|]. congruence.
  - exfalso. injection Heq as <- Heq.
    destruct id2 as [|c id2]; simpl in Heq; [discriminate|].
    injection Heq as <- Heq. subst d1.
    by rewrite no_comma_app_comma in H1.
  - exfalso. injection Heq as -> Heq.
    destruct id1 as [|c id1]; simpl in Heq; [discriminate|].
    injection Heq as -> Heq. subst d2.
    by rewrite no_comma_app_comma in H2.
  - injection Heq as -> Heq. destruct (IH _ Heq) as [-> ->]. done.
Qed.

Lemma str_of_int_inj (z1 z2 : Z) : str_of_int z1 = str_of_int z2 → z1 = z2.
Proof.
  unfold str_of_int. intros Heq. apply DecimalZ.to_int_inj.
  assert (Hnn : ∀ z, Z.to_int z ≠ Decimal.Pos Decimal.Nil ∧
                     Z.to_int z ≠ Decimal.Neg Decimal.Nil).
  { intros [|p|p]; simpl; split; try discriminate;
      intros [= Hp]; by apply DecimalPos.Unsigned.to_uint_nonnil in Hp. }
  destruct (Hnn z1) as [Ha Hb], (Hnn z2) as [Hc Hd].
  pose proof (NilZero.isi _ Ha Hb) as E1.
  pose proof (NilZero.isi _ Hc Hd) as E2.
  rewrite Heq in E1. congruence.
Qed.

Lemma not_registered_message_inj (id1 id2 : string) (v1 v2 : Z) :
  not_registered_message id1 v1 = not_registered_message id2 v2 →
  id1 = id2 ∧ v1 = v2.
Proof.
  unfold not_registered_message. intros Heq. injection Heq as Heq.
  assert (Hre : ∀ id v,
            id +:+ ", " +:+ str_of_int v +:+ not_registered_suffix
            = (id +:+ ", " +:+ str_of_int v) +:+ not_registered_suffix).
  { intros id v. by rewrite !string_app_assoc. }
  change (id1 +:+ ", " +:+ str_of_int v1 +:+ not_registered_suffix
          = id2 +:+ ", " +:+ str_of_int v2 +:+ not_registered_suffix) in Heq.
  rewrite !Hre in Heq. apply string_app_inv_tail in Heq.
  apply comma_split_unique in Heq as [-> Hv]; auto using no_comma_str_of_int.
  split; [done|]. by apply str_of_int_inj.
Qed.

(** ** What the steps of [emit] do to the world *)

Section EmitFacts.
Context {R : Type} `{SchemaRegistry R}.

Lemma apply_modifiers_world ms schema_id version data w :
  w_onceregistry (apply_modifiers ms schema_id version data w).2 = w_onceregistry w ∧
  w_utcnow (apply_modifiers ms schema_id version data w).2 = w_utcnow w.
Proof.
  revert data w. induction ms as [|m ms IH]; intros data w; simpl; [done|].
  unfold bind, tell, on_heap; simpl.
  destruct (mod_call m schema_id version data (w_heap w)) as [[l|c] h]; simpl; [|done].
  destruct (IH l (set_heap h (log_event (EvModifier (mod_id m) schema_id version data) w)))
    as [-> ->]. done.
Qed.

Lemma apply_modifiers_raises ms schema_id version data w e :
  (apply_modifiers ms schema_id version data w).1 = Raise e →
  ∃ code, e = ModifierRaised code.
Proof.
  revert data w. induction ms as [|m ms IH]; intros data w; simpl; [done|].
  unfold bind, tell, on_heap; simpl.
  destruct (mod_call m schema_id version data (w_heap w)) as [[l|c] h]; simpl.
  - apply IH.
  - intros [= <-]. eauto.
Qed.

(** [emit] past its two early exits, step by step. *)
Lemma emit_known_key_steps schema_id version data ts (self : EventLogger R) w :
  handlers_truthy (handlers self) = true →
  registry_contains (schema_id, version) (schemas self) = true →
  emit schema_id version data ts self w =
    let seen := [EvContains (schema_id, version); EvDeepcopy data] in
    match deepcopy (w_heap w) data with
    | None => (Raise RecursionError, evolve (w_heap w) seen w)
    | Some (y, h) =>
        match table_get (_modifiers self) (schema_id, version) with
        | None => (Raise KeyError, evolve h seen w)
        | Some ms =>
            match apply_modifiers ms schema_id version y (evolve h seen w) with
            | (Raise e, w2) => (Raise e, w2)
            | (Ok y', w2) =>
                match registry_validate_event schema_id version y' (schemas self)
                        (w_heap w2) with
                | (Throws code, h4) =>
                    (Raise (CollaboratorError code),
                     evolve h4 [EvValidate schema_id version y'] w2)
                | (Returns _, h4) =>
                    let lit := capsule_literal (default (w_utcnow w2) ts)
                                 schema_id version in
                    match (h4 ++ [ODict lit]) !! y' with
                    | Some (ODict items) =>
                        (Ok (Some (length h4)),
                         evolve (h4 ++ [ODict (dict_update lit items)])
                           [EvValidate schema_id version y'; EvLogInfo (length h4)] w2)
                    | Some (OList elems) =>
                        match update_from_seq (w_key_order w2) (h4 ++ [ODict lit])
                                elems lit with
                        | (Ok _, c) =>
                            (Ok (Some (length h4)),
                             evolve (h4 ++ [ODict c])
                               [EvValidate schema_id version y'; EvLogInfo (length h4)] w2)
                        | (Raise e, c) =>
                            (Raise e,
                             evolve (h4 ++ [ODict c]) [EvValidate schema_id version y'] w2)
                        end
                    | None =>
                        (Raise TypeError,
                         evolve (h4 ++ [ODict lit]) [EvValidate schema_id version y'] w2)
                    end
                end
            end
        end
    end.
Proof.
  intros Hh Hc. unfold emit. rewrite Hh, Hc. simpl.
  unfold bind, tell, on_heap, ret; simpl.
  unfold evolve, set_heap, log_event; simpl. rewrite <- !app_assoc. simpl.
  destruct (deepcopy (w_heap w) data) as [[y h]|]; simpl; [|done].
  destruct (table_get (_modifiers self) (schema_id, version)) as [ms|]; simpl; [|done].
  destruct (apply_modifiers ms schema_id version y _) as [[y'|e] w2]; simpl; [|done].
  destruct (registry_validate_event _ _ _ _ _) as [[[]|c] h4]; simpl; [|done].
  destruct ts as [t|]; unfold ret, capsule_update, alloc; simpl.
  all: rewrite list_lookup_middle by done.
  all: destruct ((h4 ++ [ODict _]) !! y') as [[items|elems]|]; simpl; try done.
  all: try destruct (update_from_seq _ _ _ _) as [[[]|e] c]; simpl.
  all: rewrite <- ?app_assoc; simpl.
  all: rewrite insert_app_r_alt, Nat.sub_diag by done; done.
Qed.

(** ... and at the exit for an event whose schema is not registered. *)
Lemma emit_unknown_key_steps schema_id version data ts (self : EventLogger R) w :
  handlers_truthy (handlers self) = true →
  registry_contains (schema_id, version) (schemas self) = false →
  emit schema_id version data ts self w =
    let text := not_registered_message schema_id version in
    if bool_decide ((text, SchemaNotRegistered) ∈ w_onceregistry w)
    then (Ok None, evolve (w_heap w) [EvContains (schema_id, version)] w)
    else (Ok None,
          {| w_heap := w_heap w;
             w_onceregistry := (text, SchemaNotRegistered) :: w_onceregistry w;
             w_utcnow := w_utcnow w;
             w_key_order := w_key_order w;
             w_trace := w_trace w ++ [EvContains (schema_id, version);
                                       EvShowWarning text SchemaNotRegistered] |}).
Proof.
  intros Hh Hc. unfold emit. rewrite Hh, Hc. simpl.
  unfold bind, tell, warn, ret, evolve, log_event; simpl.
  case_bool_decide; simpl; [done|]. by rewrite <- app_assoc.
Qed.

(** [emit] enters the once-registry in one place only: the warning for
    an event whose schema is not registered. *)
Lemma emit_onceregistry schema_id version data ts (self : EventLogger R) w :
  w_onceregistry (emit schema_id version data ts self w).2 =
    if handlers_truthy (handlers self)
       && negb (registry_contains (schema_id, version) (schemas self))
       && negb (bool_decide ((not_registered_message schema_id version,
                              SchemaNotRegistered) ∈ w_onceregistry w))
    then (not_registered_message schema_id version, SchemaNotRegistered)
           :: w_onceregistry w
    else w_onceregistry w.
Proof.
  destruct (handlers_truthy (handlers self)) eqn:Hh; simpl.
  2: { unfold emit. by rewrite Hh. }
  destruct (registry_contains (schema_id, version) (schemas self)) eqn:Hc; simpl.
  - rewrite emit_known_key_steps by done. simpl.
    destruct (deepcopy (w_heap w) data) as [[y h]|]; simpl; [|done].
    destruct (table_get (_modifiers self) (schema_id, version)) as [ms|]; simpl; [|done].
    pose proof (apply_modifiers_world ms schema_id version y
      (evolve h [EvContains (schema_id, version); EvDeepcopy data] w)) as [Hr _].
    destruct (apply_modifiers ms schema_id version y _) as [[y'|e] w2]; simpl in *; [|done].
    destruct (registry_validate_event _ _ _ _ _) as [[[]|c] h4]; simpl; [|done].
    by repeat case_match.
  - rewrite emit_unknown_key_steps by done. simpl. by case_bool_decide.
Qed.

(** After any calls, the texts in the once-registry are those it had
    and those of the keys some call warned for. *)
Lemma run_calls_onceregistry (cs : list (emit_call R)) (k : key) w :
  (not_registered_message k.1 k.2, SchemaNotRegistered)
    ∈ w_onceregistry (run_calls cs w) ↔
  (not_registered_message k.1 k.2, SchemaNotRegistered) ∈ w_onceregistry w
  ∨ Exists (fun c => warns_for k c = true) cs.
Proof.
  revert w. induction cs as [|c cs IH]; intros w.
  - rewrite Exists_nil. simpl. tauto.
  - change (run_calls (c :: cs) w) with (run_calls cs (run_call c w).2).
    rewrite Exists_cons, IH.
    unfold run_call at 1. rewrite emit_onceregistry.
    unfold warns_for at 2.
    destruct k as [kid kv]; simpl.
    destruct (handlers_truthy (handlers (call_self c))); simpl.
    2: { rewrite andb_false_r. intuition discriminate. }
    rewrite andb_true_r.
    destruct (decide ((call_schema_id c, call_version c) = (kid, kv))) as [Hk|Hk].
    + rewrite (bool_decide_true _ Hk). injection Hk as <- <-. simpl.
      destruct (registry_contains _ (schemas (call_self c))); simpl.
      { intuition discriminate. }
      case_bool_decide as Hin; simpl; [tauto|].
      rewrite elem_of_cons. tauto.
    + rewrite (bool_decide_false _ Hk). simpl.
      destruct (registry_contains (call_schema_id c, call_version c)
                  (schemas (call_self c))); simpl.
      { intuition discriminate. }
      case_bool_decide as Hin; simpl; [intuition discriminate|].
      rewrite elem_of_cons. split; [|intuition discriminate].
      intros [[Hmsg|?]|?]; [|tauto..].
      apply (f_equal fst) in Hmsg.
      apply not_registered_message_inj in Hmsg as [-> ->]. done.
Qed.

End EmitFacts.

(** ** [deepcopy]: the copy is new, and the heap it was taken from is
    left alone *)

Lemma obj_vals_blank (o : obj) : obj_vals (obj_blank o) = [].
Proof. destruct o; simpl; [by rewrite map_to_list_empty|done]. Qed.

Lemma obj_vals_fill (P : val → Prop) (o : obj) (vs : list val) :
  Forall P vs → Forall P (obj_vals (obj_fill o vs)).
Proof.
  intros Hvs. destruct o as [items|elems]; simpl; [|done].
  apply Forall_forall. intros v Hv.
  apply list_elem_of_fmap in Hv as ([k v'] & -> & Hkv). simpl.
  apply elem_of_map_to_list in Hkv.
  apply elem_of_list_to_map_2 in Hkv.
  rewrite Forall_forall in Hvs. apply Hvs.
  by apply elem_of_zip_r in Hkv.
Qed.

Lemma deepcopy_val_ref fuel l s v' s' :
  deepcopy_val fuel (VRef l) s = Some (v', s') → ∃ y, v' = VRef y.
Proof.
  destruct fuel; simpl; intros Hc; repeat case_match; simplify_eq; eauto.
Qed.

Section CopyInvariant.
Variable n : nat.

Lemma copy_all_inv (f : val → cstate → option (val * cstate)) (above : val → Prop) :
  (∀ v s v' s', above v → copy_inv n s → f v s = Some (v', s') → copy_post n s v' s') →
  ∀ vs s vs' s',
    Forall above vs → copy_inv n s → copy_all f vs s = Some (vs', s') →
    copy_inv n s' ∧
    length (c_heap s) ≤ length (c_heap s') ∧
    (∀ i, i < n → c_heap s' !! i = c_heap s !! i) ∧
    Forall (val_above n) vs'.
Proof.
  intros Hf vs. induction vs as [|v vs IH]; intros s vs' s' Hvs Hinv Hc; simpl in Hc.
  - simplify_eq. by split_and!.
  - destruct (f v s) as [[v1 s1]|] eqn:Hv; [|done].
    destruct (copy_all f vs s1) as [[vs2 s2]|] eqn:Hrest; [|done].
    simplify_eq. apply Forall_cons in Hvs as [Hv0 Hvs].
    destruct (Hf _ _ _ _ Hv0 Hinv Hv) as (Hinv1 & Hlen1 & Hpre1 & Hab1 & _).
    destruct (IH _ _ _ Hvs Hinv1 Hrest) as (Hinv2 & Hlen2 & Hpre2 & Hab2).
    split_and!; [done|lia| |by constructor].
    intros i Hi. by rewrite Hpre2, Hpre1.
Qed.

Lemma deepcopy_val_inv fuel v s v' s' :
  copy_inv n s → deepcopy_val fuel v s = Some (v', s') → copy_post n s v' s'.
Proof.
  revert v s v' s'. induction fuel as [|fuel IH]; intros v s v' s' Hinv Hc.
  - destruct v; simpl in Hc; simplify_eq; try by (split_and!; [done|lia|done|done|done]).
    destruct (c_memo s !! l) as [y|] eqn:Hm; [|done]. simplify_eq.
    destruct Hinv as (Hn & Hmemo & Hcl). destruct (Hmemo _ _ Hm).
    by split_and!.
  - destruct v; simpl in Hc; simplify_eq; try by (split_and!; [done|lia|done|done|done]).
    destruct (c_memo s !! l) as [y|] eqn:Hm.
    { simplify_eq. destruct Hinv as (Hn & Hmemo & Hcl). destruct (Hmemo _ _ Hm).
      by split_and!. }
    destruct (c_heap s !! l) as [o|] eqn:Ho; [|done].
    destruct (copy_all _ _ _) as [[vs' s2]|] eqn:Hall; [|done]. simplify_eq.
    destruct Hinv as (Hn & Hmemo & Hcl).
    set (s1 := {| c_heap := c_heap s ++ [obj_blank o];
                  c_memo := <[l:=length (c_heap s)]> (c_memo s) |}) in *.
    assert (Hinv1 : copy_inv n s1).
    { split_and!; simpl.
      - rewrite length_app. simpl. lia.
      - intros l' y'. rewrite length_app. simpl.
        destruct (decide (l = l')) as [->|Hne].
        + rewrite lookup_insert_eq. intros [= <-]. lia.
        + rewrite lookup_insert_ne by done. intros Hy.
          destruct (Hmemo _ _ Hy). lia.
      - intros i o' Hi Hlook.
        apply lookup_app_Some in Hlook as [Hlook|[Hge Hlook]].
        + by eapply Hcl.
        + apply list_lookup_singleton_Some in Hlook as [_ <-].
          rewrite obj_vals_blank. constructor. }
    destruct (copy_all_inv (deepcopy_val fuel) (fun _ => True)
                (fun v s v' s' _ => IH v s v' s') _ _ _ _
                (Forall_true _ _ (fun _ => I)) Hinv1 Hall)
      as ((Hn2 & Hmemo2 & Hcl2) & Hlen2 & Hpre2 & Hab2).
    assert (Hlen1 : length (c_heap s1) = S (length (c_heap s))).
    { simpl. rewrite length_app. simpl. lia. }
    split_and!; simpl.
    + split_and!; simpl.
      * by rewrite length_insert.
      * intros l' y' Hy. rewrite length_insert. by apply (Hmemo2 l').
      * intros i o' Hi Hlook.
        destruct (decide (i = length (c_heap s))) as [->|Hne].
        -- rewrite list_lookup_insert_eq in Hlook by lia. simplify_eq.
           by apply obj_vals_fill.
        -- rewrite list_lookup_insert_ne in Hlook by done. by eapply Hcl2.
    + rewrite length_insert. lia.
    + intros i Hi. rewrite list_lookup_insert_ne by lia.
      rewrite Hpre2 by done. simpl. apply lookup_app_l. lia.
    + lia.
    + rewrite length_insert. lia.
Qed.

End CopyInvariant.

(** What [emit] relies on: the copy sits above the heap it was taken
    from, refers to nothing below, and the old heap reads as before. *)
Lemma deepcopy_fresh (h : heap) (l : loc) (y : loc) (h' : heap) :
  deepcopy h l = Some (y, h') →
  length h ≤ y ∧ y < length h' ∧
  closed_above (length h) h' ∧
  ∀ i, i < length h → h' !! i = h !! i.
Proof.
  unfold deepcopy. intros Hc.
  destruct (deepcopy_val _ _ _) as [[v' s']|] eqn:Hv; [|done].
  destruct (deepcopy_val_ref _ _ _ _ _ Hv) as [y' ->]. simplify_eq.
  assert (Hinv : copy_inv (length h) {| c_heap := h; c_memo := ∅ |}).
  { split_and!; simpl; [done| |].
    - intros l' y'. by rewrite lookup_empty.
    - intros i o Hi Hlook. apply lookup_lt_Some in Hlook. lia. }
  destruct (deepcopy_val_inv _ _ _ _ _ _ Hinv Hv)
    as ((_ & _ & Hcl) & _ & Hpre & Hab & Hok).
  simpl in *. by split_and!.
Qed.

(** ** [deepcopy] returns on every well-formed heap *)

Section CopyTotal.
Variable h0 : heap.
Hypothesis h0_wf : heap_wf h0.

Lemma unvisited_mono (s s' : cstate) :
  dom (c_memo s) ⊆ dom (c_memo s') →
  size (unvisited h0 s') ≤ size (unvisited h0 s).
Proof.
  intros Hsub. apply subseteq_size. unfold unvisited.
  intros x [Hx Hn]%elem_of_difference. apply elem_of_difference.
  split; [done|]. intros Hd. apply Hn. by apply Hsub.
Qed.

Lemma unvisited_visit (s : cstate) (l y : loc) (h : heap) :
  l < length h0 → c_memo s !! l = None →
  size (unvisited h0 {| c_heap := h; c_memo := <[l:=y]> (c_memo s) |})
    < size (unvisited h0 s).
Proof.
  intros Hl Hm. apply subset_size. unfold unvisited. simpl.
  rewrite dom_insert_L.
  assert (Hseq : l ∈ (set_seq 0 (length h0) : gset nat)) by (apply elem_of_set_seq; lia).
  assert (Hdom : l ∉ dom (c_memo s)) by by apply not_elem_of_dom.
  split.
  - intros x [Hx Hn]%elem_of_difference. apply elem_of_difference.
    split; [done|]. intros Hd. apply Hn. apply elem_of_union. by right.
  - intros Hsub. assert (Hl' : l ∈ set_seq 0 (length h0) ∖ dom (c_memo s))
      by by apply elem_of_difference.
    apply Hsub, elem_of_difference in Hl' as [_ Hn].
    apply Hn, elem_of_union. left. by apply elem_of_singleton.
Qed.

Lemma copy_all_total (f : val → cstate → option (val * cstate)) (fuel : nat) :
  (∀ v s, copy_over h0 s → val_ok (length h0) v → size (unvisited h0 s) ≤ fuel →
          copy_went h0 s (f v s)) →
  ∀ vs s, Forall (val_ok (length h0)) vs → copy_over h0 s →
          size (unvisited h0 s) ≤ fuel →
          ∃ vs' s', copy_all f vs s = Some (vs', s') ∧ copy_over h0 s' ∧
                    dom (c_memo s) ⊆ dom (c_memo s').
Proof.
  intros Hf vs. induction vs as [|v vs IH]; intros s Hvs Hover Hsize; simpl.
  - eauto.
  - apply Forall_cons in Hvs as [Hv Hvs].
    destruct (Hf v s Hover Hv Hsize) as (v1 & s1 & -> & Hover1 & Hsub1).
    destruct (IH s1 Hvs Hover1) as (vs2 & s2 & -> & Hover2 & Hsub2).
    { pose proof (unvisited_mono _ _ Hsub1). lia. }
    eexists _, _. split; [done|]. split; [done|]. set_solver.
Qed.

Lemma deepcopy_val_total (fuel : nat) (v : val) (s : cstate) :
  copy_over h0 s → val_ok (length h0) v → size (unvisited h0 s) ≤ fuel →
  copy_went h0 s (deepcopy_val fuel v s).
Proof.
  revert v s. induction fuel as [|fuel IH]; intros v s Hover Hv Hsize.
  - destruct v; simpl; try by (eexists _, _; eauto).
    destruct (c_memo s !! l) as [y|] eqn:Hm; [by (eexists _, _; eauto)|].
    simpl in Hv. pose proof (unvisited_visit s l 0 [] Hv Hm). lia.
  - destruct v; simpl; try by (eexists _, _; eauto).
    destruct (c_memo s !! l) as [y|] eqn:Hm; [by (eexists _, _; eauto)|].
    simpl in Hv. destruct Hover as [Hlen Hpre].
    destruct (lookup_lt_is_Some_2 h0 l Hv) as [o Ho].
    rewrite (Hpre l Hv), Ho.
    set (s1 := {| c_heap := c_heap s ++ [obj_blank o];
                  c_memo := <[l:=length (c_heap s)]> (c_memo s) |}).
    assert (Hover1 : copy_over h0 s1).
    { split; simpl.
      - rewrite length_app. lia.
      - intros i Hi. rewrite lookup_app_l by lia. by apply Hpre. }
    destruct (copy_all_total (deepcopy_val fuel) fuel IH (obj_vals o) s1)
      as (vs' & s2 & -> & [Hlen2 Hpre2] & Hsub2); [by eapply h0_wf|done| |].
    { pose proof (unvisited_visit s l (length (c_heap s))
                    (c_heap s ++ [obj_blank o]) Hv Hm). fold s1 in H. lia. }
    eexists _, _. split; [done|]. split.
    + split; simpl.
      * by rewrite length_insert.
      * intros i Hi. rewrite list_lookup_insert_ne by lia. by apply Hpre2.
    + simpl. simpl in Hsub2. rewrite dom_insert_L in Hsub2. set_solver.
Qed.

End CopyTotal.

Lemma deepcopy_total (h : heap) (l : loc) :
  heap_wf h → l < length h → ∃ y h', deepcopy h l = Some (y, h').
Proof.
  intros Hwf Hl. unfold deepcopy.
  destruct (deepcopy_val_total h Hwf (length h) (VRef l) {| c_heap := h; c_memo := ∅ |})
    as (v' & s' & Hc & _ & _).
  - by split.
  - done.
  - unfold unvisited. simpl. rewrite dom_empty_L, difference_empty_L.
    by rewrite size_set_seq.
  - rewrite Hc. destruct (deepcopy_val_ref _ _ _ _ _ Hc) as [y ->]. eauto.
Qed.

(** ** The modifier chain stays on the copy *)

Section Confinement.
Context {R : Type} `{SchemaRegistry R}.

Lemma apply_modifiers_confined (n : nat) ms schema_id version :
  Forall (fun m => confined_modifier (mod_call m schema_id version)) ms →
  ∀ y w, n ≤ y → y < length (w_heap w) → closed_above n (w_heap w) →
    (∀ i, i < n → w_heap (apply_modifiers ms schema_id version y w).2 !! i
                  = w_heap w !! i) ∧
    closed_above n (w_heap (apply_modifiers ms schema_id version y w).2) ∧
    (∃ evs, w_trace (apply_modifiers ms schema_id version y w).2 = w_trace w ++ evs ∧
            Forall (fun e => ∀ d, event_data e = Some d → n ≤ d) evs) ∧
    match (apply_modifiers ms schema_id version y w).1 with
    | Ok y' => n ≤ y' ∧ y' < length (w_heap (apply_modifiers ms schema_id version y w).2)
    | Raise _ => True
    end.
Proof.
  induction 1 as [|m ms Hm Hms IH]; intros y w Hy Hlen Hcl; simpl.
  - split; [done|]. split; [done|]. split; [|done].
    exists []. by rewrite app_nil_r.
  - unfold bind, tell, on_heap; simpl.
    destruct (Hm n y (w_heap w) Hy Hlen Hcl) as (Hpre & Hcl' & Hret).
    destruct (mod_call m schema_id version y (w_heap w)) as [[y'|c] h] eqn:Hcall;
      simpl in *.
    + destruct Hret as [Hy' Hlen'].
      destruct (IH y' (set_heap h (log_event (EvModifier (mod_id m) schema_id version y) w))
                  Hy' Hlen' Hcl') as (Hpre2 & Hcl2 & (evs & Htr & Hevs) & Hret2).
      split; [|split; [done|split; [|done]]].
      * intros i Hi. rewrite Hpre2 by done. simpl. by apply Hpre.
      * exists (EvModifier (mod_id m) schema_id version y :: evs).
        rewrite Htr. simpl. rewrite <- app_assoc. split; [done|].
        constructor; [|done]. by intros d [= <-].
    + split; [done|]. split; [done|]. split; [|done].
      exists [EvModifier (mod_id m) schema_id version y]. split; [done|].
      constructor; [|done]. by intros d [= <-].
Qed.

End Confinement.

Lemma stamp_confined schema_id version : confined_modifier (mod_call stamp schema_id version).
Proof.
  intros n l h Hl Hlen Hcl. simpl.
  destruct (h !! l) as [[items|elems]|] eqn:Hlook; simpl; try done.
  split; [|split].
  - intros i Hi. apply list_lookup_insert_ne. lia.
  - intros i o Hi Ho.
    destruct (decide (i = l)) as [->|Hne].
    + rewrite list_lookup_insert_eq in Ho by done. simplify_eq. simpl.
      apply Forall_forall. intros v Hv.
      apply list_elem_of_fmap in Hv as ([k v'] & -> & Hkv).
      apply elem_of_map_to_list in Hkv. simpl.
      destruct (decide (k = "stamped"%string)) as [->|Hk].
      * rewrite lookup_insert_eq in Hkv. by simplify_eq.
      * rewrite lookup_insert_ne in Hkv by done.
        pose proof (Hcl l _ Hl Hlook) as Hall. simpl in Hall.
        rewrite Forall_forall in Hall. apply Hall.
        apply list_elem_of_fmap. exists (k, v'). split; [done|].
        by apply elem_of_map_to_list.
    + rewrite list_lookup_insert_ne in Ho by done. by eapply Hcl.
  - rewrite length_insert. done.
Qed.

Lemma simple_validate_confined schema_id version (r : registry) :
  confined_validator (fun l h => simple_validate_event schema_id version l r h).
Proof.
  intros n l h Hl Hlen Hcl i Hi. unfold simple_validate_event.
  repeat case_match; simpl; try done.
  apply list_lookup_insert_ne. lia.
Qed.

(** ** What [dict.update] raises for a list *)

Lemma update_pair_raises order (h : heap) (item : val) e :
  update_pair order h item = Raise e → e = TypeError ∨ e = ValueError.
Proof.
  unfold update_pair, as_sequence. intros He.
  repeat case_match; simplify_eq; auto.
Qed.

Lemma update_from_seq_raises order (h : heap) (items : list val) d e :
  (update_from_seq order h items d).1 = Raise e → e = TypeError ∨ e = ValueError.
Proof.
  revert d. induction items as [|item items IH]; intros d; simpl; [done|].
  destruct (update_pair order h item) as [[[k|] v]|e'] eqn:Hpair; simpl; [apply IH..|].
  intros [= <-]. by eapply update_pair_raises.
Qed.

(** [dict.update] on some lists: a list of pairs is merged, a [str] of
    two characters is a pair, an element of another length than two
    raises [ValueError], an element that cannot be iterated or a key that
    cannot be hashed raises [TypeError], and a dict is a pair of its keys
    in the order they were inserted. *)
Example update_from_seq_examples :
  update_from_seq no_order pairs_heap [VRef 1] ∅ = (Ok tt, {[ "a"%string := VInt 1 ]}) ∧
  update_from_seq no_order [] [VStr "ab"] ∅ = (Ok tt, {[ "a"%string := VStr "b" ]}) ∧
  update_from_seq no_order triple_heap [VRef 1] ∅ = (Raise ValueError, ∅) ∧
  update_from_seq no_order [] [VStr "abc"] ∅ = (Raise ValueError, ∅) ∧
  update_from_seq no_order [] [VInt 5] ∅ = (Raise TypeError, ∅) ∧
  update_from_seq no_order list_key_heap [VRef 1] ∅ = (Raise TypeError, ∅) ∧
  update_from_seq no_order int_key_heap [VRef 1] ∅ = (Ok tt, ∅) ∧
  update_from_seq b_then_a dict_pair_heap [VRef 1] ∅ = (Ok tt, {[ "b"%string := VStr "a" ]}) ∧
  update_from_seq no_order pairs_heap [VRef 1; VInt 5] ∅
    = (Raise TypeError, {[ "a"%string := VInt 1 ]}).
Proof. split_and!; reflexivity. Qed.

(** ** What [emit] raises, and what it returns *)

Section EmitOutcome.
Context {R : Type} `{SchemaRegistry R}.

(** Where an exception of [emit] comes from. *)
Lemma emit_exception_origin schema_id version data ts (self : EventLogger R) w e :
  (emit schema_id version data ts self w).1 = Raise e →
  handlers_truthy (handlers self) = true ∧
  registry_contains (schema_id, version) (schemas self) = true ∧
  ((e = RecursionError ∧ deepcopy (w_heap w) data = None)
   ∨ (e = KeyError ∧ table_get (_modifiers self) (schema_id, version) = None)
   ∨ (∃ code, e = ModifierRaised code)
   ∨ (∃ code, e = CollaboratorError code)
   ∨ e = TypeError
   ∨ e = ValueError).
Proof.
  destruct (handlers_truthy (handlers self)) eqn:Hh.
  2: { unfold emit. rewrite Hh. done. }
  destruct (registry_contains (schema_id, version) (schemas self)) eqn:Hc.
  2: { rewrite emit_unknown_key_steps by done. simpl. by case_bool_decide. }
  rewrite emit_known_key_steps by done. simpl. intros He.
  split; [done|]. split; [done|].
  destruct (deepcopy (w_heap w) data) as [[y h]|]; simpl in He.
  2: { left. by simplify_eq. }
  destruct (table_get (_modifiers self) (schema_id, version)) as [ms|]; simpl in He.
  2: { right; left. by simplify_eq. }
  destruct (apply_modifiers ms schema_id version y _) as [[y'|e'] w2] eqn:Hm; simpl in He.
  2: { right; right; left. simplify_eq.
       eapply apply_modifiers_raises. by rewrite Hm. }
  destruct (registry_validate_event _ _ _ _ _) as [[[]|code] h4]; simpl in He.
  2: { right; right; right; left. simplify_eq. eauto. }
  right; right; right; right.
  destruct ((h4 ++ _) !! y') as [[items|elems]|]; simpl in He; [by simplify_eq| |].
  - destruct (update_from_seq _ _ _ _) as [[[]|e'] c] eqn:Hseq; simpl in He;
      [by simplify_eq|]. injection He as <-.
    eapply (update_from_seq_raises _ _ _ _ e'). by rewrite Hseq.
  - left. by simplify_eq.
Qed.

(** The envelope of an event that went through. *)
Lemma emit_success_steps schema_id version data ts (self : EventLogger R) w
    ms y h y' w2 h4 payload :
  handlers_truthy (handlers self) = true →
  registry_contains (schema_id, version) (schemas self) = true →
  table_get (_modifiers self) (schema_id, version) = Some ms →
  deepcopy (w_heap w) data = Some (y, h) →
  apply_modifiers ms schema_id version y
    (evolve h [EvContains (schema_id, version); EvDeepcopy data] w) = (Ok y', w2) →
  registry_validate_event schema_id version y' (schemas self) (w_heap w2)
    = (Returns tt, h4) →
  h4 !! y' = Some (ODict payload) →
  emit schema_id version data ts self w =
    (Ok (Some (length h4)),
     evolve (h4 ++ [ODict (dict_update
                             (capsule_literal (default (w_utcnow w) ts) schema_id version)
                             payload)])
       [EvValidate schema_id version y'; EvLogInfo (length h4)] w2).
Proof.
  intros Hh Hc Hms Hcopy Hmods Hval Hpay.
  rewrite emit_known_key_steps by done. simpl.
  rewrite Hcopy, Hms, Hmods, Hval. simpl.
  rewrite (lookup_app_l_Some _ _ _ _ Hpay).
  pose proof (apply_modifiers_world ms schema_id version y
    (evolve h [EvContains (schema_id, version); EvDeepcopy data] w)) as [_ Hnow].
  rewrite Hmods in Hnow. simpl in Hnow. by rewrite Hnow.
Qed.

End EmitOutcome.

Lemma capsule_literal_lookup timestamp schema_id version :
  capsule_literal timestamp schema_id version !! "__timestamp__"%string
    = Some (VStr (isoformat timestamp +:+ "Z")) ∧
  capsule_literal timestamp schema_id version !! "__schema__"%string
    = Some (VStr schema_id) ∧
  capsule_literal timestamp schema_id version !! "__schema_version__"%string
    = Some (VInt version) ∧
  capsule_literal timestamp schema_id version !! "__metadata_version__"%string
    = Some (VInt 1).
Proof.
  unfold capsule_literal. simpl.
  split_and!; repeat (rewrite lookup_insert_ne by done); by rewrite lookup_insert_eq.
Qed.

Lemma capsule_literal_keys timestamp schema_id version (k : string) :
  is_Some (capsule_literal timestamp schema_id version !! k) → k ∈ reserved_keys.
Proof.
  intros [x Hx]. unfold capsule_literal in Hx.
  apply elem_of_list_to_map_2 in Hx. unfold reserved_keys.
  repeat (apply elem_of_cons in Hx as [Hx|Hx]; [injection Hx as -> _; set_solver|]).
  by apply elem_of_nil in Hx.
Qed.

Lemma dict_update_lookup (d other : gmap string val) (k : string) :
  dict_update d other !! k =
    match other !! k with
    | Some x => Some x
    | None => d !! k
    end.
Proof.
  unfold dict_update. rewrite lookup_union.
  destruct (other !! k), (d !! k); done.
Qed.

(** * The claims of the specification *)

(** C4. A logger whose [handlers] is [None] or empty: [emit] returns
    [None] and leaves the world as it was. The heap is the same (no copy
    was made), the once-registry is the same (no warning), and the trace
    is the same: the registry was not asked, no modifier was called. *)
Theorem emit_without_handlers {R} `{SchemaRegistry R} (self : EventLogger R)
    schema_id version data timestamp_override (w : world) :
  handlers self = None ∨ handlers self = Some [] →
  emit schema_id version data timestamp_override self w = (Ok None, w).
Proof. intros [E|E]; unfold emit; by rewrite E. Qed.

Lemma emit_without_handlers_witness :
  (handlers silent_logger = None ∨ handlers silent_logger = Some []) ∧
  table_get (_modifiers silent_logger) ("org.test.click"%string, 1%Z) = Some [stamp] ∧
  emit "org.test.click" 1 0 None silent_logger (sample_world click_heap)
    = (Ok None, sample_world click_heap).
Proof.
  split; [by right|]. split; [reflexivity|].
  apply emit_without_handlers. by right.
Defined.

(** C3. An [emit] for a key that the registry does not hold, on a logger
    with a handler, made after any calls [cs] of a process that started
    with an empty once-registry: it returns [None], leaves the heap as it
    was and builds nothing; if no earlier call warned for this key it
    shows the [SchemaNotRegistered] warning once, and if one did it shows
    nothing. The text of the warning belongs to this key alone. *)
Theorem emit_unregistered_warns_once {R} `{SchemaRegistry R}
    (cs : list (emit_call R)) (c : emit_call R) (w0 : world) :
  let k := (call_schema_id c, call_version c) in
  let text := not_registered_message (call_schema_id c) (call_version c) in
  let w := run_calls cs w0 in
  w_onceregistry w0 = [] →
  handlers_truthy (handlers (call_self c)) = true →
  registry_contains k (schemas (call_self c)) = false →
  (run_call c w).1 = Ok None ∧
  w_heap (run_call c w).2 = w_heap w ∧
  (Forall (fun c' => warns_for k c' = false) cs →
     w_trace (run_call c w).2
       = w_trace w ++ [EvContains k; EvShowWarning text SchemaNotRegistered]) ∧
  (Exists (fun c' => warns_for k c' = true) cs →
     w_trace (run_call c w).2 = w_trace w ++ [EvContains k]) ∧
  (∀ schema_id version,
     not_registered_message schema_id version = text → (schema_id, version) = k).
Proof.
  intros k text w Hw0 Hh Hc.
  pose proof (run_calls_onceregistry cs k w0) as Hreg. simpl in Hreg.
  rewrite Hw0 in Hreg. fold text in Hreg. fold w in Hreg.
  unfold run_call. rewrite emit_unknown_key_steps by done. simpl. fold text.
  split_and!.
  - by case_bool_decide.
  - by case_bool_decide.
  - intros Hnone. rewrite bool_decide_false; [done|].
    intros [Hin|Hex]%Hreg; [by apply elem_of_nil in Hin|].
    apply Exists_exists in Hex as (c' & Hin & Hc').
    rewrite Forall_forall in Hnone. specialize (Hnone c' Hin). congruence.
  - intros Hex. rewrite bool_decide_true; [done|]. apply Hreg. by right.
  - intros schema_id version Hmsg.
    apply not_registered_message_inj in Hmsg as [-> ->]. done.
Qed.

Lemma emit_unregistered_warns_once_witness :
  let k := ("org.test.scroll"%string, 2%Z) in
  let w := run_calls [click_call; stray_call] (sample_world click_heap) in
  Exists (fun c' => warns_for k c' = true) [click_call; stray_call] ∧
  (run_call stray_call w).1 = Ok None ∧
  w_trace (run_call stray_call w).2 = w_trace w ++ [EvContains k].
Proof.
  intros k w.
  assert (Hex : Exists (fun c' => warns_for k c' = true) [click_call; stray_call]).
  { apply Exists_cons_tl, Exists_cons_hd. reflexivity. }
  split; [exact Hex|].
  destruct (emit_unregistered_warns_once [click_call; stray_call] stray_call
              (sample_world click_heap))
    as (Hr & _ & _ & Hagain & _); [reflexivity..|].
  split; [exact Hr|]. exact (Hagain Hex).
Defined.

(** C9. Whatever [emit] does (return the envelope, drop the event, or
    raise), every object that was in the heap when it was called reads the
    same afterwards: the payload and all that hangs from it are
    untouched. The modifiers and the validator are called on objects
    allocated after the call began, that is on the deep copy and on what
    came out of it. The modifiers of the key and the validator are taken
    to be confined: they write to what they are handed and hold no
    reference of their own to the caller's objects. *)
Theorem emit_leaves_payload_alone {R} `{SchemaRegistry R} (self : EventLogger R)
    schema_id version data timestamp_override (w : world) :
  (∀ ms, table_get (_modifiers self) (schema_id, version) = Some ms →
         Forall (fun m => confined_modifier (mod_call m schema_id version)) ms) →
  confined_validator
    (fun l h => registry_validate_event schema_id version l (schemas self) h) →
  (∀ i, i < length (w_heap w) →
        w_heap (emit schema_id version data timestamp_override self w).2 !! i
        = w_heap w !! i) ∧
  (∃ evs, w_trace (emit schema_id version data timestamp_override self w).2
            = w_trace w ++ evs ∧
          ∀ e d, e ∈ evs → event_data e = Some d → length (w_heap w) ≤ d).
Proof.
  intros Hmods Hval.
  destruct (handlers_truthy (handlers self)) eqn:Hh.
  2: { unfold emit. rewrite Hh. simpl. split; [done|].
       exists []. rewrite app_nil_r. split; [done|]. by intros e d ?%elem_of_nil. }
  destruct (registry_contains (schema_id, version) (schemas self)) eqn:Hc.
  2: { rewrite emit_unknown_key_steps by done. simpl.
       case_bool_decide; simpl; (split; [done|]); eexists; (split; [done|]);
         intros e d Hin; repeat (apply elem_of_cons in Hin as [->|Hin]; [done|]);
         by apply elem_of_nil in Hin. }
  rewrite emit_known_key_steps by done. simpl.
  set (seen := [EvContains (schema_id, version); EvDeepcopy data]).
  assert (Hseen : ∀ e d, e ∈ seen → event_data e = Some d → length (w_heap w) ≤ d).
  { intros e d Hin. repeat (apply elem_of_cons in Hin as [->|Hin]; [done|]).
    by apply elem_of_nil in Hin. }
  destruct (deepcopy (w_heap w) data) as [[y h]|] eqn:Hcopy; simpl.
  2: { split; [done|]. by exists seen. }
  apply deepcopy_fresh in Hcopy as (Hy & Hylen & Hcl & Hpre).
  destruct (table_get (_modifiers self) (schema_id, version)) as [ms|] eqn:Hms; simpl.
  2: { split; [done|]. by exists seen. }
  destruct (apply_modifiers_confined (length (w_heap w)) ms schema_id version
              (Hmods ms eq_refl) y (evolve h seen w) Hy Hylen Hcl)
    as (Hpre2 & Hcl2 & (evs & Htr & Hevs) & Hret).
  destruct (apply_modifiers ms schema_id version y (evolve h seen w))
    as [[y'|e] w2]; simpl in *.
  2: { split; [intros i Hi; rewrite Hpre2 by done; by apply Hpre|].
       exists (seen ++ evs). rewrite Htr, <- app_assoc. split; [done|].
       intros e' d [Hin|Hin]%elem_of_app; [by eapply Hseen|].
       rewrite Forall_forall in Hevs. by eapply Hevs. }
  destruct Hret as [Hy' Hylen'].
  pose proof (Hval (length (w_heap w)) y' (w_heap w2) Hy' Hylen' Hcl2) as Hpre3.
  cbv beta in Hpre3.
  destruct (registry_validate_event schema_id version y' (schemas self) (w_heap w2))
    as [[[]|code] h4]; simpl in *.
  - assert (Hold : ∀ i, i < length (w_heap w) → h4 !! i = w_heap w !! i).
    { intros i Hi. rewrite Hpre3, Hpre2 by done. by apply Hpre. }
    assert (Hlen4 : length (w_heap w) ≤ length h4).
    { destruct (decide (length (w_heap w) ≤ length h4)) as [|Hlt]; [done|].
      assert (Hi : length h4 < length (w_heap w)) by lia.
      pose proof (Hold _ Hi) as Hbad.
      rewrite lookup_ge_None_2 in Hbad by lia.
      symmetry in Hbad. apply lookup_ge_None_1 in Hbad. lia. }
    assert (Hevents : ∀ tail,
              (∀ e d, e ∈ tail → event_data e = Some d → length (w_heap w) ≤ d) →
              ∃ evs0, ((w_trace w ++ seen) ++ evs) ++ tail = w_trace w ++ evs0 ∧
                      ∀ e d, e ∈ evs0 → event_data e = Some d → length (w_heap w) ≤ d).
    { intros tail Htail. exists (seen ++ evs ++ tail).
      rewrite <- !app_assoc. split; [done|].
      intros e' d [Hin|[Hin|Hin]%elem_of_app]%elem_of_app;
        [by eapply Hseen| |by eapply Htail].
      rewrite Forall_forall in Hevs. by eapply Hevs. }
    destruct ((h4 ++ _) !! y') as [[items|elems]|]; simpl.
    2: destruct (update_from_seq _ _ _ _) as [[[]|err] c]; simpl.
    all: split; [intros i Hi; rewrite lookup_app_l by lia; by apply Hold|].
    all: rewrite Htr; apply Hevents.
    all: intros e' d Hin; repeat (apply elem_of_cons in Hin as [->|Hin]);
      try (by apply elem_of_nil in Hin); simpl; intros; by simplify_eq.
  - split; [intros i Hi; rewrite Hpre3, Hpre2 by done; by apply Hpre|].
    exists (seen ++ evs ++ [EvValidate schema_id version y']).
    rewrite Htr, <- !app_assoc. split; [done|].
    intros e' d [Hin|[Hin|Hin]%elem_of_app]%elem_of_app; [by eapply Hseen| |].
    + rewrite Forall_forall in Hevs. by eapply Hevs.
    + apply list_elem_of_singleton in Hin as ->. by intros [= <-].
Qed.

Lemma emit_leaves_payload_alone_witness :
  let w := sample_world nested_heap in
  (emit "org.test.click" 1 0 None stamping_logger w).1 = Ok (Some 4) ∧
  ∀ i, i < length (w_heap w) →
       w_heap (emit "org.test.click" 1 0 None stamping_logger w).2 !! i = w_heap w !! i.
Proof.
  intros w. split; [reflexivity|].
  apply (emit_leaves_payload_alone stamping_logger "org.test.click" 1 0 None w).
  - intros ms Hms.
    assert (Hs : table_get (_modifiers stamping_logger) ("org.test.click"%string, 1%Z)
                 = Some [stamp]) by reflexivity.
    rewrite Hs in Hms. injection Hms as <-.
    constructor; [apply stamp_confined|constructor].
  - apply simple_validate_confined.
Defined.

(** C5, as the code has it. When the registry accepts the schema and
    gives key [k], [register_event_schema] sets the modifier set of [k]
    to the empty set, whatever it held, and leaves the sets of all other
    keys as they were. *)
Theorem register_event_schema_resets_key {R} `{SchemaRegistry R}
    (self : EventLogger R) (schema : schema_source) (k : key) (r : R) :
  registry_register schema (schemas self) = (Returns k, r) →
  (register_event_schema schema self).1 = Ok tt ∧
  schemas (register_event_schema schema self).2 = r ∧
  table_get (_modifiers (register_event_schema schema self).2) k = Some [] ∧
  ∀ k', k' ≠ k →
        table_get (_modifiers (register_event_schema schema self).2) k'
        = table_get (_modifiers self) k'.
Proof.
  intros Hreg. unfold register_event_schema. rewrite Hreg. simpl.
  split_and!; [done|done|apply table_get_set_eq|].
  intros k' Hne. by apply table_get_set_ne.
Qed.

Lemma register_event_schema_resets_key_witness :
  registry_register click (schemas lenient_logger)
    = (Returns ("org.test.click"%string, 1%Z), schemas lenient_logger) ∧
  table_get (_modifiers (register_event_schema click lenient_logger).2)
    ("org.test.click"%string, 1%Z) = Some [].
Proof.
  split; [reflexivity|].
  apply (@register_event_schema_resets_key registry simple_registry lenient_logger
           click ("org.test.click"%string, 1%Z) (schemas lenient_logger)).
  reflexivity.
Defined.

(** C5, as the specification states it, fails: [stamp] was added under the key of
    [click]; the registry accepts [click] again; the set under the key is
    then empty. *)
Lemma reregistration_clears_modifiers :
  table_get (_modifiers lenient_logger) ("org.test.click"%string, 1%Z) = Some [stamp] ∧
  (register_event_schema click lenient_logger).1 = Ok tt ∧
  table_get (_modifiers (register_event_schema click lenient_logger).2)
    ("org.test.click"%string, 1%Z) = Some [] ∧
  ¬ (∀ ms, table_get (_modifiers lenient_logger) ("org.test.click"%string, 1%Z) = Some ms →
           table_get (_modifiers (register_event_schema click lenient_logger).2)
             ("org.test.click"%string, 1%Z) = Some ms).
Proof.
  split_and!; [reflexivity..|].
  intros Hkeep. specialize (Hkeep [stamp] eq_refl). vm_compute in Hkeep. discriminate.
Qed.

(** C7. The schema of [click] is registered and [stamp] is in its set;
    [remove_modifier(schema_id="org.test.click", modifier=stamp)] raises
    [KeyError] and [stamp] is still there. *)
Theorem remove_modifier_by_schema_id_raises :
  registry_contains ("org.test.click"%string, 1%Z) (schemas stamping_logger) = true ∧
  table_get (_modifiers stamping_logger) ("org.test.click"%string, 1%Z) = Some [stamp] ∧
  remove_modifier (Some "org.test.click"%string) stamp stamping_logger
    = (Raise KeyError, stamping_logger).
Proof. split_and!; reflexivity. Qed.

(** C8. [remove_modifier(modifier=stamp)] with no [schema_id]: on a
    logger where a set does not hold [stamp] the call raises [KeyError];
    where the first set holds it and the second does not, it is removed
    from the first and the call raises all the same; and where every set
    holds it, the first call succeeds and the same call made again
    raises. *)
Theorem remove_modifier_everywhere_raises :
  remove_modifier None stamp click_logger = (Raise KeyError, click_logger) ∧
  (remove_modifier None stamp two_schema_logger).1 = Raise KeyError ∧
  table_get (_modifiers two_schema_logger) ("org.test.click"%string, 1%Z) = Some [stamp] ∧
  table_get (_modifiers (remove_modifier None stamp two_schema_logger).2)
    ("org.test.click"%string, 1%Z) = Some [] ∧
  (remove_modifier None stamp stamping_logger).1 = Ok tt ∧
  (remove_modifier None stamp (remove_modifier None stamp stamping_logger).2).1
    = Raise KeyError.
Proof. split_and!; reflexivity. Qed.

(** C1, as the code has it. The key is in the registry and in the
    modifier table, there is a handler, and the heap is well formed: the
    deep copy is made, and whenever the modifier chain returns and the
    validator accepts what it returned, a mapping [payload], [emit]
    returns a new dict, the envelope. Every field of [payload] is in the
    envelope with its value; each of the four reserved keys that
    [payload] does not set has the capsule's value: the [isoformat()] of
    the timestamp followed by ["Z"], the schema id, the version, and 1;
    and the envelope has no other key. *)
Theorem emit_returns_envelope {R} `{SchemaRegistry R} (self : EventLogger R)
    schema_id version data timestamp_override (w : world) ms :
  handlers_truthy (handlers self) = true →
  registry_contains (schema_id, version) (schemas self) = true →
  table_get (_modifiers self) (schema_id, version) = Some ms →
  heap_wf (w_heap w) →
  data < length (w_heap w) →
  ∃ y h,
    deepcopy (w_heap w) data = Some (y, h) ∧
    ∀ y' w2 h4 payload,
      apply_modifiers ms schema_id version y
        (evolve h [EvContains (schema_id, version); EvDeepcopy data] w) = (Ok y', w2) →
      registry_validate_event schema_id version y' (schemas self) (w_heap w2)
        = (Returns tt, h4) →
      h4 !! y' = Some (ODict payload) →
      ∃ capsule w' envelope,
        emit schema_id version data timestamp_override self w = (Ok (Some capsule), w') ∧
        w_heap w' !! capsule = Some (ODict envelope) ∧
        (∀ k x, payload !! k = Some x → envelope !! k = Some x) ∧
        (payload !! "__timestamp__"%string = None →
           envelope !! "__timestamp__"%string
           = Some (VStr (isoformat (default (w_utcnow w) timestamp_override) +:+ "Z"))) ∧
        (payload !! "__schema__"%string = None →
           envelope !! "__schema__"%string = Some (VStr schema_id)) ∧
        (payload !! "__schema_version__"%string = None →
           envelope !! "__schema_version__"%string = Some (VInt version)) ∧
        (payload !! "__metadata_version__"%string = None →
           envelope !! "__metadata_version__"%string = Some (VInt 1)) ∧
        (∀ k, is_Some (envelope !! k) → k ∈ reserved_keys ∨ is_Some (payload !! k)).
Proof.
  intros Hh Hc Hms Hwf Hdata.
  destruct (deepcopy_total (w_heap w) data Hwf Hdata) as (y & h & Hcopy).
  exists y, h. split; [done|].
  intros y' w2 h4 payload Hmods Hval Hpay.
  eexists _, _, _. split.
  { by eapply emit_success_steps. }
  simpl.
  destruct (capsule_literal_lookup (default (w_utcnow w) timestamp_override)
              schema_id version) as (Hts & Hid & Hver & Hmeta).
  split; [by apply list_lookup_middle|].
  split_and!.
  - intros k x Hk. by rewrite dict_update_lookup, Hk.
  - intros Hk. by rewrite dict_update_lookup, Hk.
  - intros Hk. by rewrite dict_update_lookup, Hk.
  - intros Hk. by rewrite dict_update_lookup, Hk.
  - intros Hk. by rewrite dict_update_lookup, Hk.
  - intros k. rewrite dict_update_lookup.
    destruct (payload !! k) as [x|] eqn:Hk; [by right; eauto|].
    intros Hlit. left. by eapply capsule_literal_keys.
Qed.

Lemma emit_returns_envelope_witness :
  let w := sample_world click_heap in
  heap_wf (w_heap w) ∧
  ∃ capsule w' envelope,
    emit "org.test.click" 1 0 None stamping_logger w = (Ok (Some capsule), w') ∧
    w_heap w' !! capsule = Some (ODict envelope) ∧
    envelope !! "x"%string = Some (VInt 5) ∧
    envelope !! "stamped"%string = Some (VBool true) ∧
    envelope !! "__schema__"%string = Some (VStr "org.test.click").
Proof.
  intros w.
  assert (Hwf : heap_wf (w_heap w)).
  { intros l o Hl. destruct l as [|l]; simpl in Hl; [|done]. simplify_eq.
    vm_compute. repeat constructor. }
  split; [exact Hwf|].
  destruct (emit_returns_envelope stamping_logger "org.test.click" 1 0 None w [stamp])
    as (y & h & Hcopy & Hrest); [reflexivity..|exact Hwf|simpl; lia|].
  assert (y = 1 ∧ h = click_heap ++ click_heap) as [-> ->].
  { vm_compute in Hcopy. by simplify_eq. }
  destruct (Hrest 1 _ _ _ eq_refl eq_refl eq_refl)
    as (capsule & w' & envelope & Hemit & Hcap & Hfields & _ & Hid & _).
  exists capsule, w', envelope.
  split; [exact Hemit|]. split; [exact Hcap|].
  split; [by apply Hfields|]. split; [by apply Hfields|].
  by apply Hid.
Defined.

(** C1, as the specification states it, fails: [{"x": 5, "__schema__": "other"}]
    validates against the registered schema, and the envelope that [emit]
    returns has ["other"] under [__schema__], not the schema id. *)
Lemma emit_envelope_schema_overridden :
  let r := emit "org.test.click" 1 0 None click_logger (sample_world colliding_heap) in
  registry_contains ("org.test.click"%string, 1%Z) (schemas click_logger) = true ∧
  r.1 = Ok (Some 2) ∧
  ∃ envelope,
    w_heap r.2 !! 2 = Some (ODict envelope) ∧
    envelope !! "__schema__"%string = Some (VStr "other") ∧
    envelope !! "__schema__"%string ≠ Some (VStr "org.test.click").
Proof.
  intros r. split; [reflexivity|]. split; [reflexivity|].
  eexists. split; [reflexivity|]. split; [reflexivity|].
  vm_compute. discriminate.
Qed.

(** C2, as the code has it. When the validated payload sets a reserved
    key, the envelope that [emit] returns has the payload's value under
    that key: [capsule.update(modified_data)] writes the event data over
    the capsule. *)
Theorem emit_payload_overrides_capsule {R} `{SchemaRegistry R} (self : EventLogger R)
    schema_id version data timestamp_override (w : world)
    ms y h y' w2 h4 payload (k : string) (x : val) :
  handlers_truthy (handlers self) = true →
  registry_contains (schema_id, version) (schemas self) = true →
  table_get (_modifiers self) (schema_id, version) = Some ms →
  deepcopy (w_heap w) data = Some (y, h) →
  apply_modifiers ms schema_id version y
    (evolve h [EvContains (schema_id, version); EvDeepcopy data] w) = (Ok y', w2) →
  registry_validate_event schema_id version y' (schemas self) (w_heap w2)
    = (Returns tt, h4) →
  h4 !! y' = Some (ODict payload) →
  k ∈ reserved_keys →
  payload !! k = Some x →
  ∃ capsule w' envelope,
    emit schema_id version data timestamp_override self w = (Ok (Some capsule), w') ∧
    w_heap w' !! capsule = Some (ODict envelope) ∧
    envelope !! k = Some x.
Proof.
  intros Hh Hc Hms Hcopy Hmods Hval Hpay Hk Hx.
  eexists _, _, _. split; [by eapply emit_success_steps|]. simpl.
  split; [by apply list_lookup_middle|].
  by rewrite dict_update_lookup, Hx.
Qed.

Lemma emit_payload_overrides_capsule_witness :
  "__metadata_version__"%string ∈ reserved_keys ∧
  ∃ capsule w' envelope,
    emit "org.test.click" 1 0 None click_logger (sample_world overriding_heap)
      = (Ok (Some capsule), w') ∧
    w_heap w' !! capsule = Some (ODict envelope) ∧
    envelope !! "__metadata_version__"%string = Some (VInt 99).
Proof.
  assert (Hk : "__metadata_version__"%string ∈ reserved_keys).
  { unfold reserved_keys. set_solver. }
  split; [exact Hk|].
  eapply (emit_payload_overrides_capsule click_logger "org.test.click" 1 0 None
            (sample_world overriding_heap) [] 1 (overriding_heap ++ overriding_heap) 1);
    [reflexivity..|exact Hk|reflexivity].
Defined.

(** C2, as the specification states it, fails: the payload sets
    [__metadata_version__] to 99, the capsule sets it to 1, and the
    envelope has 99. *)
Lemma emit_envelope_loses_collision :
  let r := emit "org.test.click" 1 0 None click_logger (sample_world overriding_heap) in
  r.1 = Ok (Some 2) ∧
  ∃ envelope,
    w_heap r.2 !! 2 = Some (ODict envelope) ∧
    envelope !! "__metadata_version__"%string = Some (VInt 99) ∧
    envelope !! "__metadata_version__"%string ≠ Some (VInt EVENTS_METADATA_VERSION).
Proof.
  intros r. split; [reflexivity|].
  eexists. split; [reflexivity|]. split; [reflexivity|].
  vm_compute. discriminate.
Qed.

(** C6, as the code has it. [add_modifier] checks the callable when it
    is registered. An object that is not callable is refused with
    [TypeError]; a callable for which [inspect.signature] raises lets
    that [ValueError] or [TypeError] through; a callable whose signature
    is not [(schema_id: str, version: int, data: dict) -> dict] is
    refused with [ModifierError]. In these three cases the logger is as
    it was. With the required signature [add_modifier] does not raise
    [ModifierError]: it raises [KeyError] and leaves the logger as it
    was when a schema id and a version are given, both truthy, and their
    key has no entry in the modifier table; in every other case it
    returns, unless the callable cannot be hashed, for which the first
    [.add(modifier)] raises [TypeError] and the logger is as it was.
    [emit] never raises [ModifierError]. *)
Theorem add_modifier_checks_signature {R} `{SchemaRegistry R} (self : EventLogger R)
    (schema_id : option string) (version : option Z) (given : pyobject) :
  (given = NotCallable →
     add_modifier schema_id version given self = (Raise TypeError, self)) ∧
  (∀ f, given = Unsigned f →
     add_modifier schema_id version given self = (Raise (signature_error f), self)) ∧
  (∀ m, given = Callable m → mod_signature m ≠ expected_signature →
     add_modifier schema_id version given self = (Raise ModifierError, self)) ∧
  (∀ s, given = Unhashable s → s ≠ expected_signature →
     add_modifier schema_id version given self = (Raise ModifierError, self)) ∧
  (∀ m, given = Callable m → mod_signature m = expected_signature →
     (scoped_to_unknown_key schema_id version self →
        add_modifier schema_id version given self = (Raise KeyError, self)) ∧
     (¬ scoped_to_unknown_key schema_id version self →
        ∃ self', add_modifier schema_id version given self = (Ok tt, self'))) ∧
  (∀ s, given = Unhashable s → s = expected_signature →
     (scoped_to_unknown_key schema_id version self →
        add_modifier schema_id version given self = (Raise KeyError, self)) ∧
     (¬ scoped_to_unknown_key schema_id version self →
        add_modifier schema_id version given self =
          if str_truthy schema_id && int_truthy version
             || existsb (reached schema_id) (_modifiers self).*1
          then (Raise TypeError, self)
          else (Ok tt, self))) ∧
  (∀ id v data ts w, (emit id v data ts self w).1 ≠ Raise ModifierError).
Proof.
  split_and!.
  - by intros ->.
  - by intros f ->.
  - intros m -> Hsig. unfold add_modifier. by rewrite bool_decide_false.
  - intros s -> Hsig. unfold add_modifier. by rewrite bool_decide_false.
  - intros m -> Hsig. unfold add_modifier. rewrite bool_decide_true by done. split.
    + intros (id & v & -> & -> & Hid & Hv & Hget). simpl.
      rewrite (bool_decide_false (id = ""%string)), (bool_decide_false (v = 0%Z)) by done.
      simpl. by rewrite Hget.
    + intros Hknown.
      assert (Hbroadcast :
                ∃ self', match add_to_matching schema_id m (_modifiers self).*1
                                 (_modifiers self) with
                         | Ok t => (Ok tt, set_modifiers t self)
                         | Raise e => (Raise e, self)
                         end = (Ok tt, self')).
      { destruct (add_to_matching_ok schema_id m (_modifiers self).*1 (_modifiers self))
          as [t' ->]; [apply table_get_is_Some|]. eauto. }
      destruct schema_id as [id|], version as [v|]; simpl; try done.
      destruct (bool_decide (id = ""%string)) eqn:Hid; simpl; [done|].
      destruct (bool_decide (v = 0%Z)) eqn:Hv; simpl; [done|].
      destruct (table_get (_modifiers self) (id, v)) as [s|] eqn:Hget; simpl; [eauto|].
      exfalso. apply Hknown. exists id, v.
      apply bool_decide_eq_false in Hid, Hv. by split_and!.
  - intros s -> Hsig. unfold add_modifier. rewrite bool_decide_true by done.
    assert (Hreached : ∀ keys : list key,
              existsb (λ '(id, _), bool_decide (schema_id = None)
                                   || bool_decide (Some id = schema_id)) keys
              = existsb (reached schema_id) keys).
    { intros keys. induction keys as [|[id v] keys IH]; [done|]. simpl. by rewrite IH. }
    rewrite Hreached. split.
    + intros (id & v & -> & -> & Hid & Hv & Hget). simpl.
      rewrite (bool_decide_false (id = ""%string)), (bool_decide_false (v = 0%Z)) by done.
      simpl. by rewrite Hget.
    + intros Hknown.
      destruct schema_id as [id|], version as [v|]; simpl; rewrite ?andb_false_r; try done.
      destruct (bool_decide (id = ""%string)) eqn:Hid; simpl; [done|].
      destruct (bool_decide (v = 0%Z)) eqn:Hv; simpl; [done|].
      destruct (table_get (_modifiers self) (id, v)) as [ms|] eqn:Hget; simpl; [done|].
      exfalso. apply Hknown. exists id, v.
      apply bool_decide_eq_false in Hid, Hv. by split_and!.
  - intros id v data ts w He.
    apply emit_exception_origin in He as (_ & _ & Hcases).
    destruct Hcases as [[? _]|[[? _]|[[? ?]|[[? ?]|[?|?]]]]]; discriminate.
Qed.

Lemma add_modifier_checks_signature_witness :
  mod_signature untyped ≠ expected_signature ∧
  add_modifier None None (Callable untyped) click_logger = (Raise ModifierError, click_logger) ∧
  mod_signature stamp = expected_signature ∧
  scoped_to_unknown_key (Some "org.test.scroll"%string) (Some 2%Z) click_logger ∧
  add_modifier (Some "org.test.scroll"%string) (Some 2%Z) (Callable stamp) click_logger
    = (Raise KeyError, click_logger) ∧
  ¬ scoped_to_unknown_key (Some "org.test.click"%string) (Some 1%Z) click_logger ∧
  (∃ self', add_modifier (Some "org.test.click"%string) (Some 1%Z) (Callable stamp) click_logger
            = (Ok tt, self')) ∧
  add_modifier (Some "org.test.click"%string) (Some 1%Z) (Unhashable expected_signature)
    click_logger = (Raise TypeError, click_logger).
Proof.
  assert (Hne : mod_signature untyped ≠ expected_signature) by (vm_compute; discriminate).
  assert (Hmiss : scoped_to_unknown_key (Some "org.test.scroll"%string) (Some 2%Z)
                    click_logger).
  { exists "org.test.scroll"%string, 2%Z. by split_and!. }
  assert (Hhas : ¬ scoped_to_unknown_key (Some "org.test.click"%string) (Some 1%Z)
                     click_logger).
  { intros (id & v & [= <-] & [= <-] & _ & _ & Hget). vm_compute in Hget. discriminate. }
  destruct (add_modifier_checks_signature click_logger None None (Callable untyped))
    as (_ & _ & Hbad & _).
  destruct (add_modifier_checks_signature click_logger (Some "org.test.scroll"%string)
              (Some 2%Z) (Callable stamp)) as (_ & _ & _ & _ & Hscroll & _).
  destruct (add_modifier_checks_signature click_logger (Some "org.test.click"%string)
              (Some 1%Z) (Callable stamp)) as (_ & _ & _ & _ & Hclick & _).
  destruct (add_modifier_checks_signature click_logger (Some "org.test.click"%string)
              (Some 1%Z) (Unhashable expected_signature)) as (_ & _ & _ & _ & _ & Hunhash & _).
  split; [exact Hne|]. split; [exact (Hbad untyped eq_refl Hne)|]. split; [reflexivity|].
  split; [exact Hmiss|]. split; [exact (proj1 (Hscroll stamp eq_refl eq_refl) Hmiss)|].
  split; [exact Hhas|]. split; [exact (proj2 (Hclick stamp eq_refl eq_refl) Hhas)|].
  exact (proj2 (Hunhash expected_signature eq_refl eq_refl) Hhas).
Defined.

(** C6, as the specification states it, fails: [stamp] has the required signature,
    and registering it for a schema that was never registered raises
    [KeyError]. *)
Lemma add_modifier_unknown_key_raises :
  mod_signature stamp = expected_signature ∧
  add_modifier (Some "org.test.scroll"%string) (Some 2%Z) (Callable stamp) click_logger
    = (Raise KeyError, click_logger).
Proof. split; reflexivity. Qed.

(** * Further properties of the logger *)

(** ** Sets of callables *)

Lemma same_callable_refl (m : modifier) : same_callable m m = true.
Proof. unfold same_callable. by rewrite bool_decide_true. Qed.

Lemma same_callable_sym (m m' : modifier) : same_callable m m' = same_callable m' m.
Proof. unfold same_callable. apply bool_decide_ext. naive_solver. Qed.

Lemma set_mem_app (m : modifier) (s1 s2 : list modifier) :
  set_mem m (s1 ++ s2) = set_mem m s1 || set_mem m s2.
Proof. unfold set_mem. apply existsb_app. Qed.

Lemma set_mem_add (m : modifier) (s : list modifier) : set_mem m (set_add m s) = true.
Proof.
  unfold set_add. destruct (set_mem m s) eqn:Hm; [done|].
  rewrite set_mem_app, Hm. simpl. by rewrite same_callable_refl.
Qed.

Lemma set_mem_add_other (m m' : modifier) (s : list modifier) :
  same_callable m m' = false → set_mem m' (set_add m s) = set_mem m' s.
Proof.
  intros Hne. unfold set_add. destruct (set_mem m s); [done|].
  rewrite set_mem_app. simpl. rewrite same_callable_sym, Hne.
  by rewrite !orb_false_r.
Qed.

Lemma set_add_idem (m : modifier) (s : list modifier) :
  set_add m (set_add m s) = set_add m s.
Proof. unfold set_add at 1. by rewrite set_mem_add. Qed.

Lemma others_absent (m : modifier) (s : list modifier) :
  set_mem m s = false → others m s = s.
Proof.
  unfold others, set_mem. induction s as [|m' s IH]; simpl; [done|].
  intros [Hm' Hs]%orb_false_elim.
  rewrite filter_cons_True by done. by rewrite IH.
Qed.

Lemma set_mem_others (m : modifier) (s : list modifier) : set_mem m (others m s) = false.
Proof.
  unfold others, set_mem. induction s as [|m' s IH]; simpl; [done|].
  destruct (same_callable m m') eqn:Hm.
  - by rewrite filter_cons_False by (by rewrite Hm).
  - rewrite filter_cons_True by done. simpl. by rewrite Hm, IH.
Qed.

Lemma set_mem_others_other (m m' : modifier) (s : list modifier) :
  same_callable m m' = false → set_mem m' (others m s) = set_mem m' s.
Proof.
  intros Hne. unfold others, set_mem. induction s as [|m0 s IH]; simpl; [done|].
  destruct (same_callable m m0) eqn:Hm.
  - rewrite filter_cons_False by (by rewrite Hm). rewrite IH.
    assert (same_callable m' m0 = false) as ->; [|done].
    unfold same_callable in *.
    apply bool_decide_eq_true in Hm. apply bool_decide_eq_false in Hne.
    apply bool_decide_eq_false. congruence.
  - rewrite filter_cons_True by done. simpl. by rewrite IH.
Qed.

Lemma set_remove_add (m : modifier) (s : list modifier) :
  set_mem m s = false → set_remove m (set_add m s) = Ok s.
Proof.
  intros Hm. unfold set_remove. rewrite set_mem_add. f_equal.
  unfold set_add. rewrite Hm. fold (others m (s ++ [m])).
  unfold others. rewrite filter_app. fold (others m s). rewrite others_absent by done.
  rewrite filter_cons_False by (by rewrite same_callable_refl).
  by rewrite filter_nil, app_nil_r.
Qed.

(** ** The table keeps its keys *)

Lemma table_set_keys (t : table) k s :
  is_Some (table_get t k) → (table_set t k s).*1 = t.*1.
Proof.
  induction t as [|[k' s'] t IH]; simpl.
  - by intros [? ?].
  - destruct (decide (k' = k)) as [->|Hne]; simpl; [done|].
    intros Hk. f_equal. by apply IH.
Qed.

Lemma table_get_None (t : table) k : table_get t k = None ↔ k ∉ t.*1.
Proof.
  induction t as [|[k' s'] t IH]; simpl.
  - split; [intros _ ?%elem_of_nil; done|done].
  - rewrite not_elem_of_cons. destruct (decide (k' = k)) as [->|Hne].
    + split; [done|]. by intros [? _].
    + rewrite IH. split; [intros Hn; split; [congruence|done]|by intros [_ Hn]].
Qed.

(** Two tables with the same keys, none twice, and the same set under
    each key are the same table. *)
Lemma table_ext (t1 t2 : table) :
  t1.*1 = t2.*1 → NoDup t1.*1 →
  (∀ k, table_get t1 k = table_get t2 k) → t1 = t2.
Proof.
  revert t2. induction t1 as [|[k1 s1] t1 IH]; intros [|[k2 s2] t2] Hkeys Hnd Hget;
    try done.
  rewrite !fmap_cons in Hkeys. simpl in Hkeys. injection Hkeys as -> Hkeys.
  rewrite fmap_cons in Hnd. apply NoDup_cons in Hnd as [Hk2 Hnd]. simpl in Hk2.
  pose proof (Hget k2) as Hhead. simpl in Hhead.
  rewrite !decide_True in Hhead by done.
  injection Hhead as ->. f_equal. apply IH; [done..|].
  intros k. specialize (Hget k). simpl in Hget.
  destruct (decide (k2 = k)) as [->|Hne]; [|done].
  transitivity (@None (list modifier)); [|symmetry].
  - by apply table_get_None.
  - apply table_get_None. by rewrite <- Hkeys.
Qed.

Section ModifierFacts.
Context {R : Type} `{SchemaRegistry R}.

(** One turn of the broadcast loop. *)
Lemma add_to_matching_raise schema_id m (keys : list key) e :
  fold_left
    (fun (acc : result table) '(id, version) =>
       match acc with
       | Raise e => Raise e
       | Ok t =>
           if bool_decide (schema_id = None) || bool_decide (Some id = schema_id)
           then match table_getitem t (KTuple id version) with
                | Ok s => Ok (table_set t (id, version) (set_add m s))
                | Raise e => Raise e
                end
           else Ok t
       end) keys (Raise e) = Raise e.
Proof. induction keys as [|[id v] keys IH]; simpl; done. Qed.

Lemma add_to_matching_cons schema_id m id v (keys : list key) (t : table) :
  add_to_matching schema_id m ((id, v) :: keys) t =
    if reached schema_id (id, v)
    then match table_get t (id, v) with
         | Some s => add_to_matching schema_id m keys (table_set t (id, v) (set_add m s))
         | None => Raise KeyError
         end
    else add_to_matching schema_id m keys t.
Proof.
  unfold add_to_matching, reached. cbn [fold_left fst].
  destruct (bool_decide (schema_id = None) || bool_decide (Some id = schema_id)); [|done].
  cbn [table_getitem]. destruct (table_get t (id, v)); [done|].
  apply add_to_matching_raise.
Qed.

(** What the broadcast loop leaves under each key. *)
Lemma add_to_matching_lookup schema_id m (keys : list key) (t : table) :
  (∀ k, k ∈ keys → is_Some (table_get t k)) →
  ∃ t', add_to_matching schema_id m keys t = Ok t' ∧
        t'.*1 = t.*1 ∧
        ∀ k, table_get t' k =
             if bool_decide (k ∈ keys) && reached schema_id k
             then set_add m <$> table_get t k
             else table_get t k.
Proof.
  revert t. induction keys as [|[id v] keys IH]; intros t Hall.
  { exists t. split; [done|]. split; [done|]. intros k.
    rewrite bool_decide_false; [done|]. apply not_elem_of_nil. }
  rewrite add_to_matching_cons.
  assert (Hmem : ∀ k, k ≠ (id, v) →
            bool_decide (k ∈ (id, v) :: keys) = bool_decide (k ∈ keys)).
  { intros k Hne. apply bool_decide_ext. rewrite elem_of_cons. tauto. }
  destruct (reached schema_id (id, v)) eqn:Hreach.
  - destruct (Hall (id, v)) as [s Hs]; [by left|]. rewrite Hs.
    destruct (IH (table_set t (id, v) (set_add m s))) as (t' & -> & Hkeys & Hget).
    { intros k Hk. apply table_get_set_is_Some, Hall. by right. }
    exists t'. split; [done|]. split.
    { rewrite Hkeys. apply table_set_keys. by rewrite Hs. }
    intros k. rewrite Hget.
    destruct (decide (k = (id, v))) as [->|Hne].
    + rewrite table_get_set_eq, Hs, Hreach.
      rewrite (bool_decide_true ((id, v) ∈ (id, v) :: keys)) by by left.
      rewrite andb_true_r. case_bool_decide; simpl; [|done].
      by rewrite set_add_idem.
    + rewrite table_get_set_ne by done. by rewrite Hmem.
  - destruct (IH t) as (t' & -> & Hkeys & Hget).
    { intros k Hk. apply Hall. by right. }
    exists t'. split; [done|]. split; [done|].
    intros k. rewrite Hget.
    destruct (decide (k = (id, v))) as [->|Hne].
    + by rewrite Hreach, !andb_false_r.
    + by rewrite Hmem.
Qed.

Lemma remove_from_all_keys (m : modifier) (t : table) :
  (remove_from_all m t).2.*1 = t.*1.
Proof.
  induction t as [|[k s] t IH]; simpl; [done|].
  destruct (set_remove m s) as [s'|e]; simpl.
  - destruct (remove_from_all m t) as [r t'']. simpl in *. by f_equal.
  - destruct (bool_decide (e = ValueError)); simpl; [|done].
    destruct (remove_from_all m t) as [r t'']. simpl in *. by f_equal.
Qed.

Lemma set_remove_cases (m : modifier) (s : list modifier) :
  set_remove m s = if set_mem m s then Ok (others m s) else Raise KeyError.
Proof. done. Qed.

Lemma remove_from_all_ok (m : modifier) (t : table) :
  forallb (fun ks => set_mem m ks.2) t = true →
  remove_from_all m t = (Ok tt, prod_map id (others m) <$> t).
Proof.
  induction t as [|[k s] t IH]; simpl; [done|].
  intros [Hs Ht]%andb_true_iff. rewrite set_remove_cases, Hs.
  by rewrite (IH Ht).
Qed.

Lemma remove_from_all_raises (m : modifier) (t : table) :
  forallb (fun ks => set_mem m ks.2) t = false →
  (remove_from_all m t).1 = Raise KeyError.
Proof.
  induction t as [|[k s] t IH]; simpl; [done|].
  rewrite set_remove_cases. destruct (set_mem m s) eqn:Hs; simpl; [|done].
  intros Ht. specialize (IH Ht).
  destruct (remove_from_all m t) as [r t'']. by simpl in *.
Qed.

End ModifierFacts.

Lemma table_get_fmap (f : list modifier → list modifier) (t : table) k :
  table_get (prod_map id f <$> t) k = f <$> table_get t k.
Proof.
  induction t as [|[k' s'] t IH]; simpl; [done|].
  destruct (decide (k' = k)); simpl; [done|]. apply IH.
Qed.

Lemma table_get_elem (t : table) k s :
  NoDup t.*1 → (k, s) ∈ t → table_get t k = Some s.
Proof.
  induction t as [|[k' s'] t IH].
  - by intros _ ?%elem_of_nil.
  - rewrite fmap_cons. intros [Hk' Hnd]%NoDup_cons [[= -> ->]|Hin]%elem_of_cons; simpl.
    + by rewrite decide_True.
    + rewrite decide_False; [by apply IH|].
      intros ->. apply Hk'. simpl. apply list_elem_of_fmap. by exists (k, s).
Qed.

Lemma set_modifiers_same {R} (self : EventLogger R) :
  set_modifiers (_modifiers self) self = self.
Proof. by destruct self. Qed.

(** ** Adding and removing modifiers *)

(** The scoped branch of [add_modifier], step by step. *)
Lemma scoped_add_lookup {R} `{SchemaRegistry R} (self : EventLogger R)
    (id : string) (v : Z) (m : modifier) (s : list modifier) :
  mod_signature m = expected_signature →
  id ≠ ""%string → v ≠ 0%Z →
  table_get (_modifiers self) (id, v) = Some s →
  ∃ self',
    add_modifier (Some id) (Some v) (Callable m) self = (Ok tt, self') ∧
    handlers self' = handlers self ∧
    schemas self' = schemas self ∧
    (_modifiers self').*1 = (_modifiers self).*1 ∧
    table_get (_modifiers self') (id, v) = Some (set_add m s) ∧
    set_mem m (set_add m s) = true ∧
    (∀ m', same_callable m m' = false → set_mem m' (set_add m s) = set_mem m' s) ∧
    ∀ k, k ≠ (id, v) → table_get (_modifiers self') k = table_get (_modifiers self) k.
Proof.
  intros Hsig Hid Hv Hs. unfold add_modifier.
  rewrite bool_decide_true by done. simpl.
  rewrite (bool_decide_false (id = ""%string)), (bool_decide_false (v = 0%Z)) by done.
  simpl. rewrite Hs. eexists. split; [done|]. simpl.
  split_and!; [done|done| | | | |].
  - apply table_set_keys. by rewrite Hs.
  - apply table_get_set_eq.
  - apply set_mem_add.
  - intros m' Hne. by apply set_mem_add_other.
  - intros k Hne. by apply table_get_set_ne.
Qed.

(** X1. [add_modifier] with both a schema id and a version that are truthy,
    for a key of the table: the callable joins the set of that key, and
    nothing else about the logger changes. *)
Theorem add_modifier_scoped {R} `{SchemaRegistry R} (self : EventLogger R)
    (id : string) (v : Z) (m : modifier) (s : list modifier) :
  mod_signature m = expected_signature →
  id ≠ ""%string → v ≠ 0%Z →
  table_get (_modifiers self) (id, v) = Some s →
  ∃ self',
    add_modifier (Some id) (Some v) (Callable m) self = (Ok tt, self') ∧
    handlers self' = handlers self ∧
    schemas self' = schemas self ∧
    (_modifiers self').*1 = (_modifiers self).*1 ∧
    table_get (_modifiers self') (id, v) = Some (set_add m s) ∧
    set_mem m (set_add m s) = true ∧
    (∀ m', same_callable m m' = false → set_mem m' (set_add m s) = set_mem m' s) ∧
    ∀ k, k ≠ (id, v) → table_get (_modifiers self') k = table_get (_modifiers self) k.
Proof. exact (scoped_add_lookup self id v m s). Qed.

Lemma add_modifier_scoped_witness :
  ∃ self',
    add_modifier (Some "org.test.click"%string) (Some 1%Z) (Callable stamp) two_schema_logger
      = (Ok tt, self') ∧
    table_get (_modifiers self') ("org.test.scroll"%string, 1%Z)
      = table_get (_modifiers two_schema_logger) ("org.test.scroll"%string, 1%Z).
Proof.
  destruct (add_modifier_scoped two_schema_logger "org.test.click" 1 stamp [stamp])
    as (self' & Hadd & _ & _ & _ & _ & _ & _ & Hother); [reflexivity|done|done|reflexivity|].
  exists self'. split; [exact Hadd|]. by apply Hother.
Defined.

(** The broadcast branch of [add_modifier], through the loop. *)
Lemma broadcast_add_lookup {R} `{SchemaRegistry R} (self : EventLogger R)
    (schema_id : option string) (version : option Z) (m : modifier) :
  mod_signature m = expected_signature →
  str_truthy schema_id && int_truthy version = false →
  ∃ self',
    add_modifier schema_id version (Callable m) self = (Ok tt, self') ∧
    handlers self' = handlers self ∧
    schemas self' = schemas self ∧
    (_modifiers self').*1 = (_modifiers self).*1 ∧
    ∀ k, table_get (_modifiers self') k =
         if reached schema_id k
         then set_add m <$> table_get (_modifiers self) k
         else table_get (_modifiers self) k.
Proof.
  intros Hsig Hfalsy. unfold add_modifier. rewrite bool_decide_true by done.
  destruct (add_to_matching_lookup schema_id m (_modifiers self).*1 (_modifiers self))
    as (t' & Hloop & Hkeys & Hget); [apply table_get_is_Some|].
  assert (Hres : ∀ k, table_get t' k =
            if reached schema_id k
            then set_add m <$> table_get (_modifiers self) k
            else table_get (_modifiers self) k).
  { intros k. rewrite Hget. case_bool_decide as Hin; [done|]. simpl.
    assert (table_get (_modifiers self) k = None) as -> by by apply table_get_None.
    by destruct (reached schema_id k). }
  exists (set_modifiers t' self).
  split; [|by split_and!].
  rewrite Hloop. destruct schema_id as [id|], version as [v|]; try done.
  by rewrite Hfalsy.
Qed.

(** X2. [add_modifier] without a truthy schema id and version, that is
    without one of them, or with [schema_id=""] or [version=0]: the call
    succeeds and the callable joins the set of every key of the table if
    [schema_id] is [None], and of every key whose id is [schema_id]
    otherwise, whatever the version; the other sets, the keys, the
    handlers and the registry stay as they were. *)
Theorem add_modifier_broadcast {R} `{SchemaRegistry R} (self : EventLogger R)
    (schema_id : option string) (version : option Z) (m : modifier) :
  mod_signature m = expected_signature →
  str_truthy schema_id && int_truthy version = false →
  ∃ self',
    add_modifier schema_id version (Callable m) self = (Ok tt, self') ∧
    handlers self' = handlers self ∧
    schemas self' = schemas self ∧
    (_modifiers self').*1 = (_modifiers self).*1 ∧
    ∀ k, table_get (_modifiers self') k =
         if reached schema_id k
         then set_add m <$> table_get (_modifiers self) k
         else table_get (_modifiers self) k.
Proof. exact (broadcast_add_lookup self schema_id version m). Qed.

Lemma add_modifier_broadcast_witness :
  ∃ self',
    add_modifier (Some "org.test.click"%string) (Some 0%Z) (Callable failing) two_schema_logger
      = (Ok tt, self') ∧
    table_get (_modifiers self') ("org.test.click"%string, 1%Z) = Some [stamp; failing] ∧
    table_get (_modifiers self') ("org.test.scroll"%string, 1%Z) = Some [].
Proof.
  destruct (add_modifier_broadcast two_schema_logger (Some "org.test.click"%string)
              (Some 0%Z) failing) as (self' & Hadd & _ & _ & _ & Hget);
    [reflexivity..|].
  exists self'. split; [exact Hadd|]. split; rewrite Hget; reflexivity.
Defined.

(** X3. Sets hold a callable once: a second [add_modifier] with the same
    arguments succeeds and leaves every set as the first call left it. *)
Theorem add_modifier_twice {R} `{SchemaRegistry R} (self self1 : EventLogger R)
    (schema_id : option string) (version : option Z) (m : modifier) :
  add_modifier schema_id version (Callable m) self = (Ok tt, self1) →
  ∃ self2,
    add_modifier schema_id version (Callable m) self1 = (Ok tt, self2) ∧
    (_modifiers self2).*1 = (_modifiers self1).*1 ∧
    ∀ k, table_get (_modifiers self2) k = table_get (_modifiers self1) k.
Proof.
  intros Hadd.
  assert (Hsig : mod_signature m = expected_signature).
  { unfold add_modifier in Hadd. by case_bool_decide. }
  destruct (str_truthy schema_id && int_truthy version) eqn:Hscope.
  - destruct schema_id as [id|]; [|done]. destruct version as [v|];
      [|by rewrite andb_false_r in Hscope].
    apply andb_true_iff in Hscope as [Hid Hv].
    apply negb_true_iff, bool_decide_eq_false in Hid, Hv.
    destruct (table_get (_modifiers self) (id, v)) as [s|] eqn:Hs.
    + destruct (scoped_add_lookup self id v m s Hsig Hid Hv Hs)
        as (self1' & Hadd1 & _ & _ & _ & Hget1 & _ & _ & Hother1).
      rewrite Hadd in Hadd1. injection Hadd1 as <-.
      destruct (scoped_add_lookup self1 id v m _ Hsig Hid Hv Hget1)
        as (self2 & Hadd2 & _ & _ & Hkeys2 & Hget2 & _ & _ & Hother2).
      exists self2. split; [done|]. split; [done|].
      intros k. destruct (decide (k = (id, v))) as [->|Hne].
      * by rewrite Hget2, Hget1, set_add_idem.
      * by apply Hother2.
    + unfold add_modifier in Hadd. rewrite bool_decide_true in Hadd by done.
      simpl in Hadd.
      rewrite (bool_decide_false (id = ""%string)), (bool_decide_false (v = 0%Z)) in Hadd
        by done.
      simpl in Hadd. by rewrite Hs in Hadd.
  - destruct (broadcast_add_lookup self schema_id version m Hsig Hscope)
      as (self1' & Hadd1 & _ & _ & _ & Hget1).
    rewrite Hadd in Hadd1. injection Hadd1 as <-.
    destruct (broadcast_add_lookup self1 schema_id version m Hsig Hscope)
      as (self2 & Hadd2 & _ & _ & Hkeys2 & Hget2).
    exists self2. split; [done|]. split; [done|].
    intros k. rewrite Hget2, Hget1.
    destruct (reached schema_id k); [|done].
    destruct (table_get (_modifiers self) k); simpl; [|done].
    by rewrite set_add_idem.
Qed.

Lemma add_modifier_twice_witness :
  ∃ self2,
    add_modifier None None (Callable stamp) stamping_logger = (Ok tt, self2) ∧
    table_get (_modifiers self2) ("org.test.click"%string, 1%Z) = Some [stamp].
Proof.
  destruct (add_modifier_twice click_logger stamping_logger None None stamp)
    as (self2 & Hadd & _ & Hget); [reflexivity|].
  destruct (add_modifier_twice stamping_logger self2 None None stamp Hadd)
    as (self3 & _ & _ & _).
  exists self2. split; [exact Hadd|]. rewrite Hget. reflexivity.
Defined.

(** What the two calls leave alone. *)
Lemma modifier_calls_frame {R} `{SchemaRegistry R} (self : EventLogger R)
    (schema_id : option string) (version : option Z) (given : pyobject) (m : modifier) :
  (_modifiers (add_modifier schema_id version given self).2).*1 = (_modifiers self).*1 ∧
  handlers (add_modifier schema_id version given self).2 = handlers self ∧
  schemas (add_modifier schema_id version given self).2 = schemas self ∧
  (_modifiers (remove_modifier schema_id m self).2).*1 = (_modifiers self).*1 ∧
  handlers (remove_modifier schema_id m self).2 = handlers self ∧
  schemas (remove_modifier schema_id m self).2 = schemas self.
Proof.
  assert (Hadd : (_modifiers (add_modifier schema_id version given self).2).*1
                 = (_modifiers self).*1 ∧
                 handlers (add_modifier schema_id version given self).2 = handlers self ∧
                 schemas (add_modifier schema_id version given self).2 = schemas self).
  { destruct given as [m0|s0|f|]; [| |done..].
    2: { unfold add_modifier. by repeat case_match. }
    destruct (decide (mod_signature m0 = expected_signature)) as [Hsig|Hsig].
    2: { unfold add_modifier. by rewrite bool_decide_false. }
    destruct (str_truthy schema_id && int_truthy version) eqn:Hscope.
    - destruct schema_id as [id|]; [|done]. destruct version as [v|];
        [|by rewrite andb_false_r in Hscope].
      pose proof Hscope as Hscope'.
      apply andb_true_iff in Hscope as [Hid Hv].
      apply negb_true_iff, bool_decide_eq_false in Hid, Hv.
      destruct (table_get (_modifiers self) (id, v)) as [s|] eqn:Hs.
      + destruct (scoped_add_lookup self id v m0 s Hsig Hid Hv Hs)
          as (self' & -> & ? & ? & ? & _). done.
      + unfold add_modifier. rewrite bool_decide_true by done.
        rewrite Hscope'. simpl. by rewrite Hs.
    - destruct (broadcast_add_lookup self schema_id version m0 Hsig Hscope)
        as (self' & -> & ? & ? & ? & _). done. }
  destruct Hadd as (? & ? & ?). split_and!; try done.
  all: unfold remove_modifier; destruct (str_truthy schema_id); simpl; try done.
  all: pose proof (remove_from_all_keys m (_modifiers self)) as Hkeys.
  all: destruct (remove_from_all m (_modifiers self)) as [r t]; done.
Qed.

(** X4. Neither [add_modifier] nor [remove_modifier] makes or drops an entry
    of the table, or touches the handlers or the registry, whether the
    call returns or raises. *)
Theorem modifier_calls_keep_keys {R} `{SchemaRegistry R} (self : EventLogger R)
    (schema_id : option string) (version : option Z) (given : pyobject) (m : modifier) :
  (_modifiers (add_modifier schema_id version given self).2).*1 = (_modifiers self).*1 ∧
  handlers (add_modifier schema_id version given self).2 = handlers self ∧
  schemas (add_modifier schema_id version given self).2 = schemas self ∧
  (_modifiers (remove_modifier schema_id m self).2).*1 = (_modifiers self).*1 ∧
  handlers (remove_modifier schema_id m self).2 = handlers self ∧
  schemas (remove_modifier schema_id m self).2 = schemas self.
Proof. exact (modifier_calls_frame self schema_id version given m). Qed.



(** X6. A callable that is in no set, added to every schema and then removed
    from every schema, leaves the logger exactly as it was. *)
Theorem add_then_remove_modifier {R} `{SchemaRegistry R} (self : EventLogger R)
    (m : modifier) :
  mod_signature m = expected_signature →
  NoDup (_modifiers self).*1 →
  (∀ k s, table_get (_modifiers self) k = Some s → set_mem m s = false) →
  ∃ self',
    add_modifier None None (Callable m) self = (Ok tt, self') ∧
    remove_modifier None m self' = (Ok tt, self).
Proof.
  intros Hsig Hnd Hfresh.
  destruct (broadcast_add_lookup self None None m Hsig eq_refl)
    as (self' & Hadd & Hh & Hs & Hkeys & Hget).
  exists self'. split; [done|].
  assert (Hall : forallb (fun ks => set_mem m ks.2) (_modifiers self') = true).
  { apply forallb_forall. intros [k s'] Hin%list_elem_of_In. simpl.
    rewrite <- Hkeys in Hnd.
    pose proof (table_get_elem _ _ _ Hnd Hin) as Hk. rewrite Hget in Hk. simpl in Hk.
    destruct (table_get (_modifiers self) k) as [s|]; simpl in Hk; [|done].
    injection Hk as <-. apply set_mem_add. }
  unfold remove_modifier. simpl. rewrite (remove_from_all_ok m _ Hall). f_equal.
  assert (Htable : prod_map id (others m) <$> _modifiers self' = _modifiers self).
  { apply table_ext.
    - rewrite <- list_fmap_compose, <- Hkeys. by apply list_fmap_ext.
    - rewrite <- list_fmap_compose.
      replace (fst ∘ prod_map id (others m)) with (@fst key (list modifier)) by done.
      by rewrite Hkeys.
    - intros k. rewrite table_get_fmap, Hget. simpl.
      destruct (table_get (_modifiers self) k) as [s|] eqn:Hk; simpl; [|done].
      f_equal. pose proof (set_remove_add m s (Hfresh _ _ Hk)) as Hrm.
      rewrite set_remove_cases, set_mem_add in Hrm. by injection Hrm. }
  rewrite Htable. clear Htable Hall Hget Hkeys Hadd.
  destruct self as [hs r t], self' as [hs' r' t']. simpl in *. by subst.
Qed.

Lemma add_then_remove_modifier_witness :
  ∃ self',
    add_modifier None None (Callable failing) two_schema_logger = (Ok tt, self') ∧
    remove_modifier None failing self' = (Ok tt, two_schema_logger).
Proof.
  apply (add_then_remove_modifier two_schema_logger failing); [reflexivity| |].
  - apply (bool_decide_unpack _). reflexivity.
  - intros k s Hk.
    destruct (decide (k = ("org.test.click"%string, 1%Z))) as [->|Hne1].
    { vm_compute in Hk. by simplify_eq. }
    destruct (decide (k = ("org.test.scroll"%string, 1%Z))) as [->|Hne2].
    { vm_compute in Hk. by simplify_eq. }
    exfalso. assert (Hnone : table_get (_modifiers two_schema_logger) k = None);
      [|by rewrite Hk in Hnone].
    apply table_get_None. vm_compute. intros Hin.
    repeat (apply elem_of_cons in Hin as [->|Hin]; [done|]). by apply elem_of_nil in Hin.
Defined.

(** ** The calls [emit] makes, path by path *)

Section EmitPaths.
Context {R : Type} `{SchemaRegistry R}.

Lemma apply_modifiers_calls ms schema_id version y w :
  ∃ calls j,
    w_trace (apply_modifiers ms schema_id version y w).2 = w_trace w ++ calls ∧
    chain_calls calls j ms ∧
    match (apply_modifiers ms schema_id version y w).1 with
    | Ok _ => j = length ms
    | Raise _ => 1 ≤ j
    end.
Proof.
  revert y w. induction ms as [|m ms IH]; intros y w; simpl.
  - exists [], 0. rewrite app_nil_r. by split_and!.
  - unfold bind, tell, on_heap; simpl.
    destruct (mod_call m schema_id version y (w_heap w)) as [[y'|code] h]; simpl.
    + destruct (IH y' (set_heap h (log_event (EvModifier (mod_id m) schema_id version y) w)))
        as (calls & j & Htr & (Hk & Hc & Hj) & Hres).
      exists (EvModifier (mod_id m) schema_id version y :: calls), (S j).
      rewrite Htr. simpl. rewrite <- app_assoc. split; [done|]. split.
      * split_and!; simpl; [f_equal; exact Hk|f_equal; exact Hc|lia].
      * destruct (apply_modifiers ms schema_id version y' _).1; lia.
    + exists [EvModifier (mod_id m) schema_id version y], 1.
      split; [done|]. split; [|done]. split_and!; simpl; [done|done|lia].
Qed.

Lemma emit_paths schema_id version data ts (self : EventLogger R) w :
  handlers_truthy (handlers self) = true →
  registry_contains (schema_id, version) (schemas self) = true →
  ∃ evs,
    w_trace (emit schema_id version data ts self w).2
      = w_trace w ++ [EvContains (schema_id, version); EvDeepcopy data] ++ evs ∧
    w_onceregistry (emit schema_id version data ts self w).2 = w_onceregistry w ∧
    ((∃ e, (emit schema_id version data ts self w).1 = Raise e ∧ evs = [] ∧
           (e = RecursionError ∨
            e = KeyError ∧ table_get (_modifiers self) (schema_id, version) = None))
     ∨ ∃ ms calls j,
         table_get (_modifiers self) (schema_id, version) = Some ms ∧
         chain_calls calls j ms ∧
         ((∃ code, (emit schema_id version data ts self w).1 = Raise (ModifierRaised code) ∧
                   evs = calls ∧ 1 ≤ j)
          ∨ j = length ms ∧ ∃ y',
              ((∃ e, (emit schema_id version data ts self w).1 = Raise e ∧
                     evs = calls ++ [EvValidate schema_id version y'] ∧
                     ((∃ code, e = CollaboratorError code)
                      ∨ (e = TypeError ∨ e = ValueError) ∧
                        ∀ items, w_heap (emit schema_id version data ts self w).2 !! y'
                                 ≠ Some (ODict items)))
               ∨ (∃ c, (emit schema_id version data ts self w).1 = Ok (Some c) ∧
                       evs = calls ++ [EvValidate schema_id version y'; EvLogInfo c])))).
Proof.
  intros Hh Hc. rewrite emit_known_key_steps by done. simpl.
  destruct (deepcopy (w_heap w) data) as [[y h]|]; simpl.
  2: { exists []. split_and!; [done|done|]. left. eauto. }
  destruct (table_get (_modifiers self) (schema_id, version)) as [ms|]; simpl.
  2: { exists []. split_and!; [done|done|]. left. eauto 6. }
  destruct (apply_modifiers_calls ms schema_id version y
              (evolve h [EvContains (schema_id, version); EvDeepcopy data] w))
    as (calls & j & Htr & Hchain & Hres).
  pose proof (apply_modifiers_world ms schema_id version y
    (evolve h [EvContains (schema_id, version); EvDeepcopy data] w)) as [Hreg _].
  destruct (apply_modifiers ms schema_id version y _) as [[y'|e] w2] eqn:Hm; simpl in *.
  2: { exists calls. rewrite Htr, <- app_assoc. split_and!; [done|done|].
       right. exists ms, calls, j. split; [done|]. split; [done|]. left.
       destruct (apply_modifiers_raises ms schema_id version y
                   (evolve h [EvContains (schema_id, version); EvDeepcopy data] w) e)
         as [code ->]; [by rewrite Hm|]. eauto. }
  subst j.
  destruct (registry_validate_event _ _ _ _ _) as [[[]|code] h4]; simpl.
  2: { exists (calls ++ [EvValidate schema_id version y']).
       rewrite Htr, <- !app_assoc. split_and!; [done|done|].
       right. exists ms, calls, (length ms). split; [done|]. split; [done|]. right.
       split; [done|]. exists y'. left. eauto 8. }
  destruct ((h4 ++ _) !! y') as [[items|elems]|] eqn:Hy'; simpl.
  - exists (calls ++ [EvValidate schema_id version y'; EvLogInfo (length h4)]).
    rewrite Htr, <- !app_assoc. split_and!; [done|done|].
    right. exists ms, calls, (length ms). split; [done|]. split; [done|]. right.
    split; [done|]. exists y'. right. eauto.
  - assert (Hlt : y' < length h4).
    { apply lookup_lt_Some in Hy' as Hlen. rewrite length_app in Hlen. simpl in Hlen.
      destruct (decide (y' = length h4)) as [->|Hne]; [|lia].
      by rewrite list_lookup_middle in Hy'. }
    rewrite lookup_app_l in Hy' by done.
    destruct (update_from_seq _ _ _ _) as [[[]|e] c] eqn:Hseq; simpl.
    + exists (calls ++ [EvValidate schema_id version y'; EvLogInfo (length h4)]).
      rewrite Htr, <- !app_assoc. split_and!; [done|done|].
      right. exists ms, calls, (length ms). split; [done|]. split; [done|]. right.
      split; [done|]. exists y'. right. eauto.
    + exists (calls ++ [EvValidate schema_id version y']).
      rewrite Htr, <- !app_assoc. split_and!; [done|done|].
      right. exists ms, calls, (length ms). split; [done|]. split; [done|]. right.
      split; [done|]. exists y'. left. exists e. split; [done|]. split; [done|]. right.
      split; [eapply (update_from_seq_raises _ _ _ _ e); by rewrite Hseq|].
      intros items. by rewrite lookup_app_l, Hy'.
  - exists (calls ++ [EvValidate schema_id version y']).
    rewrite Htr, <- !app_assoc. split_and!; [done|done|].
    right. exists ms, calls, (length ms). split; [done|]. split; [done|]. right.
    split; [done|]. exists y'. left. exists TypeError. split; [done|]. split; [done|]. right.
    split; [by left|]. intros items. by rewrite Hy'.
Qed.

End EmitPaths.

Lemma chain_calls_kinds (calls : list event) j ms (kd : call_kind) :
  chain_calls calls j ms → kd ≠ KModifier → kd ∉ kind_of <$> calls.
Proof.
  intros (Hk & _ & _) Hne. rewrite Hk. intros Hin.
  apply elem_of_replicate in Hin as [? _]. done.
Qed.

Lemma chain_calls_nil (calls : list event) j : chain_calls calls j [] → calls = [].
Proof.
  intros (Hk & _ & Hj). simpl in Hj. assert (j = 0) as -> by lia.
  simpl in Hk. by apply fmap_nil_inv in Hk.
Qed.

Lemma chain_calls_all (calls : list event) ms :
  chain_calls calls (length ms) ms →
  kind_of <$> calls = replicate (length ms) KModifier ∧
  omap called_modifier calls = mod_id <$> ms.
Proof. intros (Hk & Hc & _). by rewrite firstn_all in Hc. Qed.

Lemma filter_kind_absent (calls : list event) (kd : call_kind) :
  kd ∉ kind_of <$> calls → filter (fun e => kind_of e = kd) calls = [].
Proof.
  induction calls as [|e calls IH]; [done|].
  rewrite fmap_cons. intros [Hne Hrest]%not_elem_of_cons.
  rewrite filter_cons_False by done. by apply IH.
Qed.

Lemma registration_leaves_empty_set {R} `{SchemaRegistry R}
    (self : EventLogger R) (schema : schema_source) (k : key) (r : R) :
  registry_register schema (schemas self) = (Returns k, r) →
  schemas (register_event_schema schema self).2 = r ∧
  table_get (_modifiers (register_event_schema schema self).2) k = Some [].
Proof.
  intros Hreg. unfold register_event_schema. rewrite Hreg. simpl.
  split; [done|]. apply table_get_set_eq.
Qed.

(** ** What leaves [emit] *)

Lemma last_modifier_call (calls : list event) j ms :
  chain_calls calls j ms → 1 ≤ j → kind_of <$> last calls = Some KModifier.
Proof.
  intros (Hk & _ & _) Hj. rewrite <- fmap_last, Hk.
  destruct j as [|j]; [lia|]. clear. induction j as [|j IH]; [done|].
  by rewrite replicate_S, last_cons, IH.
Qed.

(** C10, as the code has it. On a logger where the key, if the registry
    holds it, has an entry in the modifier table (as it has after
    [register_event_schema]), and on a well-formed heap: without a handler
    [emit] returns [None] and does nothing; for a key the registry does
    not hold it returns [None]; the lookup of the modifiers finds the set
    of the key and [emit] raises no [KeyError]; what a modifier raises
    and what the validation raises leave [emit], which catches neither;
    and an exception that leaves [emit] does so before [self.log.info] is
    called and is one of three. It is the exception that a modifier
    raised, and the last call made was to that modifier; or it is the
    exception that the validation raised; or it is the [TypeError] or
    [ValueError] that [capsule.update] raises once the validation has
    returned, and the validated event data is then not a dict. What
    [self.log.info] raises itself is the handlers' and not followed
    here. *)
Theorem emit_raises_only {R} `{SchemaRegistry R} (self : EventLogger R)
    schema_id version data timestamp_override (w : world) :
  (registry_contains (schema_id, version) (schemas self) = true →
   is_Some (table_get (_modifiers self) (schema_id, version))) →
  heap_wf (w_heap w) →
  data < length (w_heap w) →
  (handlers_truthy (handlers self) = false →
     emit schema_id version data timestamp_override self w = (Ok None, w)) ∧
  (handlers_truthy (handlers self) = true →
   registry_contains (schema_id, version) (schemas self) = false →
     (emit schema_id version data timestamp_override self w).1 = Ok None) ∧
  (registry_contains (schema_id, version) (schemas self) = true →
     ∃ ms, table_getitem (_modifiers self) (KTuple schema_id version) = Ok ms) ∧
  (emit schema_id version data timestamp_override self w).1 ≠ Raise KeyError ∧
  (∀ y h ms e w2,
     handlers_truthy (handlers self) = true →
     registry_contains (schema_id, version) (schemas self) = true →
     deepcopy (w_heap w) data = Some (y, h) →
     table_get (_modifiers self) (schema_id, version) = Some ms →
     apply_modifiers ms schema_id version y
       (evolve h [EvContains (schema_id, version); EvDeepcopy data] w) = (Raise e, w2) →
     emit schema_id version data timestamp_override self w = (Raise e, w2)) ∧
  (∀ y h ms y' w2 code h4,
     handlers_truthy (handlers self) = true →
     registry_contains (schema_id, version) (schemas self) = true →
     deepcopy (w_heap w) data = Some (y, h) →
     table_get (_modifiers self) (schema_id, version) = Some ms →
     apply_modifiers ms schema_id version y
       (evolve h [EvContains (schema_id, version); EvDeepcopy data] w) = (Ok y', w2) →
     registry_validate_event schema_id version y' (schemas self) (w_heap w2)
       = (Throws code, h4) →
     (emit schema_id version data timestamp_override self w).1
       = Raise (CollaboratorError code)) ∧
  (∀ e, (emit schema_id version data timestamp_override self w).1 = Raise e →
     ∃ evs,
       w_trace (emit schema_id version data timestamp_override self w).2 = w_trace w ++ evs ∧
       (KLogInfo ∉ kind_of <$> evs) ∧
       ((∃ code, e = ModifierRaised code ∧ kind_of <$> last evs = Some KModifier)
        ∨ (∃ code y', e = CollaboratorError code ∧
                      last evs = Some (EvValidate schema_id version y'))
        ∨ (∃ y', (e = TypeError ∨ e = ValueError) ∧
                 last evs = Some (EvValidate schema_id version y') ∧
                 ∀ items, w_heap (emit schema_id version data timestamp_override self w).2 !! y'
                          ≠ Some (ODict items)))).
Proof.
  intros Hentry Hwf Hdata.
  assert (Hsite : ∀ e, (emit schema_id version data timestamp_override self w).1 = Raise e →
    e ≠ KeyError ∧
    ∃ evs,
      w_trace (emit schema_id version data timestamp_override self w).2 = w_trace w ++ evs ∧
      (KLogInfo ∉ kind_of <$> evs) ∧
      ((∃ code, e = ModifierRaised code ∧ kind_of <$> last evs = Some KModifier)
       ∨ (∃ code y', e = CollaboratorError code ∧
                     last evs = Some (EvValidate schema_id version y'))
       ∨ (∃ y', (e = TypeError ∨ e = ValueError) ∧
                last evs = Some (EvValidate schema_id version y') ∧
                ∀ items, w_heap (emit schema_id version data timestamp_override self w).2 !! y'
                         ≠ Some (ODict items)))).
  { intros e He.
    pose proof (emit_exception_origin _ _ _ _ _ _ _ He) as (Hh & Hc & Horigin).
    destruct (emit_paths schema_id version data timestamp_override self w Hh Hc)
      as (evs & Htr & _ & Hpath).
    destruct Hpath as [(e0 & He0 & -> & Hearly)|(ms & calls & j & Hms & Hchain & Hpath)].
    { exfalso. rewrite He in He0. injection He0 as <-.
      destruct Hearly as [->|[-> Hnone]].
      - destruct Horigin as [[_ Hcopy]|[[? _]|[[? ?]|[[? ?]|[?|?]]]]]; try discriminate.
        destruct (deepcopy_total _ _ Hwf Hdata) as (y & h & Hsome). congruence.
      - destruct (Hentry Hc) as [ms Hms]. congruence. }
    assert (Hseen : ∀ tail, KLogInfo ∉ kind_of <$> tail →
              KLogInfo ∉ kind_of <$> ([EvContains (schema_id, version); EvDeepcopy data]
                                        ++ calls ++ tail)).
    { intros tail Htail. rewrite !fmap_app. intros [Hin|[Hin|Hin]%elem_of_app]%elem_of_app.
      - repeat (apply elem_of_cons in Hin as [Hin|Hin]; [done|]). by apply elem_of_nil in Hin.
      - by apply (chain_calls_kinds _ _ _ KLogInfo Hchain).
      - done. }
    destruct Hpath as [(code & He1 & -> & Hj)|(-> & y' & [(e1 & He1 & -> & Hwhy)|(c & He1 & _)])].
    - rewrite He in He1. injection He1 as ->. split; [done|].
      eexists. split; [exact Htr|]. split.
      { rewrite <- (app_nil_r calls). apply Hseen. apply not_elem_of_nil. }
      left. exists code. split; [done|].
      pose proof (last_modifier_call _ _ _ Hchain Hj) as Hlast.
      rewrite last_app. destruct (last calls); [done|discriminate].
    - rewrite He in He1. injection He1 as <-.
      assert (Hlast : last ([EvContains (schema_id, version); EvDeepcopy data]
                              ++ calls ++ [EvValidate schema_id version y'])
                      = Some (EvValidate schema_id version y')).
      { by rewrite app_assoc, last_snoc. }
      assert (Hnolog : KLogInfo ∉ kind_of <$> ([EvContains (schema_id, version); EvDeepcopy data]
                                                 ++ calls ++ [EvValidate schema_id version y'])).
      { apply Hseen. intros Hin. apply list_elem_of_singleton in Hin. done. }
      destruct Hwhy as [[code ->]|[Hclass Hnodict]].
      + split; [done|]. eexists. split; [exact Htr|]. split; [done|]. right; left. eauto.
      + split; [by destruct Hclass as [-> | ->]|].
        eexists. split; [exact Htr|]. split; [done|]. right; right. eauto.
    - congruence. }
  split_and!.
  - intros Hh. unfold emit. by rewrite Hh.
  - intros Hh Hc. rewrite emit_unknown_key_steps by done. simpl. by case_bool_decide.
  - intros Hc. destruct (Hentry Hc) as [ms Hms]. exists ms. simpl. by rewrite Hms.
  - intros He. by destruct (Hsite _ He).
  - intros y h ms e w2 Hh Hc Hcopy Hms Hmods.
    rewrite emit_known_key_steps by done. simpl. by rewrite Hcopy, Hms, Hmods.
  - intros y h ms y' w2 code h4 Hh Hc Hcopy Hms Hmods Hval.
    rewrite emit_known_key_steps by done. simpl. by rewrite Hcopy, Hms, Hmods, Hval.
  - intros e He. by destruct (Hsite _ He).
Qed.

Lemma emit_raises_only_witness :
  let w := sample_world click_heap in
  heap_wf (w_heap w) ∧
  (emit "org.test.click" 1 0 None failing_logger w).1 = Raise (ModifierRaised 7) ∧
  ∃ evs,
    w_trace (emit "org.test.click" 1 0 None failing_logger w).2 = w_trace w ++ evs ∧
    (KLogInfo ∉ kind_of <$> evs) ∧
    kind_of <$> last evs = Some KModifier.
Proof.
  intros w.
  assert (Hwf : heap_wf (w_heap w)).
  { intros l o Hl. destruct l as [|l]; simpl in Hl; [|done]. simplify_eq.
    vm_compute. repeat constructor. }
  assert (Hraise : (emit "org.test.click" 1 0 None failing_logger w).1
                   = Raise (ModifierRaised 7)) by reflexivity.
  split; [exact Hwf|]. split; [exact Hraise|].
  destruct (emit_raises_only failing_logger "org.test.click" 1 0 None w)
    as (_ & _ & _ & _ & _ & _ & Honly); [by eexists|exact Hwf|simpl; lia|].
  destruct (Honly _ Hraise) as (evs & Htr & Hnolog & Hsite).
  exists evs. split; [exact Htr|]. split; [exact Hnolog|].
  destruct Hsite as [(code & _ & Hlast)|[(code & y' & Hcode & _)|(y' & [Hcls|Hcls] & _)]];
    [exact Hlast|discriminate..].
Defined.

(** C10, as the specification states it, fails. A logger is made with a registry
    that already holds the schema, [EventLogger(schemas=registry,
    handlers=[h])]: the key passes the membership test, has no entry in
    the modifier table, and [emit] raises [KeyError] at the lookup of the
    modifiers. And a modifier that raises makes [emit] raise: nothing in
    [emit] catches it. *)
Lemma emit_raises_outside_validation :
  handlers_truthy (handlers handed_over_logger) = true ∧
  registry_contains ("org.test.click"%string, 1%Z) (schemas handed_over_logger) = true ∧
  (emit "org.test.click" 1 0 None handed_over_logger (sample_world click_heap)).1
    = Raise KeyError ∧
  (emit "org.test.click" 1 0 None failing_logger (sample_world click_heap)).1
    = Raise (ModifierRaised 7).
Proof. split_and!; reflexivity. Qed.

(** ** The order of the calls of [emit] *)

(** X7. When [emit] returns an envelope, it has asked the registry for the
    key, copied the payload, called each modifier of the key's set once,
    in the order of the set, then the validator, then [self.log.info]
    with the envelope it returns; and nothing else. *)
Theorem emit_success_calls {R} `{SchemaRegistry R} (self : EventLogger R)
    schema_id version data timestamp_override (w : world) (c : loc) :
  (emit schema_id version data timestamp_override self w).1 = Ok (Some c) →
  ∃ ms calls y',
    table_get (_modifiers self) (schema_id, version) = Some ms ∧
    w_trace (emit schema_id version data timestamp_override self w).2
      = w_trace w ++ [EvContains (schema_id, version); EvDeepcopy data]
          ++ calls ++ [EvValidate schema_id version y'; EvLogInfo c] ∧
    kind_of <$> calls = replicate (length ms) KModifier ∧
    omap called_modifier calls = mod_id <$> ms.
Proof.
  intros Hret.
  destruct (handlers_truthy (handlers self)) eqn:Hh.
  2: { unfold emit in Hret. by rewrite Hh in Hret. }
  destruct (registry_contains (schema_id, version) (schemas self)) eqn:Hc.
  2: { rewrite emit_unknown_key_steps in Hret by done. simpl in Hret.
       by case_bool_decide. }
  destruct (emit_paths schema_id version data timestamp_override self w Hh Hc)
    as (evs & Htr & _ & Hpath).
  destruct Hpath as [(e & He & _)|(ms & calls & j & Hms & Hchain & Hpath)];
    [congruence|].
  destruct Hpath as [(code & He & _)|(-> & y' & [(e & He & _)|(c' & Hc' & ->)])];
    [congruence..|].
  rewrite Hret in Hc'. injection Hc' as <-.
  exists ms, calls, y'. split; [done|]. split; [done|].
  by apply chain_calls_all.
Qed.

Lemma emit_success_calls_witness :
  ∃ calls y',
    w_trace (emit "org.test.click" 1 0 None stamping_logger (sample_world click_heap)).2
      = [EvContains ("org.test.click"%string, 1%Z); EvDeepcopy 0]
          ++ calls ++ [EvValidate "org.test.click" 1 y'; EvLogInfo 2] ∧
    omap called_modifier calls = [1].
Proof.
  destruct (emit_success_calls stamping_logger "org.test.click" 1 0 None
              (sample_world click_heap) 2)
    as (ms & calls & y' & Hms & Htr & _ & Hcalled); [reflexivity|].
  assert (ms = [stamp]) as ->.
  { assert (Hs : table_get (_modifiers stamping_logger) ("org.test.click"%string, 1%Z)
                 = Some [stamp]) by reflexivity.
    rewrite Hs in Hms. by injection Hms. }
  exists calls, y'. split; [exact Htr|exact Hcalled].
Defined.

(** X8. [self.log.info] is called with the envelope when [emit] returns one,
    and is not called otherwise: an event that is dropped, or on which a
    modifier or the validator raises, reaches no handler. *)
Theorem emit_logs_what_it_returns {R} `{SchemaRegistry R} (self : EventLogger R)
    schema_id version data timestamp_override (w : world) :
  ∃ evs,
    w_trace (emit schema_id version data timestamp_override self w).2 = w_trace w ++ evs ∧
    filter (fun e => kind_of e = KLogInfo) evs =
      match (emit schema_id version data timestamp_override self w).1 with
      | Ok (Some c) => [EvLogInfo c]
      | _ => []
      end.
Proof.
  destruct (handlers_truthy (handlers self)) eqn:Hh.
  2: { unfold emit. rewrite Hh. simpl. exists []. by rewrite app_nil_r. }
  destruct (registry_contains (schema_id, version) (schemas self)) eqn:Hc.
  2: { rewrite emit_unknown_key_steps by done. simpl.
       case_bool_decide; simpl; eexists; (split; [done|]); done. }
  destruct (emit_paths schema_id version data timestamp_override self w Hh Hc)
    as (evs & Htr & _ & Hpath).
  eexists. split; [exact Htr|].
  assert (Hcalls : ∀ calls j ms, chain_calls calls j ms →
            filter (fun e => kind_of e = KLogInfo) calls = []).
  { intros calls j ms Hchain. apply filter_kind_absent.
    by apply (chain_calls_kinds _ _ _ KLogInfo Hchain). }
  rewrite filter_app, (filter_kind_absent [_; _]); simpl.
  2: { intros Hin. repeat (apply elem_of_cons in Hin as [Hin|Hin]; [done|]).
       by apply elem_of_nil in Hin. }
  destruct Hpath as [(e & -> & -> & _)|(ms & calls & j & Hms & Hchain & Hpath)]; [done|].
  destruct Hpath as [(code & -> & -> & _)|(-> & y' & [(e & -> & -> & _)|(c & -> & ->)])].
  - eauto.
  - rewrite filter_app, (Hcalls _ _ _ Hchain). done.
  - rewrite filter_app, (Hcalls _ _ _ Hchain). done.
Qed.

(** X9. When a modifier raises, [emit] raises what it raised: the modifiers
    after it in the set are not called, the validator is not called, and
    nothing is logged. *)
Theorem emit_stops_at_raising_modifier {R} `{SchemaRegistry R} (self : EventLogger R)
    schema_id version data timestamp_override (w : world) (code : nat) :
  (emit schema_id version data timestamp_override self w).1
    = Raise (ModifierRaised code) →
  ∃ ms calls j,
    table_get (_modifiers self) (schema_id, version) = Some ms ∧
    1 ≤ j ∧ j ≤ length ms ∧
    w_trace (emit schema_id version data timestamp_override self w).2
      = w_trace w ++ [EvContains (schema_id, version); EvDeepcopy data] ++ calls ∧
    kind_of <$> calls = replicate j KModifier ∧
    omap called_modifier calls = mod_id <$> take j ms.
Proof.
  intros Hraise.
  apply emit_exception_origin in Hraise as Horigin. destruct Horigin as (Hh & Hc & _).
  destruct (emit_paths schema_id version data timestamp_override self w Hh Hc)
    as (evs & Htr & _ & Hpath).
  destruct Hpath as [(e & He & _ & [->| [-> _]])|(ms & calls & j & Hms & Hchain & Hpath)];
    [congruence..|].
  destruct Hchain as (Hk & Hcalled & Hj).
  destruct Hpath as [(code' & He & -> & Hj1)|(-> & y' & Hpath)].
  { exists ms, calls, j. by split_and!. }
  exfalso.
  destruct Hpath as [(e & He & _ & [[c ->]|[[->| ->] _]])|(c & He & _)]; congruence.
Qed.

Lemma emit_stops_at_raising_modifier_witness :
  ∃ calls,
    w_trace (emit "org.test.click" 1 0 None failing_logger (sample_world click_heap)).2
      = [EvContains ("org.test.click"%string, 1%Z); EvDeepcopy 0] ++ calls ∧
    kind_of <$> calls = [KModifier].
Proof.
  destruct (emit_stops_at_raising_modifier failing_logger "org.test.click" 1 0 None
              (sample_world click_heap) 7)
    as (ms & calls & j & Hms & Hj1 & Hj & Htr & Hk & _); [reflexivity|].
  assert (ms = [failing]) as ->.
  { assert (Hs : table_get (_modifiers failing_logger) ("org.test.click"%string, 1%Z)
                 = Some [failing]) by reflexivity.
    rewrite Hs in Hms. by injection Hms. }
  simpl in Hj. assert (j = 1) as -> by lia.
  exists calls. split; [exact Htr|exact Hk].
Defined.

(** X10. [emit] shows a warning for an unknown key only: with no handler, or
    for a key the registry holds, it shows none and leaves the
    once-registry of [warnings] as it was. *)
Theorem emit_known_key_never_warns {R} `{SchemaRegistry R} (self : EventLogger R)
    schema_id version data timestamp_override (w : world) :
  handlers_truthy (handlers self) = false
  ∨ registry_contains (schema_id, version) (schemas self) = true →
  w_onceregistry (emit schema_id version data timestamp_override self w).2
    = w_onceregistry w ∧
  ∃ evs,
    w_trace (emit schema_id version data timestamp_override self w).2 = w_trace w ++ evs ∧
    KWarning ∉ kind_of <$> evs.
Proof.
  intros Hcase.
  destruct (handlers_truthy (handlers self)) eqn:Hh.
  2: { unfold emit. rewrite Hh. simpl. split; [done|]. exists [].
       rewrite app_nil_r. split; [done|]. apply not_elem_of_nil. }
  destruct Hcase as [|Hc]; [done|].
  destruct (emit_paths schema_id version data timestamp_override self w Hh Hc)
    as (evs & Htr & Hreg & Hpath).
  split; [done|]. eexists. split; [exact Htr|].
  rewrite fmap_app. intros [Hin|Hin]%elem_of_app.
  { repeat (apply elem_of_cons in Hin as [Hin|Hin]; [done|]). by apply elem_of_nil in Hin. }
  destruct Hpath as [(e & _ & -> & _)|(ms & calls & j & Hms & Hchain & Hpath)].
  { by apply elem_of_nil in Hin. }
  pose proof (chain_calls_kinds _ _ _ KWarning Hchain) as Hnone.
  destruct Hpath as [(code & _ & -> & _)|(-> & y' & [(e & _ & -> & _)|(c & _ & ->)])].
  - by apply Hnone.
  - rewrite fmap_app in Hin. apply elem_of_app in Hin as [Hin|Hin]; [by apply Hnone|].
    repeat (apply elem_of_cons in Hin as [Hin|Hin]; [done|]). by apply elem_of_nil in Hin.
  - rewrite fmap_app in Hin. apply elem_of_app in Hin as [Hin|Hin]; [by apply Hnone|].
    repeat (apply elem_of_cons in Hin as [Hin|Hin]; [done|]). by apply elem_of_nil in Hin.
Qed.

Lemma emit_known_key_never_warns_witness :
  w_onceregistry (run_call click_call (run_calls [stray_call] (sample_world click_heap))).2
  = w_onceregistry (run_calls [stray_call] (sample_world click_heap)).
Proof.
  apply (emit_known_key_never_warns click_logger "org.test.click" 1 0 None
           (run_calls [stray_call] (sample_world click_heap))).
  right. reflexivity.
Defined.

(** X11. A schema starts without modifiers. Once [register_event_schema] has
    returned for a key, [emit] for that key calls no modifier, whatever
    was added to the logger before: a modifier broadcast earlier does
    not reach a schema registered later. *)
Theorem registered_schema_starts_bare {R} `{SchemaRegistry R} (self : EventLogger R)
    (schema : schema_source) (schema_id : string) (version : Z) (r : R) :
  registry_register schema (schemas self) = (Returns (schema_id, version), r) →
  ∀ data timestamp_override (w : world),
  ∃ evs,
    w_trace (emit schema_id version data timestamp_override
               (register_event_schema schema self).2 w).2 = w_trace w ++ evs ∧
    KModifier ∉ kind_of <$> evs.
Proof.
  intros Hreg data ts w.
  destruct (registration_leaves_empty_set self schema _ r Hreg) as (Hsch & Hget).
  set (self' := (register_event_schema schema self).2) in *.
  destruct (handlers_truthy (handlers self')) eqn:Hh.
  2: { unfold emit. rewrite Hh. simpl. exists [].
       rewrite app_nil_r. split; [done|]. apply not_elem_of_nil. }
  destruct (registry_contains (schema_id, version) (schemas self')) eqn:Hc.
  2: { rewrite emit_unknown_key_steps by done. simpl.
       case_bool_decide; simpl; eexists; (split; [done|]);
         intros Hin; repeat (apply elem_of_cons in Hin as [Hin|Hin]; [done|]);
         by apply elem_of_nil in Hin. }
  destruct (emit_paths schema_id version data ts self' w Hh Hc)
    as (evs & Htr & _ & Hpath).
  eexists. split; [exact Htr|].
  rewrite fmap_app. intros [Hin|Hin]%elem_of_app.
  { repeat (apply elem_of_cons in Hin as [Hin|Hin]; [done|]). by apply elem_of_nil in Hin. }
  destruct Hpath as [(e & _ & -> & _)|(ms & calls & j & Hms & Hchain & Hpath)].
  { by apply elem_of_nil in Hin. }
  rewrite Hget in Hms. injection Hms as <-.
  apply chain_calls_nil in Hchain as ->.
  destruct Hpath as [(code & _ & -> & _)|(_ & y' & [(e & _ & -> & _)|(c & _ & ->)])];
    simpl in Hin.
  - by apply elem_of_nil in Hin.
  - repeat (apply elem_of_cons in Hin as [Hin|Hin]; [done|]). by apply elem_of_nil in Hin.
  - repeat (apply elem_of_cons in Hin as [Hin|Hin]; [done|]). by apply elem_of_nil in Hin.
Qed.

Lemma registered_schema_starts_bare_witness :
  table_get (_modifiers lenient_logger) ("org.test.click"%string, 1%Z) = Some [stamp] ∧
  ∃ evs,
    w_trace (emit "org.test.click" 1 0 None (register_event_schema click lenient_logger).2
               (sample_world click_heap)).2 = [] ++ evs ∧
    KModifier ∉ kind_of <$> evs.
Proof.
  split; [reflexivity|].
  apply (@registered_schema_starts_bare registry simple_registry lenient_logger click
           "org.test.click" 1 (schemas lenient_logger)).
  reflexivity.
Defined.

(** ** Handlers *)

Lemma list_remove_fresh (x : handler) (l : list handler) :
  x ∉ l → list_remove x (l ++ [x]) = Ok l.
Proof.
  induction l as [|y l IH]; simpl; intros Hx.
  - by rewrite decide_True.
  - apply not_elem_of_cons in Hx as [Hne Hx].
    rewrite decide_False by done. by rewrite IH.
Qed.

(** Taking a member out of a list without repetition. *)
Lemma list_remove_member (x : handler) (l : list handler) :
  x ∈ l → NoDup l →
  ∃ l', list_remove x l = Ok l' ∧ NoDup l' ∧ ∀ y, y ∈ l' ↔ y ∈ l ∧ y ≠ x.
Proof.
  induction l as [|y l IH]; intros Hin Hnd.
  - by apply elem_of_nil in Hin.
  - apply NoDup_cons in Hnd as [Hy Hnd]. simpl.
    destruct (decide (y = x)) as [->|Hne].
    + exists l. split; [done|]. split; [done|]. intros z. rewrite elem_of_cons.
      split; [intros Hz; split; [by right|by intros ->]|by intros [[->|Hz] Hne]].
    + apply elem_of_cons in Hin as [->|Hin]; [done|].
      destruct (IH Hin Hnd) as (l' & -> & Hnd' & Hl').
      exists (y :: l'). split; [done|]. split.
      * apply NoDup_cons. split; [|done]. rewrite Hl'. tauto.
      * intros z. rewrite !elem_of_cons, Hl'. split.
        -- intros [->|[Hz Hzx]]; [by split; [left|]|by split; [right|]].
        -- intros [[->|Hz] Hzx]; [by left|by right].
Qed.

Lemma set_handlers_same {R} (self : EventLogger R) hs :
  handlers self = hs → set_handlers hs self = self.
Proof. intros <-. by destruct self. Qed.

Lemma set_log_handlers_same (lg : pylogger) :
  set_log_handlers (log_handlers lg) lg = lg.
Proof. by destruct lg. Qed.

(** What [register_handler] does when [self.handlers] is a list. *)
Lemma register_handler_steps {R} (self : EventLogger R) (ls : logging_side) h hs :
  handlers self = Some hs →
  register_handler h self ls =
    (Ok tt,
     (set_handlers (Some (if bool_decide (h ∈ hs) then hs else hs ++ [h])) self,
      set_self_log (addHandler h (self_log ls)) (setFormatter h JsonFormatter_skip_message ls))).
Proof.
  intros Hhs. unfold register_handler. rewrite Hhs. simpl.
  destruct (decide (h ∈ hs)) as [Hin|Hin].
  - rewrite bool_decide_false, bool_decide_true by tauto. by rewrite set_handlers_same.
  - by rewrite bool_decide_true, bool_decide_false.
Qed.

Lemma addHandler_elem (h h' : handler) (lg : pylogger) :
  h' ∈ log_handlers (addHandler h lg) ↔ h' ∈ log_handlers lg ∨ h' = h.
Proof.
  unfold addHandler. case_bool_decide as Hin; simpl.
  - split; [tauto|]. by intros [?| ->].
  - rewrite elem_of_app, list_elem_of_singleton. tauto.
Qed.

Lemma addHandler_NoDup (h : handler) (lg : pylogger) :
  NoDup (log_handlers lg) → NoDup (log_handlers (addHandler h lg)).
Proof.
  unfold addHandler. case_bool_decide as Hin; simpl; [done|].
  intros Hnd. apply NoDup_app. split; [done|]. split; [|apply NoDup_singleton].
  intros x Hx ->%list_elem_of_singleton. done.
Qed.

Lemma addHandler_fields (h : handler) (lg : pylogger) :
  log_propagate (addHandler h lg) = log_propagate lg ∧
  log_level (addHandler h lg) = log_level lg.
Proof. unfold addHandler. by case_bool_decide. Qed.

(** X12. Registering a handler twice is registering it once: the second call
    returns and leaves the logger, [self.log] and the handler as the
    first call left them, with the handler in both lists. *)
Theorem register_handler_twice {R} (self : EventLogger R) (ls : logging_side)
    (h : handler) (hs : list handler) :
  handlers self = Some hs →
  ∃ self' ls' hs',
    register_handler h self ls = (Ok tt, (self', ls')) ∧
    register_handler h self' ls' = (Ok tt, (self', ls')) ∧
    handlers self' = Some hs' ∧ h ∈ hs' ∧
    h ∈ log_handlers (self_log ls') ∧
    handler_formatter ls' !! h = Some JsonFormatter_skip_message.
Proof.
  intros Hhs. rewrite (register_handler_steps self ls h hs Hhs).
  set (hs' := if bool_decide (h ∈ hs) then hs else hs ++ [h]).
  assert (Hin : h ∈ hs').
  { unfold hs'. case_bool_decide; [done|].
    apply elem_of_app. right. by apply list_elem_of_singleton. }
  eexists _, _, hs'. split; [done|].
  rewrite (register_handler_steps _ _ h hs') by done.
  split_and!; [|done|done| |].
  - f_equal. f_equal.
    + rewrite bool_decide_true by done. by destruct self.
    + unfold set_self_log, setFormatter. simpl. f_equal.
      * unfold addHandler at 1. rewrite bool_decide_true; [done|].
        apply addHandler_elem. by right.
      * apply insert_insert_eq.
  - simpl. apply addHandler_elem. by right.
  - simpl. apply lookup_insert_eq.
Qed.

Lemma register_handler_twice_witness :
  ∃ self' ls',
    register_handler 1 click_logger sample_side = (Ok tt, (self', ls')) ∧
    register_handler 1 self' ls' = (Ok tt, (self', ls')).
Proof.
  destruct (register_handler_twice click_logger sample_side 1 [0])
    as (self' & ls' & hs' & Hfirst & Hsecond & _); [reflexivity|].
  exists self', ls'. split; [exact Hfirst|exact Hsecond].
Defined.

(** X13. On a logger whose [handlers] is [None], [register_handler] raises
    [TypeError], but only after it has replaced the formatter of the
    handler and attached the handler to [self.log]; [self.handlers] is
    still [None], so [emit] goes on dropping every event. *)
Theorem register_handler_without_list {R} `{SchemaRegistry R} (self : EventLogger R)
    (ls : logging_side) (h : handler) :
  handlers self = None →
  ∃ ls',
    register_handler h self ls = (Raise TypeError, (self, ls')) ∧
    h ∈ log_handlers (self_log ls') ∧
    handler_formatter ls' !! h = Some JsonFormatter_skip_message ∧
    ∀ schema_id version data timestamp_override w,
      emit schema_id version data timestamp_override self w = (Ok None, w).
Proof.
  intros Hnone. unfold register_handler. rewrite Hnone.
  eexists. split; [done|]. simpl. split_and!.
  - apply addHandler_elem. by right.
  - apply lookup_insert_eq.
  - intros. unfold emit. by rewrite Hnone.
Qed.

Lemma register_handler_without_list_witness :
  (register_handler 0 (new_logger strict_registry None) bare_side).1 = Raise TypeError ∧
  emit "org.test.click" 1 0 None (new_logger strict_registry None) (sample_world click_heap)
    = (Ok None, sample_world click_heap).
Proof.
  destruct (@register_handler_without_list registry simple_registry
              (new_logger strict_registry None) bare_side 0)
    as (ls' & Hraise & _ & _ & Hdrop); [reflexivity|].
  split; [by rewrite Hraise|apply Hdrop].
Defined.

(** X14. A handler that the logger does not know, registered and then
    removed: both lists are as they were before, and the handler keeps
    the JSON formatter that [register_handler] gave it. *)
Theorem remove_handler_undoes_register {R} (self : EventLogger R) (ls : logging_side)
    (h : handler) (hs : list handler) :
  handlers self = Some hs →
  h ∉ hs →
  h ∉ log_handlers (self_log ls) →
  ∃ self' ls',
    register_handler h self ls = (Ok tt, (self', ls')) ∧
    remove_handler h self' ls'
      = (Ok tt, (self, setFormatter h JsonFormatter_skip_message ls)).
Proof.
  intros Hhs Hnew Hlog. rewrite (register_handler_steps self ls h hs Hhs).
  eexists _, _. split; [done|].
  rewrite bool_decide_false by done.
  unfold remove_handler, removeHandler, addHandler. simpl.
  rewrite (bool_decide_false (h ∈ log_handlers (self_log ls))) by done. simpl.
  rewrite bool_decide_true by (apply elem_of_app; right; by apply list_elem_of_singleton).
  rewrite list_remove_fresh by done. simpl.
  rewrite bool_decide_true by (apply elem_of_app; right; by apply list_elem_of_singleton).
  rewrite list_remove_fresh by done.
  f_equal. f_equal.
  - destruct self. simpl in *. by subst.
  - unfold set_self_log, setFormatter, set_log_handlers. simpl.
    by destruct ls as [[] ?].
Qed.

Lemma remove_handler_undoes_register_witness :
  ∃ self' ls',
    register_handler 1 click_logger sample_side = (Ok tt, (self', ls')) ∧
    (remove_handler 1 self' ls').2.1 = click_logger.
Proof.
  destruct (remove_handler_undoes_register click_logger sample_side 1 [0])
    as (self' & ls' & Hreg & Hrem).
  - reflexivity.
  - apply (bool_decide_unpack _). reflexivity.
  - apply (bool_decide_unpack _). reflexivity.
  - exists self', ls'. split; [exact Hreg|]. by rewrite Hrem.
Defined.

Lemma in_step_register {R} (self : EventLogger R) (ls : logging_side) (h : handler) :
  in_step self ls →
  (register_handler h self ls).1 = Ok tt ∧
  in_step (register_handler h self ls).2.1 (register_handler h self ls).2.2.
Proof.
  intros (hs & Hhs & Hnd & Hndl & Hsame & Hfmt).
  rewrite (register_handler_steps self ls h hs Hhs). split; [done|]. simpl.
  exists (if bool_decide (h ∈ hs) then hs else hs ++ [h]).
  assert (Hmem : ∀ h', h' ∈ (if bool_decide (h ∈ hs) then hs else hs ++ [h])
                       ↔ h' ∈ hs ∨ h' = h).
  { intros h'. case_bool_decide.
    - split; [tauto|]. by intros [?| ->].
    - by rewrite elem_of_app, list_elem_of_singleton. }
  split_and!; simpl; [done| | | |].
  - case_bool_decide as Hin; [done|]. apply NoDup_app.
    split; [done|]. split; [|apply NoDup_singleton].
    intros x Hx ->%list_elem_of_singleton. done.
  - by apply addHandler_NoDup.
  - intros h'. rewrite Hmem, addHandler_elem, Hsame. done.
  - intros h' [Hin| ->]%Hmem.
    + destruct (decide (h' = h)) as [->|Hne]; [apply lookup_insert_eq|].
      rewrite lookup_insert_ne by done. by apply Hfmt.
    + apply lookup_insert_eq.
Qed.

Lemma in_step_remove {R} (self : EventLogger R) (ls : logging_side) (h : handler) :
  in_step self ls →
  (remove_handler h self ls).1 = Ok tt ∧
  in_step (remove_handler h self ls).2.1 (remove_handler h self ls).2.2.
Proof.
  intros (hs & Hhs & Hnd & Hndl & Hsame & Hfmt).
  unfold remove_handler, removeHandler. rewrite Hhs.
  destruct (decide (h ∈ hs)) as [Hin|Hin].
  - pose proof Hin as Hinl. apply Hsame in Hinl.
    rewrite (bool_decide_true (h ∈ log_handlers _)) by done.
    destruct (list_remove_member h _ Hinl Hndl) as (l' & -> & Hndl' & Hl').
    rewrite bool_decide_true by done.
    destruct (list_remove_member h _ Hin Hnd) as (hs' & -> & Hnd' & Hhs').
    split; [done|]. simpl. exists hs'. split_and!; [done..| |].
    + intros h'. rewrite Hhs', Hl', Hsame. done.
    + intros h' [Hh' _]%Hhs'. by apply Hfmt.
  - assert (Hinl : h ∉ log_handlers (self_log ls)) by by rewrite <- Hsame.
    rewrite (bool_decide_false (h ∈ log_handlers _)) by done.
    rewrite bool_decide_false by done. split; [done|]. simpl.
    exists hs. by split_and!.
Qed.

(** X15. Once the handlers of [self.handlers] and those of [self.log] are
    the same, each once and with the JSON formatter, every call of
    [register_handler] and [remove_handler] returns and keeps them so;
    and [emit] gets past its first test exactly when [self.log] has a
    handler to write to. *)
Theorem handlers_stay_in_step {R} (cs : list handler_call) (self : EventLogger R)
    (ls : logging_side) :
  in_step self ls →
  (run_handler_calls cs self ls).1 = Ok tt ∧
  in_step (run_handler_calls cs self ls).2.1 (run_handler_calls cs self ls).2.2 ∧
  handlers_truthy (handlers (run_handler_calls cs self ls).2.1)
    = bool_decide (log_handlers (self_log (run_handler_calls cs self ls).2.2) ≠ []).
Proof.
  revert self ls. induction cs as [|c cs IH]; intros self ls Hstep.
  - simpl. split; [done|]. split; [done|].
    destruct Hstep as (hs & -> & _ & _ & Hsame & _).
    destruct hs as [|h hs], (log_handlers (self_log ls)) as [|h' l] eqn:Hl; simpl.
    + done.
    + exfalso. apply (not_elem_of_nil h'). apply Hsame. by left.
    + exfalso. apply (not_elem_of_nil h). apply Hsame. by left.
    + done.
  - simpl.
    assert (Hcall : (run_handler_call c self ls).1 = Ok tt ∧
                    in_step (run_handler_call c self ls).2.1 (run_handler_call c self ls).2.2).
    { destruct c as [h|h]; simpl; [by apply in_step_register|by apply in_step_remove]. }
    destruct (run_handler_call c self ls) as [[[]|e] [self' ls']]; simpl in Hcall.
    + apply IH. tauto.
    + by destruct Hcall.
Qed.

Lemma handlers_stay_in_step_witness :
  in_step click_logger sample_side ∧
  (run_handler_calls [RegisterHandler 1; RemoveHandler 0; RemoveHandler 1]
     click_logger sample_side).1 = Ok tt.
Proof.
  assert (Hstep : in_step click_logger sample_side).
  { exists [0]. split; [reflexivity|]. split; [apply NoDup_singleton|].
    split; [apply NoDup_singleton|]. split; [done|].
    intros h ->%list_elem_of_singleton. reflexivity. }
  split; [exact Hstep|].
  apply (handlers_stay_in_step [RegisterHandler 1; RemoveHandler 0; RemoveHandler 1]
           click_logger sample_side Hstep).
Defined.

(** The loop of [__init__] from turn [i] on: it ends, and leaves
    [self.handlers] as it found it. *)
Lemma register_each_run {R} (fuel i : nat) (self : EventLogger R) (ls : logging_side)
    (hs : list handler) :
  handlers self = Some hs →
  length hs - i < fuel →
  ∃ ls',
    register_each fuel i self ls = Some (Ok tt, (self, ls')) ∧
    log_propagate (self_log ls') = log_propagate (self_log ls) ∧
    log_level (self_log ls') = log_level (self_log ls) ∧
    (∀ h, h ∈ log_handlers (self_log ls')
          ↔ h ∈ log_handlers (self_log ls) ∨ h ∈ drop i hs) ∧
    (∀ h, handler_formatter ls' !! h =
          if bool_decide (h ∈ drop i hs) then Some JsonFormatter_skip_message
          else handler_formatter ls !! h) ∧
    (NoDup (log_handlers (self_log ls)) → NoDup (log_handlers (self_log ls'))) ∧
    (NoDup (drop i hs) →
     (∀ h, h ∈ drop i hs → h ∉ log_handlers (self_log ls)) →
     log_handlers (self_log ls') = log_handlers (self_log ls) ++ drop i hs).
Proof.
  intros Hhs. revert i ls. induction fuel as [|fuel IH]; intros i ls Hfuel; [lia|].
  simpl. rewrite Hhs. simpl.
  destruct (hs !! i) as [h|] eqn:Hi.
  2: { apply lookup_ge_None in Hi. rewrite (drop_ge hs i) by done.
       exists ls. split_and!; try done.
       - intros h. split; [tauto|]. intros [?|Hin]; [done|]. by apply elem_of_nil in Hin.
       - intros _ _. by rewrite app_nil_r. }
  assert (Hin : h ∈ hs) by by eapply list_elem_of_lookup_2.
  pose proof (lookup_lt_Some _ _ _ Hi) as Hlt.
  rewrite (register_handler_steps self ls h hs Hhs).
  rewrite bool_decide_true, set_handlers_same by done.
  set (ls1 := set_self_log (addHandler h (self_log ls))
                (setFormatter h JsonFormatter_skip_message ls)).
  destruct (IH (S i) ls1) as (ls' & Hrun & Hprop & Hlevel & Hmem & Hfmt & Hnd & Hexact); [lia|].
  rewrite (drop_S _ _ _ Hi).
  destruct (addHandler_fields h (self_log ls)) as [Hp Hl].
  exists ls'. split_and!; [done|by rewrite Hprop|by rewrite Hlevel| | | |].
  - intros h'. rewrite Hmem. unfold ls1. simpl. rewrite addHandler_elem, elem_of_cons. tauto.
  - intros h'. rewrite Hfmt. unfold ls1. simpl.
    destruct (decide (h' = h)) as [->|Hne].
    + rewrite (bool_decide_true (h ∈ h :: _)) by by left.
      rewrite lookup_insert_eq. by case_bool_decide.
    + rewrite lookup_insert_ne by done.
      destruct (decide (h' ∈ drop (S i) hs)) as [Hd|Hd].
      * rewrite !bool_decide_true; [done|by right|done].
      * rewrite !bool_decide_false; [done| |done].
        by intros [?|?]%elem_of_cons.
  - intros Hnd0. apply Hnd. unfold ls1. simpl. by apply addHandler_NoDup.
  - intros [Hh Hnd0]%NoDup_cons Hnew.
    rewrite Hexact; [| done |].
    + unfold ls1. simpl. unfold addHandler.
      rewrite bool_decide_false by (apply Hnew; by left).
      simpl. by rewrite <- app_assoc.
    + intros h' Hh'. unfold ls1. simpl. rewrite addHandler_elem.
      intros [Hold| ->]; [|done]. revert Hold. apply Hnew. by right.
Qed.

(** X16. [__init__] returns, and leaves [self.handlers] as it was given,
    although [register_handler] is free to append to the list that the
    loop is reading. [self.log] then does not propagate, has level
    [INFO], and holds the handlers it had when [getLogger] found it
    together with those of [self.handlers], each of which has the JSON
    formatter; the other handlers keep their formatter. If the logger
    that [getLogger] found had no handler and [self.handlers] names none
    twice, [self.log] holds exactly [self.handlers], in that order. *)
Theorem init_registers_handlers {R} (fuel : nat) (self : EventLogger R)
    (found : pylogger) (formatters : gmap handler formatter) :
  length (default [] (handlers self)) < fuel →
  ∃ ls,
    __init__ fuel self found formatters = Some (Ok tt, (self, ls)) ∧
    log_propagate (self_log ls) = false ∧
    log_level (self_log ls) = INFO ∧
    (∀ h, h ∈ log_handlers (self_log ls)
          ↔ h ∈ log_handlers found ∨ h ∈ default [] (handlers self)) ∧
    (∀ h, handler_formatter ls !! h =
          if bool_decide (h ∈ default [] (handlers self))
          then Some JsonFormatter_skip_message
          else formatters !! h) ∧
    (∀ hs, handlers self = Some hs → NoDup hs → log_handlers found = [] →
           log_handlers (self_log ls) = hs ∧ in_step self ls).
Proof.
  intros Hfuel. unfold __init__. simpl.
  assert (Hnone : ∀ (l : list handler) (h : handler), h ∈ l ↔ h ∈ l ∨ h ∈ @nil handler).
  { intros l h. split; [tauto|]. intros [?|Hin]; [done|]. by apply elem_of_nil in Hin. }
  destruct (handlers self) as [[|h0 hs0]|] eqn:Hhs; simpl.
  - eexists. split_and!; try done; simpl.
    intros hs [= <-] _ Hfound. split; [done|]. exists []. simpl. rewrite Hfound.
    split_and!; [done|apply NoDup_nil_2|apply NoDup_nil_2|done|].
    intros h Hin. by apply elem_of_nil in Hin.
  - simpl in Hfuel.
    set (ls0 := {| self_log := {| log_handlers := log_handlers found;
                                   log_propagate := false; log_level := INFO |};
                   handler_formatter := formatters |}).
    destruct (register_each_run fuel 0 self ls0 (h0 :: hs0) Hhs)
      as (ls & Hrun & Hprop & Hlevel & Hmem & Hfmt & Hnd & Hexact); [simpl; lia|].
    rewrite drop_0 in *.
    exists ls. split_and!; try done.
    intros hs [= <-] Hnd0 Hfound.
    assert (Hlist : log_handlers (self_log ls) = h0 :: hs0).
    { rewrite Hexact; [by simpl; rewrite Hfound|done|].
      intros h _. simpl. rewrite Hfound. apply not_elem_of_nil. }
    split; [done|]. exists (h0 :: hs0). rewrite Hlist.
    split_and!; [done..|].
    intros h Hin. rewrite Hfmt. by rewrite bool_decide_true.
  - eexists. split_and!; try done.
Qed.

Lemma init_registers_handlers_witness :
  ∃ ls,
    __init__ 3 (new_logger strict_registry (Some [0; 1])) fresh_log ∅
      = Some (Ok tt, (new_logger strict_registry (Some [0; 1]), ls)) ∧
    log_handlers (self_log ls) = [0; 1].
Proof.
  destruct (init_registers_handlers 3 (new_logger strict_registry (Some [0; 1]))
              fresh_log ∅) as (ls & Hinit & _ & _ & _ & _ & Hexact); [simpl; lia|].
  exists ls. split; [exact Hinit|].
  apply (Hexact [0; 1]); [reflexivity| |reflexivity].
  apply (bool_decide_unpack _). reflexivity.
Defined.

(** ** Keys of the registry and keys of the table *)

Lemma table_set_NoDup (t : table) k s : NoDup t.*1 → NoDup (table_set t k s).*1.
Proof.
  induction t as [|[k' s'] t IH]; simpl.
  - intros _. apply NoDup_singleton.
  - intros [Hk' Hnd]%NoDup_cons. destruct (decide (k' = k)) as [->|Hne]; simpl.
    + by apply NoDup_cons.
    + apply NoDup_cons. split; [|by apply IH].
      intros Hin. apply table_get_is_Some in Hin.
      rewrite table_get_set_ne in Hin by done.
      apply Hk'. apply dec_stable. intros Hn. apply table_get_None in Hn.
      rewrite Hn in Hin. by destruct Hin.
Qed.

Lemma find_doc_is_Some (k : key) (r : registry) :
  is_Some (find_doc k r) ↔ ∃ d, d ∈ reg_docs r ∧ doc_key d = k.
Proof.
  unfold find_doc. split.
  - intros [d Hd]. apply find_some in Hd as [Hin Hk].
    exists d. split; [by apply list_elem_of_In|]. by apply bool_decide_eq_true in Hk.
  - intros (d & Hin & Hk).
    destruct (find (λ d0, bool_decide (doc_key d0 = k)) (reg_docs r)) as [d'|] eqn:Hf; [eauto|].
    exfalso. apply list_elem_of_In in Hin.
    pose proof (find_none _ _ Hf d Hin) as Hno. simpl in Hno.
    by apply bool_decide_eq_false in Hno.
Qed.

(** The registry of the examples takes in the key it returns and no other. *)
Lemma simple_register_adds_its_key : register_adds_its_key registry.
Proof.
  intros d r k. simpl. unfold simple_register.
  destruct (bool_decide (doc_version d < 1)%Z) eqn:Hv; [by left|].
  destruct (find_doc (doc_key d) r) as [d0|] eqn:Hfound.
  - destruct (reg_accepts_duplicates r); [|by left]. simpl.
    intros Hin%bool_decide_eq_true%find_doc_is_Some. simpl in Hin.
    destruct Hin as (d' & Hd' & Hk). apply elem_of_cons in Hd' as [->|Hd'].
    + right. by rewrite Hk.
    + left. apply bool_decide_eq_true, find_doc_is_Some.
      apply list_elem_of_filter in Hd' as [_ Hd']. eauto.
  - simpl. intros Hin%bool_decide_eq_true%find_doc_is_Some. simpl in Hin.
    destruct Hin as (d' & Hd' & Hk). apply elem_of_app in Hd' as [Hd'|Hd'].
    + left. apply bool_decide_eq_true, find_doc_is_Some. eauto.
    + apply list_elem_of_singleton in Hd' as ->. right. by rewrite Hk.
Qed.

Section Setup.
Context {R : Type} `{SchemaRegistry R}.
Hypothesis Hlaw : register_adds_its_key R.

Lemma keys_tracked_call (c : logger_call schema_source) (self : EventLogger R) :
  keys_tracked self → NoDup (_modifiers self).*1 →
  keys_tracked (run_logger_call c self).2 ∧ NoDup (_modifiers (run_logger_call c self).2).*1.
Proof.
  intros Htracked Hnd. destruct c as [schema|schema_id version given|schema_id m]; simpl.
  - unfold register_event_schema.
    pose proof (Hlaw schema (schemas self)) as Hk.
    destruct (registry_register schema (schemas self)) as [[k0|code] r]; simpl in *.
    + split; [|by apply table_set_NoDup].
      intros k Hin. simpl in *. destruct (Hk k Hin) as [Hold|[= ->]].
      * by apply table_get_set_is_Some, Htracked.
      * rewrite table_get_set_eq. eauto.
    + split; [|done]. intros k Hin. simpl in *.
      destruct (Hk k Hin) as [Hold|?]; [by apply Htracked|done].
  - destruct (modifier_calls_frame self schema_id version given stamp)
      as (Hkeys & _ & Hsch & _).
    split; [|by rewrite Hkeys]. intros k. rewrite Hsch. intros Hin%Htracked.
    apply dec_stable. intros Hn. apply eq_None_not_Some, table_get_None in Hn.
    rewrite Hkeys in Hn. apply table_get_None in Hn. rewrite Hn in Hin. by destruct Hin.
  - destruct (modifier_calls_frame self schema_id None NotCallable m)
      as (_ & _ & _ & Hkeys & _ & Hsch).
    split; [|by rewrite Hkeys]. intros k. rewrite Hsch. intros Hin%Htracked.
    apply dec_stable. intros Hn. apply eq_None_not_Some, table_get_None in Hn.
    rewrite Hkeys in Hn. apply table_get_None in Hn. rewrite Hn in Hin. by destruct Hin.
Qed.

Lemma keys_tracked_calls (cs : list (logger_call schema_source)) (self : EventLogger R) :
  keys_tracked self → NoDup (_modifiers self).*1 →
  keys_tracked (run_logger_calls cs self) ∧ NoDup (_modifiers (run_logger_calls cs self)).*1.
Proof.
  revert self. induction cs as [|c cs IH]; intros self Htracked Hnd; [done|].
  simpl. destruct (keys_tracked_call c self Htracked Hnd). by apply IH.
Qed.

End Setup.

(** X17. On a registry that takes in no key but the one [register] returns,
    a logger that has a set for each key of the registry keeps one
    through every call of [register_event_schema], [add_modifier] and
    [remove_modifier], whether the call returns or raises, and the table
    never has a key twice. On such a logger the lookup
    [self._modifiers[(schema_id, version)]] of [emit] finds its set:
    [emit] does not raise [KeyError]. *)
Theorem emit_after_setup_finds_modifiers {R} `{SchemaRegistry R}
    (cs : list (logger_call schema_source)) (self : EventLogger R) :
  register_adds_its_key R →
  keys_tracked self →
  NoDup (_modifiers self).*1 →
  keys_tracked (run_logger_calls cs self) ∧
  NoDup (_modifiers (run_logger_calls cs self)).*1 ∧
  ∀ schema_id version data timestamp_override w,
    (emit schema_id version data timestamp_override (run_logger_calls cs self) w).1
      ≠ Raise KeyError.
Proof.
  intros Hlaw Htracked Hnd.
  destruct (keys_tracked_calls Hlaw cs self Htracked Hnd) as [Htracked' Hnd'].
  split; [done|]. split; [done|].
  intros schema_id version data ts w.
  set (self' := run_logger_calls cs self) in *.
  destruct (handlers_truthy (handlers self')) eqn:Hh.
  2: { unfold emit. by rewrite Hh. }
  destruct (registry_contains (schema_id, version) (schemas self')) eqn:Hc.
  2: { rewrite emit_unknown_key_steps by done. simpl. by case_bool_decide. }
  destruct (emit_paths schema_id version data ts self' w Hh Hc) as (evs & _ & _ & Hpath).
  intros Hraise. apply Htracked' in Hc as [ms Hms].
  destruct Hpath as [(e & He & _ & [->|[-> Hnone]])|(ms' & calls & j & _ & _ & Hpath)];
    [congruence..|].
  destruct Hpath
    as [(code & He & _)|(_ & y' & [(e & He & _ & [[code ->]|[[->| ->] _]])|(c & He & _)])];
    congruence.
Qed.

Lemma emit_after_setup_finds_modifiers_witness :
  (emit "org.test.click" 1 0 None
     (run_logger_calls
        [RegisterEventSchema click; AddModifier None None (Callable stamp);
         RegisterEventSchema click; RemoveModifier None failing]
        (new_logger strict_registry (Some [0])))
     (sample_world click_heap)).1 ≠ Raise KeyError.
Proof.
  destruct (@emit_after_setup_finds_modifiers registry simple_registry
              [RegisterEventSchema click; AddModifier None None (Callable stamp);
               RegisterEventSchema click; RemoveModifier None failing]
              (new_logger strict_registry (Some [0])))
    as (_ & _ & Hemit).
  - exact simple_register_adds_its_key.
  - intros k Hk. done.
  - apply NoDup_nil_2.
  - apply Hemit.
Defined.

(** ** [deepcopy]: the copy mirrors the original *)

Lemma rename_val_known (m m' : gmap loc loc) (v : val) :
  val_known m v → m ⊆ m' → val_known m' v ∧ rename_val m' v = rename_val m v.
Proof.
  destruct v as [| | | |l]; simpl; try done.
  intros [y Hy] Hsub. rewrite Hy, (lookup_weaken _ _ _ _ Hy Hsub). eauto.
Qed.

Lemma Forall_known_weaken (m m' : gmap loc loc) (vs : list val) :
  Forall (val_known m) vs → m ⊆ m' →
  Forall (val_known m') vs ∧ rename_val m' <$> vs = rename_val m <$> vs.
Proof.
  intros Hvs Hsub. induction Hvs as [|v vs Hv Hvs [IH1 IH2]]; [done|].
  destruct (rename_val_known m m' v Hv Hsub) as [Hk Hr].
  split; [by constructor|]. rewrite !fmap_cons. by rewrite Hr, IH2.
Qed.

Lemma dict_vals_elem (items : gmap string val) k v :
  items !! k = Some v → v ∈ (map_to_list items).*2.
Proof.
  intros Hk. apply list_elem_of_fmap. exists (k, v). split; [done|].
  by apply elem_of_map_to_list.
Qed.

Lemma obj_rename_known (m m' : gmap loc loc) (o : obj) :
  Forall (val_known m) (obj_vals o) → m ⊆ m' →
  Forall (val_known m') (obj_vals o) ∧ obj_rename m' o = obj_rename m o.
Proof.
  intros Hvs Hsub.
  destruct (Forall_known_weaken m m' _ Hvs Hsub) as [Hk Hr]. split; [done|].
  destruct o as [items|elems]; simpl in *; [|by rewrite Hr].
  f_equal. apply map_fmap_ext. intros k v Hkv.
  rewrite Forall_forall in Hvs.
  apply (rename_val_known m m' v); [|done].
  apply Hvs. by eapply dict_vals_elem.
Qed.

Lemma zip_fmap_snd {A B C} (f : B → C) (l : list (A * B)) :
  zip l.*1 (f <$> l.*2) = prod_map id f <$> l.
Proof. induction l as [|[a b] l IH]; [done|]. rewrite !fmap_cons. simpl. by rewrite IH. Qed.

Lemma obj_fill_rename (m : gmap loc loc) (o : obj) :
  obj_fill o (rename_val m <$> obj_vals o) = obj_rename m o.
Proof.
  destruct o as [items|elems]; simpl; [|done].
  by rewrite zip_fmap_snd, list_to_map_fmap, list_to_map_to_list.
Qed.

Section CopyMirror.
Variable h0 : heap.
Hypothesis h0_wf : heap_wf h0.

Lemma copy_all_mirror (f : val → cstate → option (val * cstate)) (pending : gset loc) :
  (∀ v s v' s', val_ok (length h0) v → copy_mirror_inv h0 pending s →
                f v s = Some (v', s') →
                copy_mirror_inv h0 pending s' ∧ c_memo s ⊆ c_memo s' ∧
                val_known (c_memo s') v ∧ v' = rename_val (c_memo s') v) →
  ∀ vs s vs' s',
    Forall (val_ok (length h0)) vs → copy_mirror_inv h0 pending s →
    copy_all f vs s = Some (vs', s') →
    copy_mirror_inv h0 pending s' ∧ c_memo s ⊆ c_memo s' ∧
    Forall (val_known (c_memo s')) vs ∧ vs' = rename_val (c_memo s') <$> vs.
Proof.
  intros Hf vs. induction vs as [|v vs IH]; intros s vs' s' Hok Hinv Hall; simpl in Hall.
  - by simplify_eq.
  - apply Forall_cons in Hok as [Hv Hok].
    destruct (f v s) as [[v1 s1]|] eqn:Hfv; [|done].
    destruct (copy_all f vs s1) as [[vs2 s2]|] eqn:Hrest; [|done]. simplify_eq.
    destruct (Hf _ _ _ _ Hv Hinv Hfv) as (Hinv1 & Hsub1 & Hk1 & ->).
    destruct (IH _ _ _ Hok Hinv1 Hrest) as (Hinv2 & Hsub2 & Hk2 & ->).
    destruct (rename_val_known _ _ v Hk1 Hsub2) as [Hk Hr].
    split; [done|]. split; [by etrans|]. split; [by constructor|].
    rewrite fmap_cons. by rewrite Hr.
Qed.

Lemma deepcopy_val_mirror (fuel : nat) (pending : gset loc) v s v' s' :
  val_ok (length h0) v → copy_mirror_inv h0 pending s →
  deepcopy_val fuel v s = Some (v', s') →
  copy_mirror_inv h0 pending s' ∧ c_memo s ⊆ c_memo s' ∧
  val_known (c_memo s') v ∧ v' = rename_val (c_memo s') v.
Proof.
  revert pending v s v' s'.
  induction fuel as [|fuel IH]; intros pending v s v' s' Hv Hinv Hc.
  - destruct v as [| | | |l]; simpl in Hc; simplify_eq; try done.
    destruct (c_memo s !! l) as [y|] eqn:Hm; [|done]. simplify_eq.
    simpl. rewrite Hm. by eauto.
  - destruct v as [| | | |l]; simpl in Hc; simplify_eq; try done.
    destruct (c_memo s !! l) as [y|] eqn:Hm.
    { simplify_eq. simpl. rewrite Hm. by eauto. }
    destruct (c_heap s !! l) as [o|] eqn:Ho; [|done].
    destruct (copy_all _ _ _) as [[vs' s2]|] eqn:Hall; [|done]. simplify_eq.
    simpl in Hv.
    destruct Hinv as ((Hlen & Hsame) & Hrange & Hinj & Hdone).
    assert (Ho0 : h0 !! l = Some o) by by rewrite <- Hsame.
    pose proof (h0_wf _ _ Ho0) as Hvals.
    set (y := length (c_heap s)) in *.
    set (s1 := {| c_heap := c_heap s ++ [obj_blank o];
                  c_memo := <[l:=y]> (c_memo s) |}) in *.
    assert (Hsub1 : c_memo s ⊆ c_memo s1) by by apply insert_subseteq.
    assert (Hinv1 : copy_mirror_inv h0 (pending ∪ {[l]}) s1).
    { split_and!; simpl.
      - split; simpl; [rewrite length_app; lia|].
        intros i Hi. rewrite lookup_app_l by lia. by apply Hsame.
      - intros a b. rewrite length_app. simpl.
        destruct (decide (l = a)) as [<-|Hne].
        + rewrite lookup_insert_eq. intros [= <-]. unfold y. lia.
        + rewrite lookup_insert_ne by done. intros Hb.
          destruct (Hrange _ _ Hb) as (? & ? & ?). lia.
      - intros a a' b.
        destruct (decide (l = a)) as [<-|Hne], (decide (l = a')) as [<-|Hne'];
          rewrite ?lookup_insert_eq, ?lookup_insert_ne by done; try done.
        + intros [= <-] Hb. destruct (Hrange _ _ Hb) as (? & ? & ?). unfold y in *. lia.
        + intros Hb [= <-]. destruct (Hrange _ _ Hb) as (? & ? & ?). unfold y in *. lia.
        + apply Hinj.
      - intros a b Hb Hpend.
        apply not_elem_of_union in Hpend as [Hpend Hne%not_elem_of_singleton].
        rewrite lookup_insert_ne in Hb by done.
        destruct (Hdone _ _ Hb Hpend) as (o' & Ho' & Hk' & Hcopy).
        destruct (obj_rename_known _ _ o' Hk' Hsub1) as [Hk1 Hr1].
        unfold s1 in Hk1, Hr1. simpl in Hk1, Hr1.
        exists o'. split; [done|]. split; [done|].
        rewrite Hr1. destruct (Hrange _ _ Hb) as (? & ? & ?).
        by rewrite lookup_app_l. }
    destruct (copy_all_mirror (deepcopy_val fuel) (pending ∪ {[l]})
                (λ v s v' s', IH (pending ∪ {[l]}) v s v' s') _ _ _ _ Hvals Hinv1 Hall)
      as (((Hlen2 & Hsame2) & Hrange2 & Hinj2 & Hdone2) & Hsub2 & Hk2 & ->).
    assert (Hy2 : c_memo s2 !! l = Some y).
    { apply (lookup_weaken _ _ _ _ (lookup_insert_eq _ _ _) Hsub2). }
    destruct (Hrange2 _ _ Hy2) as (Hl0 & Hy0 & Hylt).
    split_and!; simpl.
    + split_and!; simpl.
      * split; simpl; [by rewrite length_insert|].
        intros i Hi. rewrite list_lookup_insert_ne by lia. by apply Hsame2.
      * intros a b Hb. rewrite length_insert. by apply Hrange2.
      * done.
      * intros a b Hb Hpend. destruct (decide (a = l)) as [->|Hne].
        -- assert (b = y) as -> by congruence.
           exists o. split; [done|]. split; [done|].
           rewrite list_lookup_insert_eq by done. by rewrite obj_fill_rename.
        -- destruct (Hdone2 a b Hb) as (o' & Ho' & Hk' & Hcopy).
           { apply not_elem_of_union. split; [done|]. by apply not_elem_of_singleton. }
           exists o'. split; [done|]. split; [done|].
           rewrite list_lookup_insert_ne; [done|].
           intros <-. apply Hne. by eapply Hinj2.
    + by etrans.
    + by rewrite Hy2.
    + by rewrite Hy2.
Qed.

End CopyMirror.

(** The copy [deepcopy] returns is a mirror image of what hangs from
    the original. *)
Lemma deepcopy_mirrors (h : heap) (l y : loc) (h' : heap) :
  heap_wf h → l < length h →
  deepcopy h l = Some (y, h') →
  ∃ memo, memo !! l = Some y ∧ mirrors memo h h'.
Proof.
  intros Hwf Hl Hcopy. unfold deepcopy in Hcopy.
  destruct (deepcopy_val _ _ _) as [[v' s']|] eqn:Hval; [|done].
  assert (Hstart : copy_mirror_inv h ∅ {| c_heap := h; c_memo := ∅ |}).
  { by split_and!. }
  destruct (deepcopy_val_mirror h Hwf (length h) ∅ (VRef l) _ v' s' Hl Hstart Hval)
    as ((_ & Hrange & Hinj & Hdone) & _ & [y' Hy'] & ->).
  simpl in Hcopy. rewrite Hy' in Hcopy. simpl in Hcopy. simplify_eq.
  exists (c_memo s'). split; [done|]. split; [|done].
  intros a b Hb. destruct (Hrange _ _ Hb) as (? & ? & ?). split; [done|].
  by apply Hdone.
Qed.

Lemma mirrors_app (memo : gmap loc loc) (h h' extra : heap) :
  mirrors memo h h' → mirrors memo h (h' ++ extra).
Proof.
  intros [Hm Hinj]. split; [|done]. intros a b Hb.
  destruct (Hm a b Hb) as (Hge & o & Ho & Hk & Hcopy).
  split; [done|]. exists o. split; [done|]. split; [done|].
  rewrite lookup_app_l; [done|]. by eapply lookup_lt_Some.
Qed.

(** A schema that strips nothing leaves the event as it is. *)
Lemma simple_validate_no_redaction schema_id version (r : registry) (y : loc) (h : heap) :
  (∀ d, find_doc (schema_id, version) r = Some d → doc_redacted d = []) →
  (simple_validate_event schema_id version y r h).2 = h.
Proof.
  intros Hplain. unfold simple_validate_event.
  destruct (find_doc (schema_id, version) r) as [d|]; [|done].
  destruct (h !! y) as [[items|elems]|] eqn:Hy; try done.
  destruct (conforms d items); [|done]. simpl.
  unfold redact. rewrite (Hplain d eq_refl).
  rewrite map_filter_id; [by apply list_insert_id|].
  intros k v _. apply not_elem_of_nil.
Qed.

(** X18. An event of a schema that has no modifier, on a registry whose
    validation writes nothing: the envelope that [emit] returns holds
    the fields of the payload (strings, numbers, booleans and [None] as
    they are, a dict or list as a reference to its copy) and, under the
    keys the payload does not set, the capsule. The copies are new
    objects and mirror what hangs from the payload, shared and cyclic
    parts included. *)
Theorem emit_envelope_mirrors_payload {R} `{SchemaRegistry R} (self : EventLogger R)
    schema_id version data timestamp_override (w : world)
    (items : gmap string val) (c : loc) :
  table_get (_modifiers self) (schema_id, version) = Some [] →
  (∀ y h, (registry_validate_event schema_id version y (schemas self) h).2 = h) →
  heap_wf (w_heap w) →
  w_heap w !! data = Some (ODict items) →
  (emit schema_id version data timestamp_override self w).1 = Ok (Some c) →
  ∃ memo envelope,
    is_Some (memo !! data) ∧
    mirrors memo (w_heap w) (w_heap (emit schema_id version data timestamp_override self w).2) ∧
    length (w_heap w) ≤ c ∧
    w_heap (emit schema_id version data timestamp_override self w).2 !! c
      = Some (ODict envelope) ∧
    (∀ k v, items !! k = Some v →
            val_known memo v ∧ envelope !! k = Some (rename_val memo v)) ∧
    (∀ k, items !! k = None →
          envelope !! k
          = capsule_literal (default (w_utcnow w) timestamp_override) schema_id version !! k).
Proof.
  intros Hms Hquiet Hwf Hdata Hret.
  destruct (handlers_truthy (handlers self)) eqn:Hh.
  2: { unfold emit in Hret. by rewrite Hh in Hret. }
  destruct (registry_contains (schema_id, version) (schemas self)) eqn:Hc.
  2: { rewrite emit_unknown_key_steps in Hret by done. simpl in Hret.
       by case_bool_decide. }
  pose proof (lookup_lt_Some _ _ _ Hdata) as Hlt.
  rewrite emit_known_key_steps in Hret |- * by done. simpl in Hret |- *.
  destruct (deepcopy (w_heap w) data) as [[y h1]|] eqn:Hcopy; [|done].
  rewrite Hms in Hret |- *. simpl in Hret |- *.
  pose proof (Hquiet y h1) as Hsame.
  destruct (registry_validate_event schema_id version y (schemas self) h1)
    as [[[]|code] h4]; simpl in Hsame; subst h4; [|done].
  destruct (deepcopy_mirrors _ _ _ _ Hwf Hlt Hcopy) as (memo & Hy & Hmirror).
  pose proof Hmirror as [Hm _].
  destruct (Hm _ _ Hy) as (Hge & o & Ho & Hknown & Hcopied).
  rewrite Hdata in Ho. injection Ho as <-. simpl in Hcopied, Hknown.
  pose proof (lookup_lt_Some _ _ _ Hcopied) as Hy1.
  rewrite lookup_app_l in Hret |- * by done.
  rewrite Hcopied in Hret |- *. simpl in Hret |- *. injection Hret as <-.
  exists memo. eexists. split; [by eauto|]. split; [by apply mirrors_app|].
  split; [lia|]. split; [by rewrite lookup_app_r, Nat.sub_diag by done|].
  split.
  - intros k v Hk. split.
    + rewrite Forall_forall in Hknown. apply Hknown. by eapply dict_vals_elem.
    + by rewrite dict_update_lookup, lookup_fmap, Hk.
  - intros k Hk. by rewrite dict_update_lookup, lookup_fmap, Hk.
Qed.

Lemma emit_envelope_mirrors_payload_witness :
  ∃ (memo : gmap loc loc) (envelope : gmap string val),
    mirrors memo nested_heap
      (w_heap (emit "org.test.click" 1 0 None click_logger (sample_world nested_heap)).2) ∧
    envelope !! "x"%string = Some (VInt 5) ∧
    envelope !! "tags"%string = Some (rename_val memo (VRef 1)).
Proof.
  destruct (@emit_envelope_mirrors_payload registry simple_registry click_logger
              "org.test.click" 1 0 None (sample_world nested_heap)
              (list_to_map [("x"%string, VInt 5); ("tags"%string, VRef 1)]) 4)
    as (memo & envelope & _ & Hmirror & _ & _ & Hfields & _).
  - reflexivity.
  - intros y h. apply simple_validate_no_redaction.
    intros d Hd. vm_compute in Hd. by simplify_eq.
  - intros l o Hl. destruct l as [|[|l]]; simpl in Hl; [| |done]; simplify_eq;
      vm_compute; repeat constructor.
  - reflexivity.
  - reflexivity.
  - exists memo, envelope. split; [exact Hmirror|].
    split.
    + apply (proj2 (Hfields "x"%string (VInt 5) eq_refl)).
    + apply (proj2 (Hfields "tags"%string (VRef 1) eq_refl)).
Defined.

(** ** Modifiers that were added or removed, at the next [emit] *)

(** The modifiers [emit] calls are the first [j] of the set of its key. *)
Lemma emit_called_modifiers {R} `{SchemaRegistry R} (self : EventLogger R)
    schema_id version data ts (w : world) :
  ∃ evs ms j,
    w_trace (emit schema_id version data ts self w).2 = w_trace w ++ evs ∧
    omap called_modifier evs = mod_id <$> take j ms ∧
    (ms = [] ∨ table_get (_modifiers self) (schema_id, version) = Some ms) ∧
    ∀ c, (emit schema_id version data ts self w).1 = Ok (Some c) →
         table_get (_modifiers self) (schema_id, version) = Some ms ∧ j = length ms.
Proof.
  destruct (handlers_truthy (handlers self)) eqn:Hh.
  2: { unfold emit. rewrite Hh. simpl. exists [], [], 0.
       rewrite app_nil_r. split_and!; [done|done|by left|done]. }
  destruct (registry_contains (schema_id, version) (schemas self)) eqn:Hc.
  2: { rewrite emit_unknown_key_steps by done. simpl.
       case_bool_decide; simpl; eexists _, [], 0;
         (split_and!; [done|done|by left|done]). }
  destruct (emit_paths schema_id version data ts self w Hh Hc) as (evs & Htr & _ & Hpath).
  destruct Hpath as [(e & He & -> & _)|(ms & calls & j & Hms & (_ & Hcalled & _) & Hpath)].
  { eexists _, [], 0. split_and!; [done|done|by left|]. intros c. by rewrite He. }
  exists ([EvContains (schema_id, version); EvDeepcopy data] ++ evs), ms, j.
  split; [done|].
  destruct Hpath as [(code & He & -> & _)|(-> & y' & [(e & He & -> & _)|(c & He & ->)])].
  - split_and!; [done|by right|]. intros c. by rewrite He.
  - split_and!; [|by right|intros c; by rewrite He].
    simpl. rewrite omap_app. simpl. by rewrite app_nil_r.
  - split_and!; [|by right|done].
    simpl. rewrite omap_app. simpl. by rewrite app_nil_r.
Qed.

Lemma count_id_absent (n : nat) (ids : list nat) :
  n ∉ ids → filter (λ x, x = n) ids = [].
Proof.
  induction ids as [|x ids IH]; [done|].
  intros [Hne Hrest]%not_elem_of_cons.
  rewrite filter_cons_False by done. by apply IH.
Qed.

Lemma set_mem_ids (m : modifier) (s : list modifier) :
  set_mem m s = true ↔ mod_id m ∈ mod_id <$> s.
Proof.
  unfold set_mem. rewrite existsb_exists, list_elem_of_fmap. split.
  - intros (m' & Hin & Hsame). apply bool_decide_eq_true in Hsame.
    exists m'. split; [done|]. by apply list_elem_of_In.
  - intros (m' & Hid & Hin). exists m'. split; [by apply list_elem_of_In|].
    by apply bool_decide_eq_true.
Qed.

Lemma count_id_once (n : nat) (ids : list nat) :
  NoDup ids → n ∈ ids → length (filter (λ x, x = n) ids) = 1.
Proof.
  induction ids as [|x ids IH]; intros Hnd Hin; [by apply elem_of_nil in Hin|].
  apply NoDup_cons in Hnd as [Hx Hnd].
  destruct (decide (x = n)) as [->|Hne].
  - rewrite filter_cons_True by done. simpl. by rewrite count_id_absent.
  - rewrite filter_cons_False by done. apply IH; [done|].
    apply elem_of_cons in Hin as [->|Hin]; done.
Qed.

Lemma set_add_ids (m : modifier) (s : list modifier) :
  NoDup (mod_id <$> s) →
  NoDup (mod_id <$> set_add m s) ∧ mod_id m ∈ mod_id <$> set_add m s.
Proof.
  intros Hnd. unfold set_add. destruct (set_mem m s) eqn:Hmem.
  - split; [done|]. by apply set_mem_ids.
  - rewrite fmap_app. simpl. split.
    + apply NoDup_app. split; [done|]. split; [|apply NoDup_singleton].
      intros x Hx ->%list_elem_of_singleton.
      apply set_mem_ids in Hx. congruence.
    + apply elem_of_app. right. by apply list_elem_of_singleton.
Qed.

(** X19. A callable added for one schema is called once by every [emit] of
    that schema that returns an envelope. *)
Theorem added_modifier_called_once {R} `{SchemaRegistry R} (self self' : EventLogger R)
    (id : string) (v : Z) (m : modifier) (s : list modifier)
    data timestamp_override (w : world) (c : loc) :
  id ≠ ""%string → v ≠ 0%Z →
  table_get (_modifiers self) (id, v) = Some s →
  NoDup (mod_id <$> s) →
  add_modifier (Some id) (Some v) (Callable m) self = (Ok tt, self') →
  (emit id v data timestamp_override self' w).1 = Ok (Some c) →
  ∃ evs,
    w_trace (emit id v data timestamp_override self' w).2 = w_trace w ++ evs ∧
    length (filter (λ x, x = mod_id m) (omap called_modifier evs)) = 1.
Proof.
  intros Hid Hv Hs Hnd Hadd Hret.
  assert (Hsig : mod_signature m = expected_signature).
  { unfold add_modifier in Hadd. by case_bool_decide. }
  destruct (scoped_add_lookup self id v m s Hsig Hid Hv Hs)
    as (self1 & Hadd1 & _ & _ & _ & Hget & _).
  rewrite Hadd in Hadd1. injection Hadd1 as <-.
  destruct (emit_called_modifiers self' id v data timestamp_override w)
    as (evs & ms & j & Htr & Hcalled & _ & Hall).
  destruct (Hall c Hret) as [Hms ->].
  rewrite Hget in Hms. injection Hms as <-.
  exists evs. split; [done|].
  rewrite Hcalled, firstn_all.
  destruct (set_add_ids m s Hnd). by apply count_id_once.
Qed.

Lemma added_modifier_called_once_witness :
  ∃ evs,
    w_trace (emit "org.test.click" 1 0 None stamping_logger (sample_world click_heap)).2
      = [] ++ evs ∧
    length (filter (λ x, x = 1) (omap called_modifier evs)) = 1.
Proof.
  apply (@added_modifier_called_once registry simple_registry click_logger stamping_logger
           "org.test.click" 1 stamp [] 0 None (sample_world click_heap) 2);
    [done|done|reflexivity|apply NoDup_nil_2|reflexivity|reflexivity].
Defined.

(** X20. Once [remove_modifier] without a schema id has returned, no [emit]
    calls the callable, whatever the schema and however the call
    ends. *)
Theorem removed_modifier_never_called {R} `{SchemaRegistry R} (self self' : EventLogger R)
    (m : modifier) schema_id version data timestamp_override (w : world) :
  remove_modifier None m self = (Ok tt, self') →
  ∃ evs,
    w_trace (emit schema_id version data timestamp_override self' w).2 = w_trace w ++ evs ∧
    mod_id m ∉ omap called_modifier evs.
Proof.
  intros Hrem.
  assert (Hget : ∀ k, table_get (_modifiers self') k
                      = others m <$> table_get (_modifiers self) k).
  { unfold remove_modifier in Hrem. simpl in Hrem.
    destruct (forallb (λ ks, set_mem m ks.2) (_modifiers self)) eqn:Hall.
    - rewrite (remove_from_all_ok m _ Hall) in Hrem. injection Hrem as <-.
      intros k. simpl. apply table_get_fmap.
    - pose proof (remove_from_all_raises m _ Hall) as Hr.
      destruct (remove_from_all m (_modifiers self)). simpl in Hr. congruence. }
  destruct (emit_called_modifiers self' schema_id version data timestamp_override w)
    as (evs & ms & j & Htr & Hcalled & Hms & _).
  exists evs. split; [done|]. rewrite Hcalled.
  destruct Hms as [->|Hms]; [rewrite take_nil; apply not_elem_of_nil|].
  rewrite Hget in Hms.
  destruct (table_get (_modifiers self) (schema_id, version)) as [s|]; [|done].
  injection Hms as <-.
  intros Hin. apply list_elem_of_fmap in Hin as (m' & Hid & Hin).
  apply elem_of_take in Hin as (i & Hin & _).
  apply list_elem_of_lookup_2 in Hin.
  assert (Hmem : set_mem m (others m s) = true).
  { apply set_mem_ids. apply list_elem_of_fmap. eauto. }
  by rewrite set_mem_others in Hmem.
Qed.

Lemma removed_modifier_never_called_witness :
  ∃ evs,
    w_trace (emit "org.test.click" 1 0 None (remove_modifier None stamp stamping_logger).2
               (sample_world click_heap)).2 = [] ++ evs ∧
    1 ∉ omap called_modifier evs.
Proof.
  apply (@removed_modifier_never_called registry simple_registry stamping_logger
           (remove_modifier None stamp stamping_logger).2 stamp
           "org.test.click" 1 0 None (sample_world click_heap)).
  reflexivity.
Defined.

(** ** A removal that fails half way *)



